(** * Detective Quest (nivel mestre): the mansion map, the clue ledger, the
    suspect index, the exploration loop and the final judgement.

    Shallow embedding of [algoritmos_avancados.c] (the master-level program,
    lines 1-535) and, for the handling of the end of the input, of the
    exploration loop of the first-level program.  Conventions:

    - a C string is a [string] (a list of bytes without the terminating NUL);
      a [const char *] that the code tests against [NULL] is a [cstr], that is
      an [option string];
    - [strcmp] is used by the code only through the sign of its result; it is
      the byte-wise lexicographic comparison on unsigned bytes, here
      [String.compare];
    - [unsigned long] is 64 bits wide and wraps around;
    - [malloc]/[calloc] succeed ([my_strdup] is then a copy, and the table
      pointer [ht] is never [NULL]); the one allocation whose failure changes
      the control flow of the exploration loop, the [realloc] of the visit
      history, is kept as a parameter [realloc_ok], from the number of
      entries asked for to success;
    - sizes and the counters of the counting list are unbounded numbers: the
      history and the ledger would exhaust the memory long before [size_t]
      or [int] overflow;
    - the rooms of the mansion live in a store ([Mansao]) and are linked by
      addresses, as [main] links them by pointer assignment after creation;
    - the ledger (a tree owned by its root pointer) is an inductive tree and
      the in-place insertions return the updated tree;
    - [stdin] is the string of bytes still to be read, whatever they are,
      and the end of the input is the empty string; what [fgets] stores in a
      buffer is read back as a C string, up to its first NUL byte ([c_str]);
      [int] is 32 bits wide; [printf] output is a list of messages
      ([Saida]), the banners of [main] being left out;
    - the player's choices are the lines [e] (esquerda, left), [d] (direita,
      right) and [s] (sair, exit). *)

From Stdlib Require Import ZArith String Ascii List Bool Lia Sorted Permutation.
From stdpp Require Import base list strings.

Open Scope string_scope.
Open Scope list_scope.
Open Scope Z_scope.
Open Scope nat_scope.

(** ** Strings *)

Definition cstr : Type := option string.

(** [strcmp(a, b)]: [Lt] for a negative result, [Eq] for 0, [Gt] for a
    positive one. *)
Definition strcmp (a b : string) : comparison := String.compare a b.
Arguments strcmp : simpl never.

(** [tolower] and [isspace] of <ctype.h> in the "C" locale (the program never
    calls [setlocale]). *)
Definition tolower (c : ascii) : ascii :=
  let n := nat_of_ascii c in
  if (65 <=? n) && (n <=? 90) then ascii_of_nat (n + 32) else c.

Definition isspace (c : ascii) : bool :=
  let n := nat_of_ascii c in
  (n =? 32) || ((9 <=? n) && (n <=? 13)).

(** [my_strdup]: a fresh copy, [NULL] for [NULL]. *)
Definition my_strdup (s : cstr) : cstr := s.

(** [str_lower]: every byte through [tolower]. *)
Fixpoint str_lower (s : string) : string :=
  match s with
  | EmptyString => EmptyString
  | String c r => String (tolower c) (str_lower r)
  end.

(** [strncpy(dst, src, k); dst[k] = 0]: the first [k] bytes of [src]. *)
Fixpoint strncpy (k : nat) (src : string) : string :=
  match k, src with
  | S k', String c r => String c (strncpy k' r)
  | _, _ => EmptyString
  end.

(** ** Reading a line *)

Definition newline : ascii := ascii_of_nat 10.
Definition NUL : ascii := ascii_of_nat 0.

(** [(int)tam] for a [size_t]: the low 32 bits, read in two's complement. *)
Definition int_de_size_t (tam : nat) : Z :=
  let r := (Z.of_nat tam mod 4294967296)%Z in
  if (r <? 2147483648)%Z then r else (r - 4294967296)%Z.

(** The bytes of a buffer as a C string: those before its first NUL. *)
Fixpoint c_str (buf : string) : string :=
  match buf with
  | EmptyString => EmptyString
  | String c r => if Ascii.eqb c NUL then EmptyString else String c (c_str r)
  end.

(** The bytes [fgets] stores when at least one byte is available: at most [k]
    bytes, stopping after a newline. *)
Fixpoint fgets_bytes (k : nat) (input : string) : string * string :=
  match k, input with
  | S k', String c r =>
      if Ascii.eqb c newline then (String c EmptyString, r)
      else let (b, r') := fgets_bytes k' r in (String c b, r')
  | _, _ => (EmptyString, input)
  end.

(** [fgets(buf, n, stdin)]: the bytes stored in [buf] before the terminating
    NUL and the input left; [None] is the null pointer, returned when [n] is
    not positive and at the end of the input.  With [n = 1] there is room
    for the terminating NUL only: the empty string is stored and nothing is
    read. *)
Definition fgets (n : Z) (input : string) : option (string * string) :=
  if (n <=? 0)%Z then None
  else if (n =? 1)%Z then Some (EmptyString, input)
  else match input with
       | EmptyString => None
       | _ => Some (fgets_bytes (Z.to_nat (n - 1)) input)
       end.

(** Removes the last byte when it is a newline. *)
Fixpoint tira_newline (buf : string) : string :=
  match buf with
  | EmptyString => EmptyString
  | String c EmptyString => if Ascii.eqb c newline then EmptyString else buf
  | String c r => String c (tira_newline r)
  end.

(** [ler_linha(buf, tam)]: the line left in [buf], a C string ([strlen]
    stops at the first NUL read), and the input left. *)
Definition ler_linha (tam : nat) (input : string) : string * string :=
  match fgets (int_de_size_t tam) input with
  | None => (EmptyString, input)
  | Some (buf, r) => (tira_newline (c_str buf), r)
  end.

(** ** The ledger of collected clues (BST) *)

Inductive PistaNode : Type :=
| PNULL
| PNode (pista : string) (esq dir : PistaNode).

(** [inserirPista(raiz, pista)]: ordered by [strcmp], no duplicates. *)
Fixpoint inserirPista (raiz : PistaNode) (pista : cstr) {struct raiz} : PistaNode :=
  match pista with
  | None => raiz
  | Some EmptyString => raiz
  | Some p =>
      match raiz with
      | PNULL => PNode p PNULL PNULL
      | PNode q e d =>
          match strcmp p q with
          | Eq => raiz
          | Lt => PNode q (inserirPista e pista) d
          | Gt => PNode q e (inserirPista d pista)
          end
      end
  end.

(** [exibirPistas]: the clues in the order they are printed. *)
Fixpoint exibirPistas (raiz : PistaNode) : list string :=
  match raiz with
  | PNULL => []
  | PNode p e d => exibirPistas e ++ p :: exibirPistas d
  end.

(** ** The suspect index (hash table, clue -> suspect) *)

Record HashEntry : Type := { chave : string; suspeito : string }.

(** A bucket is the chain of its entries, head first ([prox] is the tail). *)
Record HashTable : Type := { buckets : list (list HashEntry); tamanho : nat }.

(** [hash_djb2], from a given accumulator: [hash * 33 + c] on 64 bits. *)
Fixpoint hash_djb2_loop (hash : Z) (str : string) : Z :=
  match str with
  | EmptyString => hash
  | String c r =>
      hash_djb2_loop
        (((Z.shiftl hash 5 + hash) + Z.of_nat (nat_of_ascii c)) mod 2 ^ 64)%Z r
  end.

Definition hash_djb2 (str : string) : Z := hash_djb2_loop 5381%Z str.

(** [criarHash(tamanho)]: [calloc] gives [tamanho] empty buckets. *)
Definition criarHash (tam : nat) : HashTable :=
  {| buckets := replicate tam []; tamanho := tam |}.

(** [hash_djb2(pista) % ht->tamanho] *)
Definition balde (ht : HashTable) (pista : string) : nat :=
  Z.to_nat (hash_djb2 pista mod Z.of_nat (tamanho ht))%Z.

(** The search loop of [inserirNaHash]: the chain with the suspect of [pista]
    overwritten, [None] when the chain has no entry for [pista]. *)
Fixpoint sobrescrever (ent : list HashEntry) (pista sus : string)
  : option (list HashEntry) :=
  match ent with
  | [] => None
  | e :: prox =>
      match strcmp (chave e) pista with
      | Eq => Some ({| chave := chave e; suspeito := sus |} :: prox)
      | _ => option_map (cons e) (sobrescrever prox pista sus)
      end
  end.

(** [inserirNaHash(ht, pista, suspeito)] *)
Definition inserirNaHash (ht : HashTable) (pista sus : cstr) : HashTable :=
  match pista, sus with
  | Some p, Some s =>
      let h := balde ht p in
      let ent := buckets ht !!! h in
      match sobrescrever ent p s with
      | Some ent' => {| buckets := <[h := ent']> (buckets ht); tamanho := tamanho ht |}
      | None =>
          {| buckets := <[h := {| chave := p; suspeito := s |} :: ent]> (buckets ht);
             tamanho := tamanho ht |}
      end
  | _, _ => ht
  end.

(** The search loop of [encontrarSuspeito]. *)
Fixpoint procurar (ent : list HashEntry) (pista : string) : cstr :=
  match ent with
  | [] => None
  | e :: prox =>
      match strcmp (chave e) pista with
      | Eq => Some (suspeito e)
      | _ => procurar prox pista
      end
  end.

(** [encontrarSuspeito(ht, pista)] *)
Definition encontrarSuspeito (ht : HashTable) (pista : cstr) : cstr :=
  match pista with
  | None => None
  | Some p => procurar (buckets ht !!! balde ht p) p
  end.

(** ** Counting clues per suspect *)

Record SuspeitoConta : Type := { sc_nome : string; cont : Z }.

(** The search loop of [conta_suspeito_add]: the list with the counter of
    [nome] incremented, [None] when [nome] is not in the list. *)
Fixpoint incrementar (p : list SuspeitoConta) (nome : string)
  : option (list SuspeitoConta) :=
  match p with
  | [] => None
  | e :: prox =>
      match strcmp (sc_nome e) nome with
      | Eq => Some ({| sc_nome := sc_nome e; cont := (cont e + 1)%Z |} :: prox)
      | _ => option_map (cons e) (incrementar prox nome)
      end
  end.

(** [conta_suspeito_add(&lista, nome)] *)
Definition conta_suspeito_add (lista : list SuspeitoConta) (nome : cstr)
  : list SuspeitoConta :=
  match nome with
  | None => lista
  | Some n =>
      match incrementar lista n with
      | Some lista' => lista'
      | None => {| sc_nome := n; cont := 1%Z |} :: lista
      end
  end.

(** [contar_pistas_por_suspeito(raiz, ht, &lista)] *)
Fixpoint contar_pistas_por_suspeito (raiz : PistaNode) (ht : HashTable)
  (lista : list SuspeitoConta) : list SuspeitoConta :=
  match raiz with
  | PNULL => lista
  | PNode p e d =>
      let lista1 := contar_pistas_por_suspeito e ht lista in
      let lista2 := conta_suspeito_add lista1 (encontrarSuspeito ht (Some p)) in
      contar_pistas_por_suspeito d ht lista2
  end.

(** [listarSuspeitosHash]: the names printed, in the order printed (each new
    name is put at the head of the list that is then printed). *)
Definition ja_listado (lista : list string) (sus : string) : bool :=
  existsb (fun n => match strcmp n sus with Eq => true | _ => false end) lista.

Definition listarSuspeitosHash (ht : HashTable) : list string :=
  fold_left
    (fun lista ent =>
       fold_left
         (fun lista e => if ja_listado lista (suspeito e) then lista
                         else suspeito e :: lista)
         ent lista)
    (take (tamanho ht) (buckets ht)) [].

(** ** The mansion *)

(** A [Sala *] is [None] for [NULL], or the address of a room in the store. *)
Definition SalaPtr : Type := option nat.

Record Sala : Type :=
  { nome : string; pista : cstr; esq : SalaPtr; dir : SalaPtr }.

(** The store of rooms: the room at address [a] is the [a]-th allocated. *)
Definition Mansao : Type := list Sala.

(** [criarSala(nome, pista)]: the store with the new room, and its address. *)
Definition criarSala (m : Mansao) (nome_ pista_ : cstr) : Mansao * nat :=
  (m ++ [ {| nome := match my_strdup nome_ with Some n => n | None => "" end;
             pista := match pista_ with
                      | Some (String c r) => my_strdup (Some (String c r))
                      | _ => None
                      end;
             esq := None; dir := None |} ],
   length m).

(** [s->esq = q] and [s->dir = q] *)
Definition atribuir_esq (m : Mansao) (s : nat) (q : SalaPtr) : Mansao :=
  alter (fun r => {| nome := nome r; pista := pista r; esq := q; dir := dir r |}) s m.

Definition atribuir_dir (m : Mansao) (s : nat) (q : SalaPtr) : Mansao :=
  alter (fun r => {| nome := nome r; pista := pista r; esq := esq r; dir := q |}) s m.

(** ** Output *)

(** One constructor per message of [explorarSalas] and
    [verificarSuspeitoFinal]. *)
Inductive Saida : Type :=
| MapaVazio
| ErroHistorico
| VoceEstaNaSala (n : string)
| PistaEncontrada (p : string)
| PistaApontaPara (sus : string)
| NenhumSuspeitoConhecido
| NenhumaPistaNestaSala
| Opcoes (temEsq temDir : bool)
| SaindoDaExploracao
| EsquerdaNaoDisponivel
| DireitaNaoDisponivel
| OpcaoInvalida
| HistoricoDeSalas (h : list string)
| NenhumaSalaVisitada
| SemPistasParaAcusar
| PistasColetadas (ps : list string)
| SuspeitosConhecidos (ss : list string)
| QuemVoceAcusa
| AcusacaoCancelada
| AcusacaoImprocedente (n : string)
| VoceAcusou (n : string) (c : Z)
| VereditoCulpado
| VereditoInocentado.

(** ** Exploration *)

(** The variables of [explorarSalas] that live across iterations, the ledger
    behind [pistasRoot], the input left and the output so far.  [n] is the
    length of [historico]. *)
Record Exploracao : Type :=
  { historico : list string;
    cap : nat;
    atual : nat;
    pistasRoot : PistaNode;
    entrada : string;
    saida : list Saida }.

(** How a part of the loop body ends: [continue], [break], or a dereference
    of an address that is not in the store. *)
Inductive Passo : Type :=
| Continua (s : Exploracao)
| Encerra (s : Exploracao)
| Indefinido.

(** The first byte of the line that is not a space, in lower case; NUL when
    there is none. *)
Fixpoint escolha_de (buf : string) : ascii :=
  match buf with
  | EmptyString => NUL
  | String c r => if isspace c then escolha_de r else tolower c
  end.

(** First part of the loop body, up to the prompt: the visit is recorded (the
    history grows from capacity 0 to 6, then doubles), the room and its clue
    are shown, the clue is collected, the options are listed. *)
Definition entrar (realloc_ok : nat -> bool) (m : Mansao) (ht : HashTable)
  (s : Exploracao) : Passo :=
  let nova := if cap s =? 0 then 6 else cap s * 2 in
  if (cap s <? length (historico s) + 1) && negb (realloc_ok nova) then
    Encerra {| historico := historico s; cap := cap s; atual := atual s;
               pistasRoot := pistasRoot s; entrada := entrada s;
               saida := saida s ++ [ErroHistorico] |}
  else
    let cap' := if cap s <? length (historico s) + 1 then nova else cap s in
    match m !! atual s with
    | None => Indefinido
    | Some sala =>
        let pistas_e_msgs :=
          match pista sala with
          | Some (String c r) =>
              let p := String c r in
              (inserirPista (pistasRoot s) (Some p),
               [PistaEncontrada p;
                match encontrarSuspeito ht (Some p) with
                | Some sus => PistaApontaPara sus
                | None => NenhumSuspeitoConhecido
                end])
          | _ => (pistasRoot s, [NenhumaPistaNestaSala])
          end in
        Continua {| historico := historico s ++ [nome sala]; cap := cap';
                    atual := atual s;
                    pistasRoot := fst pistas_e_msgs;
                    entrada := entrada s;
                    saida := saida s ++ [VoceEstaNaSala (nome sala)]
                               ++ snd pistas_e_msgs
                               ++ [Opcoes (bool_decide (esq sala <> None))
                                          (bool_decide (dir sala <> None))] |}
    end.

(** Second part of the loop body: a line is read and the choice is carried
    out. *)
Definition decidir (m : Mansao) (s : Exploracao) : Passo :=
  match m !! atual s with
  | None => Indefinido
  | Some sala =>
      let (buf, resto) := ler_linha 128 (entrada s) in
      let escolha := escolha_de buf in
      let com (a : nat) (msgs : list Saida) :=
        {| historico := historico s; cap := cap s; atual := a;
           pistasRoot := pistasRoot s; entrada := resto;
           saida := saida s ++ msgs |} in
      if Ascii.eqb escolha "s" then Encerra (com (atual s) [SaindoDaExploracao])
      else if Ascii.eqb escolha "e" then
        match esq sala with
        | Some a => Continua (com a [])
        | None => Continua (com (atual s) [EsquerdaNaoDisponivel])
        end
      else if Ascii.eqb escolha "d" then
        match dir sala with
        | Some a => Continua (com a [])
        | None => Continua (com (atual s) [DireitaNaoDisponivel])
        end
      else Continua (com (atual s) [OpcaoInvalida])
  end.

(** How the loop ends within [fuel] iterations. *)
Inductive Resultado : Type :=
| Terminou (s : Exploracao)
| NaoTerminou
| ComportamentoIndefinido.

(** The [while (1)] loop, for at most [fuel] iterations. *)
Fixpoint laco (realloc_ok : nat -> bool) (fuel : nat) (m : Mansao)
  (ht : HashTable) (s : Exploracao) : Resultado :=
  match fuel with
  | O => NaoTerminou
  | S fuel' =>
      match entrar realloc_ok m ht s with
      | Indefinido => ComportamentoIndefinido
      | Encerra s1 => Terminou s1
      | Continua s1 =>
          match decidir m s1 with
          | Indefinido => ComportamentoIndefinido
          | Encerra s2 => Terminou s2
          | Continua s2 => laco realloc_ok fuel' m ht s2
          end
      end
  end.

(** The history as printed after the loop. *)
Definition mostrar_historico (s : Exploracao) : Exploracao :=
  {| historico := historico s; cap := cap s; atual := atual s;
     pistasRoot := pistasRoot s; entrada := entrada s;
     saida := saida s ++ [if 0 <? length (historico s)
                          then HistoricoDeSalas (historico s)
                          else NenhumaSalaVisitada] |}.

(** [explorarSalas(inicio, ht, pistasRoot)] reading [input]. *)
Definition explorarSalas (realloc_ok : nat -> bool) (fuel : nat) (m : Mansao)
  (inicio : SalaPtr) (ht : HashTable) (pistas : PistaNode) (input : string)
  : Resultado :=
  match inicio with
  | None =>
      Terminou {| historico := []; cap := 0; atual := 0; pistasRoot := pistas;
                  entrada := input; saida := [MapaVazio] |}
  | Some a =>
      match laco realloc_ok fuel m ht
              {| historico := []; cap := 0; atual := a; pistasRoot := pistas;
                 entrada := input; saida := [] |} with
      | Terminou s => Terminou (mostrar_historico s)
      | r => r
      end
  end.

(** ** The final judgement *)

(** The outcomes of [verificarSuspeitoFinal], named after the message that
    reports them: "Suspeito considerado CULPADO" ([Guilty]), "Evidencias
    insuficientes ... Suspeito inocentado" ([InsufficientEvidence]),
    "Acusacao improcedente" ([Unsupported]), "Voce nao coletou pistas
    suficientes para acusar alguem" ([NoEvidenceCollected]) and "Acusacao
    cancelada" ([Cancelled]). *)
Inductive Verdict : Type :=
| Guilty
| InsufficientEvidence
| Unsupported
| NoEvidenceCollected
| Cancelled.

(** The search loop of [verificarSuspeitoFinal]: the counter of the first
    entry whose name, cut to 127 bytes and lowered, is [acusado_norm];
    [None] stands for [achou == 0]. *)
Fixpoint buscar (p : list SuspeitoConta) (acusado_norm : string) : option Z :=
  match p with
  | [] => None
  | e :: prox =>
      let nome_norm := str_lower (strncpy 127 (sc_nome e)) in
      match strcmp nome_norm acusado_norm with
      | Eq => Some (cont e)
      | _ => buscar prox acusado_norm
      end
  end.

(** [verificarSuspeitoFinal] from the normalisation of the accused name to
    the verdict: the outcome and the messages. *)
Definition julgar (lista : list SuspeitoConta) (buf : string)
  : Verdict * list Saida :=
  let acusado_norm := str_lower (strncpy 127 buf) in
  match buscar lista acusado_norm with
  | None => (Unsupported, [AcusacaoImprocedente buf])
  | Some c =>
      if (2 <=? c)%Z then (Guilty, [VoceAcusou buf c; VereditoCulpado])
      else (InsufficientEvidence, [VoceAcusou buf c; VereditoInocentado])
  end.

(** What [verificarSuspeitoFinal] leaves behind: the outcome, the counting
    list when it was built, the input left and the output. *)
Record Julgamento : Type :=
  { veredito : Verdict;
    contagem : option (list SuspeitoConta);
    restante : string;
    mensagens : list Saida }.

(** [verificarSuspeitoFinal(pistasRoot, ht)] reading [input]. *)
Definition verificarSuspeitoFinal (pistas : PistaNode) (ht : HashTable)
  (input : string) : Julgamento :=
  match pistas with
  | PNULL =>
      {| veredito := NoEvidenceCollected; contagem := None;
         restante := input; mensagens := [SemPistasParaAcusar] |}
  | _ =>
      let antes := [PistasColetadas (exibirPistas pistas);
                    SuspeitosConhecidos (listarSuspeitosHash ht)] in
      let lista := contar_pistas_por_suspeito pistas ht [] in
      let (buf, resto) := ler_linha 128 input in
      match buf with
      | EmptyString =>
          {| veredito := Cancelled; contagem := Some lista; restante := resto;
             mensagens := antes ++ [QuemVoceAcusa; AcusacaoCancelada] |}
      | _ =>
          let (v, msgs) := julgar lista buf in
          {| veredito := v; contagem := Some lista; restante := resto;
             mensagens := antes ++ [QuemVoceAcusa] ++ msgs |}
      end
  end.

(** ** The program *)

(** The map built by [main]: seven rooms created, then linked. *)
Definition mapa_main : Mansao * nat :=
  let '(m, hall) := criarSala [] (Some "Hall de Entrada") (Some "Pegadas de lama") in
  let '(m, salaEstar) := criarSala m (Some "Sala de Estar") (Some "Livro com página faltando") in
  let '(m, corredor) := criarSala m (Some "Corredor") None in
  let '(m, cozinha) := criarSala m (Some "Cozinha") (Some "Chave perdida") in
  let '(m, biblioteca) := criarSala m (Some "Biblioteca") None in
  let '(m, quarto) := criarSala m (Some "Quarto") (Some "Lençol manchado") in
  let '(m, jardim) := criarSala m (Some "Jardim") (Some "Gaveta perdida") in
  let m := atribuir_esq m hall (Some salaEstar) in
  let m := atribuir_dir m hall (Some corredor) in
  let m := atribuir_esq m salaEstar (Some cozinha) in
  let m := atribuir_dir m salaEstar (Some biblioteca) in
  let m := atribuir_esq m corredor (Some quarto) in
  let m := atribuir_dir m corredor (Some jardim) in
  (m, hall).

(** The index built by [main]: 31 buckets, five bindings. *)
Definition hash_main : HashTable :=
  let ht := criarHash 31 in
  let ht := inserirNaHash ht (Some "Pegadas de lama") (Some "Jardineiro") in
  let ht := inserirNaHash ht (Some "Gaveta perdida") (Some "Jardineiro") in
  let ht := inserirNaHash ht (Some "Chave perdida") (Some "Empregado") in
  let ht := inserirNaHash ht (Some "Lençol manchado") (Some "Empregado") in
  let ht := inserirNaHash ht (Some "Livro com página faltando") (Some "Bibliotecário") in
  ht.

(** [main] reading [input]: the exploration as it ended and the judgement;
    [None] when the exploration does not end within [fuel] iterations. *)
Definition main (realloc_ok : nat -> bool) (fuel : nat) (input : string)
  : option (Exploracao * Julgamento) :=
  let (m, hall) := mapa_main in
  match explorarSalas realloc_ok fuel m (Some hall) hash_main PNULL input with
  | Terminou s =>
      Some (s, verificarSuspeitoFinal (pistasRoot s) hash_main (entrada s))
  | _ => None
  end.

(** The same program on the map as the specification names it (room, clue
    and suspect names in English). *)
Definition mapa_spec : Mansao * nat :=
  let '(m, hall) := criarSala [] (Some "Hall") (Some "Muddy footprints") in
  let '(m, parlor) := criarSala m (Some "Parlor") (Some "Book missing a page") in
  let '(m, corridor) := criarSala m (Some "Corridor") None in
  let '(m, kitchen) := criarSala m (Some "Kitchen") (Some "Lost key") in
  let '(m, library) := criarSala m (Some "Library") None in
  let '(m, bedroom) := criarSala m (Some "Bedroom") (Some "Stained sheet") in
  let '(m, garden) := criarSala m (Some "Garden") (Some "Lost drawer") in
  let m := atribuir_esq m hall (Some parlor) in
  let m := atribuir_dir m hall (Some corridor) in
  let m := atribuir_esq m parlor (Some kitchen) in
  let m := atribuir_dir m parlor (Some library) in
  let m := atribuir_esq m corridor (Some bedroom) in
  let m := atribuir_dir m corridor (Some garden) in
  (m, hall).

Definition hash_spec : HashTable :=
  let ht := criarHash 31 in
  let ht := inserirNaHash ht (Some "Muddy footprints") (Some "Gardener") in
  let ht := inserirNaHash ht (Some "Lost drawer") (Some "Gardener") in
  let ht := inserirNaHash ht (Some "Lost key") (Some "Butler") in
  let ht := inserirNaHash ht (Some "Stained sheet") (Some "Butler") in
  let ht := inserirNaHash ht (Some "Book missing a page") (Some "Librarian") in
  ht.

Definition main_spec (realloc_ok : nat -> bool) (fuel : nat) (input : string)
  : option (Exploracao * Julgamento) :=
  let (m, hall) := mapa_spec in
  match explorarSalas realloc_ok fuel m (Some hall) hash_spec PNULL input with
  | Terminou s =>
      Some (s, verificarSuspeitoFinal (pistasRoot s) hash_spec (entrada s))
  | _ => None
  end.

(** An allocator that never fails. *)
Definition sempre (_ : nat) : bool := true.

(** ** Vocabulary of the properties *)

(** [a] is before [b] in the order of [strcmp]. *)
Definition str_lt (a b : string) : Prop := strcmp a b = Lt.

(** The search-tree invariant of the ledger. *)
Fixpoint bst (t : PistaNode) : Prop :=
  match t with
  | PNULL => True
  | PNode p e d =>
      Forall (fun x => str_lt x p) (exibirPistas e)
      /\ Forall (fun x => str_lt p x) (exibirPistas d)
      /\ bst e /\ bst d
  end.

(** The ledgers the program can build: the empty one, and any ledger after a
    call of [inserirPista]. *)
Inductive ledger : PistaNode -> Prop :=
| ledger_vazio : ledger PNULL
| ledger_inserir t p : ledger t -> ledger (inserirPista t p).

(** [nova_folha p t t']: [t'] is [t] with one [NULL] link replaced by a leaf
    holding [p], the link being the one the comparisons with [p] lead to. *)
Inductive nova_folha (p : string) : PistaNode -> PistaNode -> Prop :=
| nf_aqui : nova_folha p PNULL (PNode p PNULL PNULL)
| nf_esq q e e' d :
    str_lt p q -> nova_folha p e e' -> nova_folha p (PNode q e d) (PNode q e' d)
| nf_dir q e d d' :
    str_lt q p -> nova_folha p d d' -> nova_folha p (PNode q e d) (PNode q e d').

(** All the entries of the table, bucket after bucket. *)
Definition entradas (ht : HashTable) : list HashEntry := concat (buckets ht).

(** The keys bound in the table. *)
Definition chaves (ht : HashTable) : list string := chave <$> entradas ht.

(** A table as [criarHash] makes it and [inserirNaHash] keeps it: at least
    one bucket, [tamanho] buckets, every entry in the bucket of its key, no
    key twice in a chain. *)
Definition tabela_ok (ht : HashTable) : Prop :=
  0 < tamanho ht
  /\ length (buckets ht) = tamanho ht
  /\ forall i, i < tamanho ht ->
       NoDup (chave <$> buckets ht !!! i)
       /\ forall k, k ∈ chave <$> buckets ht !!! i -> balde ht k = i.

(** A sequence of calls [inserirNaHash(ht, k, v)]. *)
Definition inserir_todos (ht : HashTable) (ps : list (string * string))
  : HashTable :=
  fold_left (fun h kv => inserirNaHash h (Some (fst kv)) (Some (snd kv))) ps ht.

(** The value of the last pair of the sequence whose key is [k]. *)
Fixpoint ultimo_put (ps : list (string * string)) (k : string) : option string :=
  match ps with
  | [] => None
  | kv :: r =>
      match ultimo_put r k with
      | Some v => Some v
      | None => if String.eqb (fst kv) k then Some (snd kv) else None
      end
  end.

(** The counting loop over a sequence of clues instead of the tree. *)
Definition contar_lista (ps : list string) (ht : HashTable)
  (lista : list SuspeitoConta) : list SuspeitoConta :=
  fold_left (fun l p => conta_suspeito_add l (encontrarSuspeito ht (Some p)))
            ps lista.

(** The counter the list holds for the name [n], byte for byte. *)
Fixpoint contador (lista : list SuspeitoConta) (n : string) : option Z :=
  match lista with
  | [] => None
  | e :: r => if String.eqb (sc_nome e) n then Some (cont e) else contador r n
  end.

(** The clues of [ps] that the index binds to [sus]. *)
Definition apontam_para (ht : HashTable) (sus : string) (ps : list string)
  : list string :=
  filter (fun p => encontrarSuspeito ht (Some p) = Some sus) ps.

(** A name as [verificarSuspeitoFinal] compares it: copied into a buffer of
    128 bytes, then lowered. *)
Definition normalizado (s : string) : string := str_lower (strncpy 127 s).





(** The history can take one more entry: there is room, or [realloc] gives
    the next capacity. *)
Definition cabe (realloc_ok : nat -> bool) (s : Exploracao) : bool :=
  negb ((cap s <? length (historico s) + 1)
        && negb (realloc_ok (if cap s =? 0 then 6 else cap s * 2))).

(** From one prompt to the next: the line is read and the choice carried out
    and, unless the loop is left, the loop body starts again. *)
Definition apos_comando (realloc_ok : nat -> bool) (m : Mansao)
  (ht : HashTable) (s : Exploracao) : Passo :=
  match decidir m s with
  | Continua s1 => entrar realloc_ok m ht s1
  | r => r
  end.

(** The state with the rest of the input and more output. *)
Definition avancar (s : Exploracao) (resto : string) (msgs : list Saida)
  : Exploracao :=
  {| historico := historico s; cap := cap s; atual := atual s;
     pistasRoot := pistasRoot s; entrada := resto; saida := saida s ++ msgs |}.

(** The input made of the given lines, each ended by a newline. *)
Fixpoint linhas (ls : list string) : string :=
  match ls with
  | [] => EmptyString
  | l :: r => String.append l (String newline (linhas r))
  end.

(** ** The first level of the same exercise

    The repository also holds the first-level program (rooms without clues),
    whose [explorarSalas] reads the choice with [fgets] itself. *)
Module Novato.

Record Sala : Type := { nome : string; esq : SalaPtr; dir : SalaPtr }.

Definition Mansao : Type := list Sala.

(** [criarSala(nome)] *)
Definition criarSala (m : Mansao) (nome_ : string) : Mansao * nat :=
  (m ++ [ {| nome := nome_; esq := None; dir := None |} ], length m).

Definition atribuir_esq (m : Mansao) (s : nat) (q : SalaPtr) : Mansao :=
  alter (fun r => {| nome := nome r; esq := q; dir := dir r |}) s m.

Definition atribuir_dir (m : Mansao) (s : nat) (q : SalaPtr) : Mansao :=
  alter (fun r => {| nome := nome r; esq := esq r; dir := q |}) s m.

Inductive Saida : Type :=
| MapaVazio
| ErroHistorico
| VoceEstaNaSala (n : string)
| SalaSemCaminhos
| Opcoes (temEsq temDir : bool)
| EntradaInterrompida
| SaindoDaExploracao
| EsquerdaNaoDisponivel
| DireitaNaoDisponivel
| OpcaoInvalida
| SalasVisitadas (h : list string)
| NenhumaSalaVisitada.

Record Exploracao : Type :=
  { visitadas : list string;
    cap : nat;
    atual : nat;
    entrada : string;
    saida : list Saida }.

Inductive Passo : Type :=
| Continua (s : Exploracao)
| Encerra (s : Exploracao)
| Indefinido.

(** The body of the [while (1)] loop. *)
Definition corpo (realloc_ok : nat -> bool) (m : Mansao) (s : Exploracao)
  : Passo :=
  let nova := if cap s =? 0 then 4 else cap s * 2 in
  let com (v : list string) (c a : nat) (i : string) (msgs : list Saida) :=
    {| visitadas := v; cap := c; atual := a; entrada := i;
       saida := saida s ++ msgs |} in
  if (cap s <? length (visitadas s) + 1) && negb (realloc_ok nova) then
    Encerra (com (visitadas s) (cap s) (atual s) (entrada s) [ErroHistorico])
  else
    let cap' := if cap s <? length (visitadas s) + 1 then nova else cap s in
    match m !! atual s with
    | None => Indefinido
    | Some sala =>
        let v := visitadas s ++ [nome sala] in
        let temEsq := bool_decide (esq sala <> None) in
        let temDir := bool_decide (dir sala <> None) in
        if negb temEsq && negb temDir then
          Encerra (com v cap' (atual s) (entrada s)
                       [VoceEstaNaSala (nome sala); SalaSemCaminhos])
        else
          let menu := [VoceEstaNaSala (nome sala); Opcoes temEsq temDir] in
          match fgets 64%Z (entrada s) with
          | None =>
              Encerra (com v cap' (atual s) (entrada s)
                           (menu ++ [EntradaInterrompida]))
          | Some (buf, resto) =>
              let escolha := escolha_de (c_str buf) in
              if Ascii.eqb escolha "s" then
                Encerra (com v cap' (atual s) resto
                             (menu ++ [SaindoDaExploracao]))
              else if Ascii.eqb escolha "e" then
                match esq sala with
                | Some a => Continua (com v cap' a resto menu)
                | None => Continua (com v cap' (atual s) resto
                                        (menu ++ [EsquerdaNaoDisponivel]))
                end
              else if Ascii.eqb escolha "d" then
                match dir sala with
                | Some a => Continua (com v cap' a resto menu)
                | None => Continua (com v cap' (atual s) resto
                                        (menu ++ [DireitaNaoDisponivel]))
                end
              else Continua (com v cap' (atual s) resto
                                 (menu ++ [OpcaoInvalida]))
          end
    end.

Inductive Resultado : Type :=
| Terminou (s : Exploracao)
| NaoTerminou
| ComportamentoIndefinido.

Fixpoint laco (realloc_ok : nat -> bool) (fuel : nat) (m : Mansao)
  (s : Exploracao) : Resultado :=
  match fuel with
  | O => NaoTerminou
  | S fuel' =>
      match corpo realloc_ok m s with
      | Indefinido => ComportamentoIndefinido
      | Encerra s1 => Terminou s1
      | Continua s1 => laco realloc_ok fuel' m s1
      end
  end.

(** [explorarSalas(inicio)] reading [input]. *)
Definition explorarSalas (realloc_ok : nat -> bool) (fuel : nat) (m : Mansao)
  (inicio : SalaPtr) (input : string) : Resultado :=
  match inicio with
  | None =>
      Terminou {| visitadas := []; cap := 0; atual := 0; entrada := input;
                  saida := [MapaVazio] |}
  | Some a =>
      match laco realloc_ok fuel m
              {| visitadas := []; cap := 0; atual := a; entrada := input;
                 saida := [] |} with
      | Terminou s =>
          Terminou {| visitadas := visitadas s; cap := cap s; atual := atual s;
                      entrada := entrada s;
                      saida := saida s ++ [if 0 <? length (visitadas s)
                                           then SalasVisitadas (visitadas s)
                                           else NenhumaSalaVisitada] |}
      | r => r
      end
  end.

(** The map built by [main]. *)
Definition mapa_main : Mansao * nat :=
  let '(m, hall) := criarSala [] "Hall de entrada" in
  let '(m, salaEstar) := criarSala m "Sala de estar" in
  let '(m, corredor) := criarSala m "Corredor" in
  let m := atribuir_esq m hall (Some salaEstar) in
  let m := atribuir_dir m hall (Some corredor) in
  let '(m, cozinha) := criarSala m "Cozinha" in
  let '(m, biblioteca) := criarSala m "Biblioteca" in
  let m := atribuir_esq m salaEstar (Some cozinha) in
  let m := atribuir_dir m salaEstar (Some biblioteca) in
  let '(m, quarto) := criarSala m "Quarto" in
  let '(m, jardim) := criarSala m "Jardim" in
  let m := atribuir_esq m corredor (Some quarto) in
  let m := atribuir_dir m corredor (Some jardim) in
  (m, hall).

(** [main] reading [input]. *)
Definition main (realloc_ok : nat -> bool) (fuel : nat) (input : string)
  : Resultado :=
  let (m, hall) := mapa_main in
  explorarSalas realloc_ok fuel m (Some hall) input.

End Novato.

(** An allocator that gives the first capacity of the history, 6 entries,
    and is [realloc_ok] otherwise. *)
Definition com_seis (realloc_ok : nat -> bool) (n : nat) : bool :=
  if n =? 6 then true else realloc_ok n.

(** The ledger after a sequence of calls of [inserirPista], from the empty
    one. *)
Definition coletar (ps : list cstr) : PistaNode := fold_left inserirPista ps PNULL.

(** ** Vocabulary of the further properties *)

(** No byte of [s] is [c]. *)
Fixpoint sem_byte (c : ascii) (s : string) : bool :=
  match s with
  | EmptyString => true
  | String x r => negb (Ascii.eqb x c) && sem_byte c r
  end.

(** Every byte of [s] is a space for [isspace]. *)
Fixpoint todos_espacos (s : string) : bool :=
  match s with
  | EmptyString => true
  | String x r => isspace x && todos_espacos r
  end.

(** A line that a buffer of 128 bytes takes whole, newline included. *)
Definition linha_ok (l : string) : bool :=
  sem_byte newline l && (String.length l <=? 126).

(** Every link of the store leads to a room of the store. *)
Definition fechada (m : Mansao) : Prop :=
  forall a sala, m !! a = Some sala ->
    (forall b, esq sala = Some b -> b < length m)
    /\ (forall b, dir sala = Some b -> b < length m).

(** The entries of the history fit in the buffer allocated for it. *)
Definition hist_ok (s : Exploracao) : Prop := length (historico s) <= cap s.




(** [n] is the name of a room of the store. *)
Definition nome_de_sala (m : Mansao) (n : string) : Prop :=
  exists a sala, m !! a = Some sala /\ nome sala = n.

(** The sum of the counters of a counting list. *)
Definition soma (lista : list SuspeitoConta) : Z :=
  foldr (fun e acc => (cont e + acc)%Z) 0%Z lista.

(** The clues of [ps] that the index binds to some suspect. *)
Definition vinculadas (ht : HashTable) (ps : list string) : list string :=
  filter (fun p => is_Some (encontrarSuspeito ht (Some p))) ps.

(** The tree in which every left link is [NULL] and the clues of [ps] hang
    one below the other on the right links. *)
Definition espinha (ps : list string) : PistaNode :=
  foldr (fun p t => PNode p PNULL t) PNULL ps.

(** The number of nodes on the longest way down from the root. *)
Fixpoint altura (t : PistaNode) : nat :=
  match t with
  | PNULL => 0
  | PNode _ e d => S (Nat.max (altura e) (altura d))
  end.

(** The same two notions for the first-level program: a store whose links
    lead to rooms of the store, and a list of visits that can take one more
    entry (the first capacity is 4 there). *)
Definition novato_fechada (m : Novato.Mansao) : Prop :=
  forall a sala, m !! a = Some sala ->
    (forall b, Novato.esq sala = Some b -> b < length m)
    /\ (forall b, Novato.dir sala = Some b -> b < length m).

Definition novato_cabe (realloc_ok : nat -> bool) (s : Novato.Exploracao) : bool :=
  negb ((Novato.cap s <? length (Novato.visitadas s) + 1)
        && negb (realloc_ok (if Novato.cap s =? 0 then 4 else Novato.cap s * 2))).

(** ** The second level of the same exercise

    The second program of [algoritmos_avancados.c] (lines 536-846) has the
    rooms, the ledger, [criarSala], [inserirPista], [exibirPistas] and
    [ler_linha] of the master level, word for word, and no suspect index;
    its [explorarSalasComPistas] reads the choice into a buffer of 80
    bytes. *)
Module Aventureiro.

Inductive Saida : Type :=
| MapaVazio
| ErroHistorico
| VoceEstaNaSala (n : string)
| PistaColetada (p : string)
| NenhumaPistaNestaSala
| Opcoes (temEsq temDir : bool)
| SaindoDaExploracao
| EsquerdaNaoDisponivel
| DireitaNaoDisponivel
| OpcaoInvalida
| HistoricoDeSalas (h : list string)
| NenhumaSalaVisitada
| NenhumaPistaColetada
| PistasColetadas (ps : list string).

Record Exploracao : Type :=
  { historico : list string;
    cap : nat;
    atual : nat;
    pistasRoot : PistaNode;
    entrada : string;
    saida : list Saida }.

Inductive Passo : Type :=
| Continua (s : Exploracao)
| Encerra (s : Exploracao)
| Indefinido.

(** The loop body up to the prompt. *)
Definition entrar (realloc_ok : nat -> bool) (m : Mansao) (s : Exploracao)
  : Passo :=
  let nova := if cap s =? 0 then 6 else cap s * 2 in
  if (cap s <? length (historico s) + 1) && negb (realloc_ok nova) then
    Encerra {| historico := historico s; cap := cap s; atual := atual s;
               pistasRoot := pistasRoot s; entrada := entrada s;
               saida := saida s ++ [ErroHistorico] |}
  else
    let cap' := if cap s <? length (historico s) + 1 then nova else cap s in
    match m !! atual s with
    | None => Indefinido
    | Some sala =>
        let pistas_e_msgs :=
          match pista sala with
          | Some (String c r) =>
              (inserirPista (pistasRoot s) (Some (String c r)),
               [PistaColetada (String c r)])
          | _ => (pistasRoot s, [NenhumaPistaNestaSala])
          end in
        Continua {| historico := historico s ++ [nome sala]; cap := cap';
                    atual := atual s;
                    pistasRoot := fst pistas_e_msgs;
                    entrada := entrada s;
                    saida := saida s ++ [VoceEstaNaSala (nome sala)]
                               ++ snd pistas_e_msgs
                               ++ [Opcoes (bool_decide (esq sala <> None))
                                          (bool_decide (dir sala <> None))] |}
    end.

(** The loop body from the read of the choice. *)
Definition decidir (m : Mansao) (s : Exploracao) : Passo :=
  match m !! atual s with
  | None => Indefinido
  | Some sala =>
      let (buf, resto) := ler_linha 80 (entrada s) in
      let escolha := escolha_de buf in
      let com (a : nat) (msgs : list Saida) :=
        {| historico := historico s; cap := cap s; atual := a;
           pistasRoot := pistasRoot s; entrada := resto;
           saida := saida s ++ msgs |} in
      if Ascii.eqb escolha "s" then Encerra (com (atual s) [SaindoDaExploracao])
      else if Ascii.eqb escolha "e" then
        match esq sala with
        | Some a => Continua (com a [])
        | None => Continua (com (atual s) [EsquerdaNaoDisponivel])
        end
      else if Ascii.eqb escolha "d" then
        match dir sala with
        | Some a => Continua (com a [])
        | None => Continua (com (atual s) [DireitaNaoDisponivel])
        end
      else Continua (com (atual s) [OpcaoInvalida])
  end.

Inductive Resultado : Type :=
| Terminou (s : Exploracao)
| NaoTerminou
| ComportamentoIndefinido.

Fixpoint laco (realloc_ok : nat -> bool) (fuel : nat) (m : Mansao)
  (s : Exploracao) : Resultado :=
  match fuel with
  | O => NaoTerminou
  | S fuel' =>
      match entrar realloc_ok m s with
      | Indefinido => ComportamentoIndefinido
      | Encerra s1 => Terminou s1
      | Continua s1 =>
          match decidir m s1 with
          | Indefinido => ComportamentoIndefinido
          | Encerra s2 => Terminou s2
          | Continua s2 => laco realloc_ok fuel' m s2
          end
      end
  end.

(** [explorarSalasComPistas(inicio, pistasRoot)] reading [input]. *)
Definition explorarSalasComPistas (realloc_ok : nat -> bool) (fuel : nat)
  (m : Mansao) (inicio : SalaPtr) (pistas : PistaNode) (input : string)
  : Resultado :=
  match inicio with
  | None =>
      Terminou {| historico := []; cap := 0; atual := 0; pistasRoot := pistas;
                  entrada := input; saida := [MapaVazio] |}
  | Some a =>
      match laco realloc_ok fuel m
              {| historico := []; cap := 0; atual := a; pistasRoot := pistas;
                 entrada := input; saida := [] |} with
      | Terminou s =>
          Terminou {| historico := historico s; cap := cap s; atual := atual s;
                      pistasRoot := pistasRoot s; entrada := entrada s;
                      saida := saida s ++ [if 0 <? length (historico s)
                                           then HistoricoDeSalas (historico s)
                                           else NenhumaSalaVisitada] |}
      | r => r
      end
  end.

(** [main] reading [input]: the exploration on the map of the master level,
    which this [main] builds with the same calls, then the clues in order. *)
Definition main (realloc_ok : nat -> bool) (fuel : nat) (input : string)
  : option Exploracao :=
  let (m, hall) := mapa_main in
  match explorarSalasComPistas realloc_ok fuel m (Some hall) PNULL input with
  | Terminou s =>
      Some {| historico := historico s; cap := cap s; atual := atual s;
              pistasRoot := pistasRoot s; entrada := entrada s;
              saida := saida s ++ [match pistasRoot s with
                                   | PNULL => NenhumaPistaColetada
                                   | t => PistasColetadas (exibirPistas t)
                                   end] |}
  | _ => None
  end.

End Aventureiro.

(** A state of the second level and a state of the master level that agree
    on all but the output, and two runs that end the same way in such
    states. *)
Definition corresponde (s : Aventureiro.Exploracao) (s' : Exploracao) : Prop :=
  Aventureiro.historico s = historico s'
  /\ Aventureiro.cap s = cap s'
  /\ Aventureiro.atual s = atual s'
  /\ Aventureiro.pistasRoot s = pistasRoot s'
  /\ Aventureiro.entrada s = entrada s'.

Definition passos_correspondem (p : Aventureiro.Passo) (p' : Passo) : Prop :=
  match p, p' with
  | Aventureiro.Continua a, Continua b => corresponde a b
  | Aventureiro.Encerra a, Encerra b => corresponde a b
  | Aventureiro.Indefinido, Indefinido => True
  | _, _ => False
  end.

Definition resultados_correspondem (r : Aventureiro.Resultado) (r' : Resultado)
  : Prop :=
  match r, r' with
  | Aventureiro.Terminou a, Terminou b => corresponde a b
  | Aventureiro.NaoTerminou, NaoTerminou => True
  | Aventureiro.ComportamentoIndefinido, ComportamentoIndefinido => True
  | _, _ => False
  end.

(** A line that a buffer of 80 bytes takes whole, newline included. *)
Definition linha_curta (l : string) : bool :=
  sem_byte newline l && (String.length l <=? 78).

(** In the map of [main]: the clues of the rooms on the way from the hall to
    the room at address [a], that room included. *)
Definition pistas_no_caminho (a : nat) : list string :=
  match a with
  | 0 => ["Pegadas de lama"]
  | 1 => ["Pegadas de lama"; "Livro com página faltando"]
  | 2 => ["Pegadas de lama"]
  | 3 => ["Pegadas de lama"; "Livro com página faltando"; "Chave perdida"]
  | 4 => ["Pegadas de lama"; "Livro com página faltando"]
  | 5 => ["Pegadas de lama"; "Lençol manchado"]
  | 6 => ["Pegadas de lama"; "Gaveta perdida"]
  | _ => []
  end.

(** Two bytes that are one byte, or one ASCII letter as a capital and as a
    small letter. *)
Definition mesma_letra (x y : ascii) : bool :=
  let n := nat_of_ascii x in
  let k := nat_of_ascii y in
  (n =? k)
  || ((65 <=? n) && (n <=? 90) && (k =? n + 32))
  || ((65 <=? k) && (k <=? 90) && (n =? k + 32)).

(** Two names of one length that differ at most in the case of their ASCII
    letters. *)
Fixpoint mesma_caixa (a b : string) : bool :=
  match a, b with
  | EmptyString, EmptyString => true
  | String x a', String y b' => mesma_letra x y && mesma_caixa a' b'
  | _, _ => false
  end.

(** * Properties *)

(** ** [strcmp] is a strict total order *)

Lemma ascii_compare_refl (c : ascii) : Ascii.compare c c = Eq.
Proof. unfold Ascii.compare. apply N.compare_refl. Qed.

Lemma strcmp_refl (a : string) : strcmp a a = Eq.
Proof.
  unfold strcmp. induction a as [|c a IH]; simpl; [reflexivity|].
  now rewrite ascii_compare_refl.
Qed.

Lemma strcmp_eq (a b : string) : strcmp a b = Eq <-> a = b.
Proof.
  split; [apply String.compare_eq_iff | intros ->; apply strcmp_refl].
Qed.

Lemma strcmp_gt_lt (a b : string) : strcmp a b = Gt <-> strcmp b a = Lt.
Proof.
  unfold strcmp. rewrite (String.compare_antisym b a).
  destruct (String.compare a b); simpl; split; congruence.
Qed.

Lemma ascii_compare_lt_trans (a b c : ascii) :
  Ascii.compare a b = Lt -> Ascii.compare b c = Lt -> Ascii.compare a c = Lt.
Proof.
  unfold Ascii.compare. rewrite !N.compare_lt_iff. lia.
Qed.

Lemma str_lt_trans (a b c : string) : str_lt a b -> str_lt b c -> str_lt a c.
Proof.
  unfold str_lt, strcmp. revert b c.
  induction a as [|x a IH]; intros [|y b] [|z c]; simpl; try congruence.
  destruct (Ascii.compare x y) eqn:Hxy; try congruence;
    destruct (Ascii.compare y z) eqn:Hyz; try congruence; intros H1 H2.
  - apply Ascii.compare_eq_iff in Hxy, Hyz. subst.
    rewrite ascii_compare_refl. eauto.
  - apply Ascii.compare_eq_iff in Hxy. subst. now rewrite Hyz.
  - apply Ascii.compare_eq_iff in Hyz. subst. now rewrite Hxy.
  - now rewrite (ascii_compare_lt_trans _ _ _ Hxy Hyz).
Qed.

Lemma str_lt_irrefl (a : string) : ~ str_lt a a.
Proof. unfold str_lt. rewrite strcmp_refl. congruence. Qed.

Lemma str_lt_neq (a b : string) : str_lt a b -> a <> b.
Proof. intros H ->. exact (str_lt_irrefl _ H). Qed.

(** ** The ledger *)

Lemma inserirPista_NULL (t : PistaNode) : inserirPista t None = t.
Proof. destruct t; reflexivity. Qed.

Lemma inserirPista_vazia (t : PistaNode) : inserirPista t (Some "") = t.
Proof. destruct t; reflexivity. Qed.

(** The clues after an insertion: the old ones and the new one. *)
Lemma elem_of_inserirPista (t : PistaNode) (p q : string) :
  p <> "" ->
  q ∈ exibirPistas (inserirPista t (Some p)) <-> q = p \/ q ∈ exibirPistas t.
Proof.
  intros Hp. destruct p as [|c r]; [congruence|]. clear Hp.
  induction t as [|x e IHe d IHd]; simpl.
  - rewrite list_elem_of_singleton, elem_of_nil. tauto.
  - destruct (strcmp (String c r) x) eqn:Hc; simpl.
    + apply strcmp_eq in Hc. rewrite Hc, !elem_of_app, !elem_of_cons. tauto.
    + rewrite !elem_of_app, !elem_of_cons, IHe. tauto.
    + rewrite !elem_of_app, !elem_of_cons, IHd. tauto.
Qed.

Lemma bst_inserirPista (t : PistaNode) (p : cstr) :
  bst t -> bst (inserirPista t p).
Proof.
  destruct p as [[|c r]|];
    [now rewrite inserirPista_vazia | | now rewrite inserirPista_NULL].
  induction t as [|x e IHe d IHd]; simpl.
  - intros _. repeat split; constructor.
  - intros (He & Hd & Be & Bd).
    destruct (strcmp (String c r) x) eqn:Hc; simpl.
    + auto.
    + repeat split; auto. apply Forall_forall. intros q Hq.
      apply elem_of_inserirPista in Hq; [|congruence].
      destruct Hq as [->|Hq]; [exact Hc|].
      rewrite Forall_forall in He. auto.
    + repeat split; auto. apply Forall_forall. intros q Hq.
      apply elem_of_inserirPista in Hq; [|congruence].
      destruct Hq as [->|Hq]; [now apply strcmp_gt_lt|].
      rewrite Forall_forall in Hd. auto.
Qed.

Lemma ledger_bst (t : PistaNode) : ledger t -> bst t.
Proof.
  induction 1 as [|t p _ IH]; [exact I | now apply bst_inserirPista].
Qed.

(** No ledger holds the empty string. *)
Lemma ledger_sem_vazia (t : PistaNode) : ledger t -> "" ∉ exibirPistas t.
Proof.
  induction 1 as [|t p _ IH]; simpl; [apply not_elem_of_nil|].
  destruct p as [[|c r]|];
    [now rewrite inserirPista_vazia | | now rewrite inserirPista_NULL].
  rewrite elem_of_inserirPista by congruence. intros [H|H]; [congruence|auto].
Qed.

(** Inserting a clue the search tree holds changes nothing. *)
Lemma inserirPista_presente (t : PistaNode) (p : string) :
  bst t -> p ∈ exibirPistas t -> inserirPista t (Some p) = t.
Proof.
  destruct p as [|c r]; [intros; apply inserirPista_vazia|].
  induction t as [|x e IHe d IHd]; simpl;
    [intros _ H; now apply elem_of_nil in H|].
  intros (He & Hd & Be & Bd) Hin.
  rewrite Forall_forall in He, Hd.
  destruct (strcmp (String c r) x) eqn:Hc; [reflexivity| |].
  - rewrite elem_of_app, elem_of_cons in Hin.
    destruct Hin as [Hin|[Heq|Hin]].
    + now rewrite IHe.
    + rewrite Heq in Hc. exfalso. exact (str_lt_irrefl _ Hc).
    + apply Hd in Hin. exfalso.
      exact (str_lt_irrefl _ (str_lt_trans _ _ _ Hc Hin)).
  - apply strcmp_gt_lt in Hc.
    rewrite elem_of_app, elem_of_cons in Hin.
    destruct Hin as [Hin|[Heq|Hin]].
    + apply He in Hin. exfalso.
      exact (str_lt_irrefl _ (str_lt_trans _ _ _ Hin Hc)).
    + rewrite Heq in Hc. exfalso. exact (str_lt_irrefl _ Hc).
    + now rewrite IHd.
Qed.

(** Inserting a clue the tree does not hold adds a leaf. *)
Lemma inserirPista_ausente (t : PistaNode) (p : string) :
  p <> "" -> p ∉ exibirPistas t -> nova_folha p t (inserirPista t (Some p)).
Proof.
  destruct p as [|c r]; [congruence|]. intros _.
  induction t as [|x e IHe d IHd]; simpl; intros Hin; [constructor|].
  rewrite elem_of_app, elem_of_cons in Hin.
  destruct (strcmp (String c r) x) eqn:Hc.
  - apply strcmp_eq in Hc. tauto.
  - apply nf_esq; [exact Hc | apply IHe; tauto].
  - apply nf_dir; [now apply strcmp_gt_lt | apply IHd; tauto].
Qed.

(** A new leaf is one more entry, between the entries around it. *)
Lemma nova_folha_exibir (p : string) (t t' : PistaNode) :
  nova_folha p t t' ->
  exists l1 l2, exibirPistas t = l1 ++ l2 /\ exibirPistas t' = l1 ++ p :: l2.
Proof.
  induction 1 as [|q e e' d _ _ (l1 & l2 & E1 & E2)|q e d d' _ _ (l1 & l2 & E1 & E2)];
    simpl.
  - now exists [], [].
  - exists l1, (l2 ++ q :: exibirPistas d).
    rewrite E1, E2, <- !app_assoc. split; reflexivity.
  - exists (exibirPistas e ++ q :: l1), l2.
    rewrite E1, E2, <- !app_assoc. split; reflexivity.
Qed.

Lemma StronglySorted_meio (l1 l2 : list string) (x : string) :
  StronglySorted str_lt l1 -> StronglySorted str_lt l2 ->
  Forall (fun y => str_lt y x) l1 -> Forall (fun y => str_lt x y) l2 ->
  StronglySorted str_lt (l1 ++ x :: l2).
Proof.
  intros S1 S2 F1 F2. induction S1 as [|a l1 S1 IH Ha]; simpl.
  - now constructor.
  - apply Forall_cons in F1 as [Hax F1]. constructor; [auto|].
    apply Forall_app. split; [exact Ha|]. constructor; [exact Hax|].
    eapply Forall_impl; [exact F2|]. intros y Hy. simpl in Hy.
    exact (str_lt_trans _ _ _ Hax Hy).
Qed.

(** The in-order enumeration of a search tree is strictly ascending. *)
Lemma bst_ordenada (t : PistaNode) :
  bst t -> StronglySorted str_lt (exibirPistas t).
Proof.
  induction t as [|x e IHe d IHd]; simpl; [constructor|].
  intros (He & Hd & Be & Bd). apply StronglySorted_meio; auto.
Qed.

Lemma ordenada_NoDup (l : list string) :
  StronglySorted str_lt l -> NoDup l.
Proof.
  induction 1 as [|a l _ IH Ha]; constructor; [|exact IH].
  intros Hin. rewrite Forall_forall in Ha.
  exact (str_lt_irrefl _ (Ha _ Hin)).
Qed.

(** Strictly ascending is in particular non-decreasing. *)
Lemma ordenada_nao_decrescente (l : list string) :
  StronglySorted str_lt l -> StronglySorted (fun a b => strcmp a b <> Gt) l.
Proof.
  induction 1 as [|a l _ IH Ha]; constructor; [exact IH|].
  eapply Forall_impl; [exact Ha|]. unfold str_lt. simpl. congruence.
Qed.

Lemma ledger_fold (ps : list cstr) (t : PistaNode) :
  ledger t -> ledger (fold_left inserirPista ps t).
Proof.
  revert t. induction ps as [|p ps IH]; intros t L; [exact L|].
  apply IH. now constructor.
Qed.

(** The clues of a ledger are the non-empty strings inserted. *)
Lemma coletar_conteudo (ps : list cstr) (q : string) :
  q ∈ exibirPistas (coletar ps) <-> Some q ∈ ps /\ q <> "".
Proof.
  unfold coletar.
  assert (H : forall t, q ∈ exibirPistas (fold_left inserirPista ps t)
                        <-> (Some q ∈ ps /\ q <> "") \/ q ∈ exibirPistas t).
  { induction ps as [|p ps IH]; intros t; cbn [fold_left].
    - rewrite elem_of_nil. tauto.
    - rewrite IH, elem_of_cons. destruct p as [[|c r]|].
      + rewrite inserirPista_vazia. intuition congruence.
      + rewrite elem_of_inserirPista by congruence.
        assert (Hq : q = String c r <-> Some q = Some (String c r) /\ q <> "")
          by (split; [intros ->; split; congruence | intros [[= ->] _]; reflexivity]).
        rewrite Hq. tauto.
      + rewrite inserirPista_NULL. intuition congruence. }
  rewrite H. cbn [exibirPistas]. rewrite elem_of_nil. tauto.
Qed.

(** C5. For every ledger [t] the program can build and every clue text [p]:
    inserting [p] when [t] already holds exactly these bytes returns [t]
    itself; inserting a non-empty [p] that [t] does not hold (a variant in
    another letter case does not count) replaces one [NULL] link, the one the
    comparisons lead to, by a leaf holding [p], which puts [p] once among the
    enumerated clues; the in-order enumeration of the result is strictly
    ascending for [strcmp], hence non-decreasing and without a repeated
    clue, and holds the old clues and [p]; and the ledger collected from any
    sequence of insertions enumerates exactly the non-empty strings of the
    sequence. *)
Theorem inserirPista_ledger (t : PistaNode) (p : string) (L : ledger t) :
  let t' := inserirPista t (Some p) in
  (p ∈ exibirPistas t -> t' = t)
  /\ (p <> "" -> p ∉ exibirPistas t ->
      nova_folha p t t'
      /\ exists l1 l2,
          exibirPistas t = l1 ++ l2 /\ exibirPistas t' = l1 ++ p :: l2)
  /\ StronglySorted str_lt (exibirPistas t')
  /\ StronglySorted (fun a b => strcmp a b <> Gt) (exibirPistas t')
  /\ NoDup (exibirPistas t')
  /\ (forall q, q ∈ exibirPistas t' <->
                (q = p /\ p <> "") \/ q ∈ exibirPistas t)
  /\ (forall ps, ledger (coletar ps)
                 /\ forall q, q ∈ exibirPistas (coletar ps)
                              <-> Some q ∈ ps /\ q <> "").
Proof.
  intros t'. pose proof (ledger_bst _ L) as B.
  assert (S' : StronglySorted str_lt (exibirPistas t'))
    by (apply bst_ordenada, bst_inserirPista, B).
  split; [intros Hin; now apply inserirPista_presente|].
  split.
  { intros Hp Hout. pose proof (inserirPista_ausente t p Hp Hout) as Hnf.
    split; [exact Hnf | exact (nova_folha_exibir _ _ _ Hnf)]. }
  split; [exact S'|].
  split; [now apply ordenada_nao_decrescente|].
  split; [now apply ordenada_NoDup|].
  split.
  { intros q. unfold t'. destruct (String.eqb_spec p "") as [->|Hp].
    - rewrite inserirPista_vazia. intuition congruence.
    - rewrite elem_of_inserirPista by exact Hp. tauto. }
  intros ps. split; [apply ledger_fold, ledger_vazio|].
  intros q. apply coletar_conteudo.
Qed.

Lemma inserirPista_ledger_witness :
  ledger (PNode "Chave perdida" PNULL PNULL)
  /\ nova_folha "chave perdida" (PNode "Chave perdida" PNULL PNULL)
       (PNode "Chave perdida" PNULL (PNode "chave perdida" PNULL PNULL)).
Proof.
  assert (L : ledger (PNode "Chave perdida" PNULL PNULL))
    by exact (ledger_inserir PNULL (Some "Chave perdida") ledger_vazio).
  split; [exact L|].
  destruct (inserirPista_ledger _ "chave perdida" L) as (_ & H & _).
  apply H.
  - discriminate.
  - intros Hin. apply list_elem_of_singleton in Hin. discriminate.
Defined.

(** ** The suspect index *)

Section Cadeia.
Variable ent : list HashEntry.
Variable k : string.

Lemma procurar_None : procurar ent k = None <-> k ∉ chave <$> ent.
Proof.
  induction ent as [|e prox IH]; simpl.
  - split; [intros _; apply not_elem_of_nil | reflexivity].
  - rewrite not_elem_of_cons.
    destruct (strcmp (chave e) k) eqn:Hc.
    + apply strcmp_eq in Hc. split; [discriminate | intros [H _]; congruence].
    + rewrite IH. apply str_lt_neq in Hc. intuition congruence.
    + rewrite IH. apply strcmp_gt_lt, str_lt_neq in Hc. intuition congruence.
Qed.

Lemma sobrescrever_None (v : string) :
  sobrescrever ent k v = None <-> procurar ent k = None.
Proof.
  induction ent as [|e prox IH]; simpl; [tauto|].
  destruct (strcmp (chave e) k); [split; discriminate| |];
    destruct (sobrescrever prox k v); simpl; rewrite <- IH;
    split; congruence.
Qed.

Lemma sobrescrever_Some (v : string) (ent' : list HashEntry) :
  sobrescrever ent k v = Some ent' ->
  chave <$> ent' = chave <$> ent
  /\ procurar ent' k = Some v
  /\ forall k', k' <> k -> procurar ent' k' = procurar ent k'.
Proof.
  revert ent'. induction ent as [|e prox IH]; simpl; [discriminate|].
  intros ent'. destruct (strcmp (chave e) k) eqn:Hc.
  - intros [= <-]. simpl. rewrite Hc. repeat split.
    intros k' Hk'. apply strcmp_eq in Hc. subst k.
    destruct (strcmp (chave e) k') eqn:Hc'; [|reflexivity..].
    apply strcmp_eq in Hc'. congruence.
  - destruct (sobrescrever prox k v) as [prox'|]; [|discriminate].
    intros [= <-]. destruct (IH _ eq_refl) as (Hk & Hp & Ho).
    rewrite !fmap_cons, Hk. cbn [procurar]. rewrite Hc.
    repeat split; [exact Hp|].
    intros k' Hk'. rewrite (Ho _ Hk'). reflexivity.
  - destruct (sobrescrever prox k v) as [prox'|]; [|discriminate].
    intros [= <-]. destruct (IH _ eq_refl) as (Hk & Hp & Ho).
    rewrite !fmap_cons, Hk. cbn [procurar]. rewrite Hc.
    repeat split; [exact Hp|].
    intros k' Hk'. rewrite (Ho _ Hk'). reflexivity.
Qed.
End Cadeia.

Lemma procurar_novo (ent : list HashEntry) (k v k' : string) :
  procurar ({| chave := k; suspeito := v |} :: ent) k'
  = if String.eqb k k' then Some v else procurar ent k'.
Proof.
  simpl. destruct (String.eqb_spec k k') as [->|Hne].
  - now rewrite strcmp_refl.
  - destruct (strcmp k k') eqn:Hc; [|reflexivity..].
    apply strcmp_eq in Hc. congruence.
Qed.

Lemma balde_lt (ht : HashTable) (k : string) :
  0 < tamanho ht -> balde ht k < tamanho ht.
Proof.
  intros H. unfold balde.
  pose proof (Z.mod_pos_bound (hash_djb2 k) (Z.of_nat (tamanho ht))). lia.
Qed.

Lemma tamanho_inserirNaHash (ht : HashTable) (k v : cstr) :
  tamanho (inserirNaHash ht k v) = tamanho ht.
Proof.
  unfold inserirNaHash. destruct k as [k|], v as [v|]; try reflexivity.
  destruct (sobrescrever _ _ _); reflexivity.
Qed.

Lemma balde_inserirNaHash (ht : HashTable) (k v : cstr) (k' : string) :
  balde (inserirNaHash ht k v) k' = balde ht k'.
Proof. unfold balde. now rewrite tamanho_inserirNaHash. Qed.

Lemma length_buckets_inserirNaHash (ht : HashTable) (k v : cstr) :
  length (buckets (inserirNaHash ht k v)) = length (buckets ht).
Proof.
  unfold inserirNaHash. destruct k as [k|], v as [v|]; try reflexivity.
  destruct (sobrescrever _ _ _); simpl; apply length_insert.
Qed.

(** The chain of bucket [i] after [inserirNaHash(ht, k, v)]. *)
Lemma buckets_inserirNaHash (ht : HashTable) (k v : string) (i : nat) :
  length (buckets ht) = tamanho ht -> 0 < tamanho ht ->
  buckets (inserirNaHash ht (Some k) (Some v)) !!! i
  = if decide (balde ht k = i)
    then match sobrescrever (buckets ht !!! i) k v with
         | Some ent' => ent'
         | None => {| chave := k; suspeito := v |} :: buckets ht !!! i
         end
    else buckets ht !!! i.
Proof.
  intros Hlen Hpos. pose proof (balde_lt ht k Hpos) as Hlt.
  unfold inserirNaHash. destruct (decide (balde ht k = i)) as [<-|Hne].
  - destruct (sobrescrever _ _ _); simpl;
      apply list_lookup_total_insert_eq; lia.
  - destruct (sobrescrever _ _ _); simpl;
      now apply list_lookup_total_insert_ne.
Qed.

Lemma encontrar_inserir_eq (ht : HashTable) (k v : string) :
  tabela_ok ht ->
  encontrarSuspeito (inserirNaHash ht (Some k) (Some v)) (Some k) = Some v.
Proof.
  intros (Hpos & Hlen & _). unfold encontrarSuspeito.
  rewrite balde_inserirNaHash, buckets_inserirNaHash by assumption.
  rewrite decide_True by reflexivity.
  destruct (sobrescrever _ _ _) eqn:Hs.
  - now apply sobrescrever_Some in Hs.
  - now rewrite procurar_novo, String.eqb_refl.
Qed.

Lemma encontrar_inserir_ne (ht : HashTable) (k v k' : string) :
  tabela_ok ht -> k' <> k ->
  encontrarSuspeito (inserirNaHash ht (Some k) (Some v)) (Some k')
  = encontrarSuspeito ht (Some k').
Proof.
  intros (Hpos & Hlen & _) Hne. unfold encontrarSuspeito.
  rewrite balde_inserirNaHash, buckets_inserirNaHash by assumption.
  destruct (decide _) as [Heq|]; [|reflexivity].
  destruct (sobrescrever _ _ _) eqn:Hs.
  - now apply sobrescrever_Some in Hs as (_ & _ & ->).
  - rewrite procurar_novo.
    destruct (String.eqb_spec k k'); [congruence|reflexivity].
Qed.

Lemma elem_of_chaves_concat (l : list (list HashEntry)) (k : string) :
  k ∈ chave <$> concat l
  <-> exists i, i < length l /\ k ∈ chave <$> l !!! i.
Proof.
  induction l as [|b l IH].
  - simpl. rewrite elem_of_nil. split; [tauto | intros (i & Hi & _); lia].
  - rewrite concat_cons, fmap_app, elem_of_app, IH. split.
    + intros [Hb|(i & Hi & Hk)].
      * exists 0. split; [simpl; lia | exact Hb].
      * exists (S i). split; [simpl; lia | exact Hk].
    + intros ([|i] & Hi & Hk); [left; exact Hk|].
      right. exists i. split; [simpl in Hi; lia | exact Hk].
Qed.

Lemma NoDup_chaves_concat (g : string -> nat) (l : list (list HashEntry))
  (off : nat) :
  (forall i, i < length l ->
     NoDup (chave <$> l !!! i)
     /\ forall k, k ∈ chave <$> l !!! i -> g k = off + i) ->
  NoDup (chave <$> concat l).
Proof.
  revert off. induction l as [|b l IH]; intros off H; [constructor|].
  rewrite concat_cons, fmap_app. apply NoDup_app.
  destruct (H 0 ltac:(simpl; lia)) as [Hnd Hg]. split; [exact Hnd|]. split.
  - intros k Hk Hk'. apply elem_of_chaves_concat in Hk' as (i & Hi & Hki).
    apply Hg in Hk. destruct (H (S i) ltac:(simpl; lia)) as [_ Hg'].
    apply Hg' in Hki. lia.
  - apply (IH (S off)). intros i Hi.
    destruct (H (S i) ltac:(simpl; lia)) as [Hnd' Hg']. split; [exact Hnd'|].
    intros k Hk. rewrite (Hg' k Hk). lia.
Qed.

Lemma tabela_ok_NoDup (ht : HashTable) : tabela_ok ht -> NoDup (chaves ht).
Proof.
  intros (_ & Hlen & Hb). unfold chaves, entradas.
  apply (NoDup_chaves_concat (balde ht) _ 0). rewrite Hlen. exact Hb.
Qed.

(** A key is bound exactly when it is in the chain of its bucket. *)
Lemma elem_of_chaves (ht : HashTable) (k : string) :
  tabela_ok ht ->
  k ∈ chaves ht <-> k ∈ chave <$> buckets ht !!! balde ht k.
Proof.
  intros (Hpos & Hlen & Hb). unfold chaves, entradas.
  rewrite elem_of_chaves_concat. split.
  - intros (i & Hi & Hk). rewrite Hlen in Hi.
    destruct (Hb i Hi) as [_ Hg]. now rewrite (Hg k Hk).
  - intros Hk. exists (balde ht k). split; [|exact Hk].
    rewrite Hlen. now apply balde_lt.
Qed.

(** [encontrarSuspeito] answers [NULL] exactly for the keys not bound. *)
Lemma encontrar_None (ht : HashTable) (k : string) :
  tabela_ok ht ->
  encontrarSuspeito ht (Some k) = None <-> k ∉ chaves ht.
Proof.
  intros Hok. rewrite (elem_of_chaves ht k Hok). apply procurar_None.
Qed.

Lemma tabela_ok_criarHash (n : nat) : 0 < n -> tabela_ok (criarHash n).
Proof.
  intros Hn. unfold tabela_ok, criarHash. simpl.
  split; [exact Hn|]. split; [apply length_replicate|].
  intros i Hi. rewrite lookup_total_replicate_2 by exact Hi. simpl.
  split; [constructor | intros k Hk; now apply elem_of_nil in Hk].
Qed.

Lemma tabela_ok_inserir (ht : HashTable) (k v : string) :
  tabela_ok ht -> tabela_ok (inserirNaHash ht (Some k) (Some v)).
Proof.
  intros (Hpos & Hlen & Hb). unfold tabela_ok.
  rewrite tamanho_inserirNaHash, length_buckets_inserirNaHash.
  split; [exact Hpos|]. split; [exact Hlen|]. intros i Hi.
  rewrite buckets_inserirNaHash by assumption.
  destruct (Hb i Hi) as [Hnd Hg].
  assert (Hg' : forall k', k' ∈ chave <$> buckets ht !!! i ->
                           balde (inserirNaHash ht (Some k) (Some v)) k' = i)
    by (intros k' Hk'; rewrite balde_inserirNaHash; auto).
  destruct (decide (balde ht k = i)) as [Hki|Hne]; [|now split].
  destruct (sobrescrever _ _ _) as [ent'|] eqn:Hs.
  - apply sobrescrever_Some in Hs as (-> & _). now split.
  - apply sobrescrever_None, procurar_None in Hs. rewrite fmap_cons.
    cbn [chave]. split; [now apply NoDup_cons|].
    intros k' [->|Hk']%elem_of_cons; [|now apply Hg'].
    now rewrite balde_inserirNaHash.
Qed.

(** The bound keys after [inserirNaHash(ht, k, v)]: the same list when [k]
    was bound, one more key when it was not. *)
Lemma chaves_inserir (ht : HashTable) (k v : string) :
  tabela_ok ht ->
  (k ∈ chaves ht -> chaves (inserirNaHash ht (Some k) (Some v)) = chaves ht)
  /\ (k ∉ chaves ht ->
      chaves (inserirNaHash ht (Some k) (Some v)) ≡ₚ k :: chaves ht).
Proof.
  intros Hok. pose proof Hok as (Hpos & Hlen & Hb).
  pose proof (balde_lt ht k Hpos) as Hlt. rewrite <- Hlen in Hlt.
  pose proof (list_lookup_lookup_total_lt _ _ Hlt) as Hlk.
  pose proof (take_drop_middle _ _ _ Hlk) as Hdec.
  assert (E : chaves ht
              = (chave <$> concat (take (balde ht k) (buckets ht)))
                ++ (chave <$> buckets ht !!! balde ht k)
                ++ (chave <$> concat (drop (S (balde ht k)) (buckets ht)))).
  { unfold chaves, entradas. rewrite <- Hdec at 1.
    now rewrite concat_app, concat_cons, !fmap_app. }
  rewrite (elem_of_chaves ht k Hok), <- procurar_None, E.
  unfold chaves, entradas, inserirNaHash.
  destruct (sobrescrever _ _ _) as [ent'|] eqn:Hs; simpl;
    rewrite insert_take_drop by exact Hlt;
    rewrite concat_app, concat_cons, !fmap_app.
  - pose proof (sobrescrever_Some _ _ _ _ Hs) as (Hk & _). split.
    + intros _. now rewrite Hk.
    + intros Hn. apply (sobrescrever_None _ _ v) in Hn. congruence.
  - apply sobrescrever_None in Hs. split.
    + intros Hin. apply procurar_None in Hs. contradiction.
    + intros _. rewrite fmap_cons. cbn [chave].
      rewrite <- app_comm_cons. symmetry. apply Permutation_middle.
Qed.

Lemma tabela_ok_inserir_todos (ht : HashTable) (ps : list (string * string)) :
  tabela_ok ht -> tabela_ok (inserir_todos ht ps).
Proof.
  revert ht. induction ps as [|kv ps IH]; intros ht Hok; [exact Hok|].
  apply IH, tabela_ok_inserir, Hok.
Qed.

Lemma encontrar_inserir_todos (ht : HashTable) (ps : list (string * string))
  (k : string) :
  tabela_ok ht ->
  encontrarSuspeito (inserir_todos ht ps) (Some k)
  = match ultimo_put ps k with
    | Some v => Some v
    | None => encontrarSuspeito ht (Some k)
    end.
Proof.
  revert ht. induction ps as [|[k' v'] ps IH]; intros ht Hok; [reflexivity|].
  cbn [inserir_todos fold_left ultimo_put fst snd].
  fold (inserir_todos (inserirNaHash ht (Some k') (Some v')) ps).
  rewrite IH by now apply tabela_ok_inserir.
  destruct (ultimo_put ps k); [reflexivity|].
  destruct (String.eqb_spec k' k) as [->|Hne].
  - now apply encontrar_inserir_eq.
  - apply encontrar_inserir_ne; [exact Hok | congruence].
Qed.

(** C6. On a table as [criarHash] makes it, after any sequence of calls of
    [inserirNaHash], [encontrarSuspeito] answers for every key the suspect of
    the last call for that key (and what the table held before when there
    was none); no key is bound twice; and one more call for a key [k1]
    makes [k1] answer the new suspect, leaves the list of bound keys as it is
    when [k1] was bound, and adds [k1] to it once when it was not. *)
Theorem inserirNaHash_ultimo_vence (ht : HashTable)
  (ps : list (string * string)) (k : string) (Hok : tabela_ok ht) :
  let ht' := inserir_todos ht ps in
  encontrarSuspeito ht' (Some k)
  = match ultimo_put ps k with
    | Some v => Some v
    | None => encontrarSuspeito ht (Some k)
    end
  /\ NoDup (chaves ht')
  /\ forall k1 v1,
       let ht1 := inserirNaHash ht' (Some k1) (Some v1) in
       encontrarSuspeito ht1 (Some k1) = Some v1
       /\ NoDup (chaves ht1)
       /\ (k1 ∈ chaves ht' -> chaves ht1 = chaves ht')
       /\ (k1 ∉ chaves ht' -> chaves ht1 ≡ₚ k1 :: chaves ht').
Proof.
  intros ht'. pose proof (tabela_ok_inserir_todos ht ps Hok) as Hok'.
  split; [now apply encontrar_inserir_todos|].
  split; [now apply tabela_ok_NoDup|].
  intros k1 v1 ht1.
  split; [now apply encontrar_inserir_eq|].
  split; [now apply tabela_ok_NoDup, tabela_ok_inserir|].
  now apply chaves_inserir.
Qed.

Lemma inserirNaHash_ultimo_vence_witness :
  tabela_ok (criarHash 31)
  /\ encontrarSuspeito
       (inserir_todos (criarHash 31)
          [("Chave perdida", "Empregado"); ("Gaveta perdida", "Jardineiro");
           ("Chave perdida", "Jardineiro")])
       (Some "Chave perdida")
     = Some "Jardineiro".
Proof.
  assert (Hok : tabela_ok (criarHash 31)) by (apply tabela_ok_criarHash; lia).
  split; [exact Hok|].
  exact (proj1 (inserirNaHash_ultimo_vence (criarHash 31)
                  [("Chave perdida", "Empregado"); ("Gaveta perdida", "Jardineiro");
                   ("Chave perdida", "Jardineiro")]
                  "Chave perdida" Hok)).
Defined.

(** ** Counting clues per suspect *)

Lemma incrementar_None (l : list SuspeitoConta) (n : string) :
  incrementar l n = None <-> contador l n = None.
Proof.
  induction l as [|e l IH]; simpl; [tauto|].
  destruct (String.eqb_spec (sc_nome e) n) as [->|Hne].
  - rewrite strcmp_refl. split; discriminate.
  - assert (Hc : strcmp (sc_nome e) n <> Eq) by now rewrite strcmp_eq.
    destruct (strcmp (sc_nome e) n); [congruence| |];
      destruct (incrementar l n); simpl; rewrite <- IH; split; congruence.
Qed.

Lemma incrementar_Some (l l' : list SuspeitoConta) (n : string) :
  incrementar l n = Some l' ->
  sc_nome <$> l' = sc_nome <$> l
  /\ (exists c, contador l n = Some c /\ contador l' n = Some (c + 1)%Z)
  /\ forall s, s <> n -> contador l' s = contador l s.
Proof.
  revert l'. induction l as [|e l IH]; intros l'; simpl; [discriminate|].
  destruct (String.eqb_spec (sc_nome e) n) as [He|Hne].
  - rewrite He, strcmp_refl. intros [= <-]. rewrite !fmap_cons.
    cbn [contador sc_nome cont]. rewrite String.eqb_refl.
    split; [reflexivity|]. split; [now exists (cont e)|].
    intros s Hs. destruct (String.eqb_spec n s); [congruence|reflexivity].
  - assert (Hc : strcmp (sc_nome e) n <> Eq) by now rewrite strcmp_eq.
    assert (Hstep : option_map (cons e) (incrementar l n) = Some l' ->
              sc_nome <$> l' = sc_nome e :: (sc_nome <$> l)
              /\ (exists c, contador l n = Some c
                            /\ contador l' n = Some (c + 1)%Z)
              /\ forall s, s <> n ->
                   contador l' s
                   = if String.eqb (sc_nome e) s then Some (cont e)
                     else contador l s).
    { destruct (incrementar l n) as [l1|]; [|discriminate]. intros [= <-].
      destruct (IH _ eq_refl) as (Hn & (c & H1 & H2) & Ho).
      rewrite fmap_cons, Hn. cbn [contador].
      destruct (String.eqb_spec (sc_nome e) n); [congruence|].
      split; [reflexivity|]. split; [now exists c|].
      intros s Hs. now rewrite (Ho s Hs). }
    destruct (strcmp (sc_nome e) n); [congruence|exact Hstep..].
Qed.

(** The counters after [conta_suspeito_add(&lista, n)]. *)
Lemma contador_add (l : list SuspeitoConta) (n s : string) :
  contador (conta_suspeito_add l (Some n)) s
  = if String.eqb n s
    then Some (match contador l n with Some c => c + 1 | None => 1 end)%Z
    else contador l s.
Proof.
  unfold conta_suspeito_add. destruct (incrementar l n) as [l'|] eqn:Hi.
  - apply incrementar_Some in Hi as (_ & (c & H1 & H2) & Ho).
    destruct (String.eqb_spec n s) as [<-|Hne]; [now rewrite H1, H2|].
    apply Ho. congruence.
  - apply incrementar_None in Hi. cbn [contador sc_nome cont].
    now rewrite Hi.
Qed.

Lemma NoDup_add (l : list SuspeitoConta) (n : cstr) :
  NoDup (sc_nome <$> l) -> NoDup (sc_nome <$> conta_suspeito_add l n).
Proof.
  intros Hnd. destruct n as [n|]; [|exact Hnd]. unfold conta_suspeito_add.
  destruct (incrementar l n) as [l'|] eqn:Hi.
  - apply incrementar_Some in Hi as (-> & _). exact Hnd.
  - apply incrementar_None in Hi. rewrite fmap_cons. cbn [sc_nome].
    apply NoDup_cons. split; [|exact Hnd]. clear Hnd.
    induction l as [|e l IH]; [apply not_elem_of_nil|].
    cbn [contador] in Hi. rewrite fmap_cons, not_elem_of_cons.
    destruct (String.eqb_spec (sc_nome e) n); [discriminate|]. auto.
Qed.

(** A name has a counter exactly when it has an entry. *)
Lemma contador_None (l : list SuspeitoConta) (s : string) :
  contador l s = None <-> s ∉ sc_nome <$> l.
Proof.
  induction l as [|e l IH]; simpl; [split; [intros _; apply not_elem_of_nil|reflexivity]|].
  rewrite not_elem_of_cons.
  destruct (String.eqb_spec (sc_nome e) s); [|rewrite IH];
    intuition congruence.
Qed.

Lemma contar_pistas_lista (t : PistaNode) (ht : HashTable)
  (l : list SuspeitoConta) :
  contar_pistas_por_suspeito t ht l = contar_lista (exibirPistas t) ht l.
Proof.
  unfold contar_lista. revert l.
  induction t as [|p e IHe d IHd]; intros l; simpl; [reflexivity|].
  now rewrite fold_left_app, <- IHe, IHd.
Qed.

Lemma length_apontam_cons (ht : HashTable) (sus p : string) (ps : list string) :
  length (apontam_para ht sus (p :: ps))
  = (if decide (encontrarSuspeito ht (Some p) = Some sus) then 1 else 0)
    + length (apontam_para ht sus ps).
Proof.
  unfold apontam_para. rewrite filter_cons.
  destruct (decide _); reflexivity.
Qed.

Lemma contar_lista_cons (p : string) (ps : list string) (ht : HashTable)
  (l : list SuspeitoConta) :
  contar_lista (p :: ps) ht l
  = contar_lista ps ht (conta_suspeito_add l (encontrarSuspeito ht (Some p))).
Proof. reflexivity. Qed.

(** The counter of [s] after the counting loop over [ps]. *)
Lemma contador_contar_lista (ps : list string) (ht : HashTable)
  (l : list SuspeitoConta) (s : string) :
  contador (contar_lista ps ht l) s
  = let n := length (apontam_para ht s ps) in
    match contador l s with
    | Some c => Some (c + Z.of_nat n)%Z
    | None => if n =? 0 then None else Some (Z.of_nat n)
    end.
Proof.
  revert l. induction ps as [|p ps IH]; intros l.
  - simpl. destruct (contador l s); [f_equal; lia | reflexivity].
  - rewrite contar_lista_cons, IH, length_apontam_cons. cbv zeta.
    destruct (encontrarSuspeito ht (Some p)) as [x|] eqn:Hx.
    + rewrite contador_add.
      destruct (String.eqb_spec x s) as [->|Hne].
      * rewrite decide_True by reflexivity.
        destruct (contador l s); [f_equal; lia|].
        destruct (length (apontam_para ht s ps)); simpl; f_equal; lia.
      * rewrite decide_False by congruence. reflexivity.
    + rewrite decide_False by congruence. reflexivity.
Qed.

Lemma NoDup_contar_lista (ps : list string) (ht : HashTable)
  (l : list SuspeitoConta) :
  NoDup (sc_nome <$> l) -> NoDup (sc_nome <$> contar_lista ps ht l).
Proof.
  revert l. induction ps as [|p ps IH]; intros l Hnd; [exact Hnd|].
  rewrite contar_lista_cons. apply IH, NoDup_add, Hnd.
Qed.

(** A counting list without repeated names whose only counter is the one of
    [x] is the single entry for [x]. *)
Lemma lista_de_um (l : list SuspeitoConta) (x : string) (c : Z) :
  NoDup (sc_nome <$> l) ->
  (forall s, contador l s = if String.eqb x s then Some c else None) ->
  l = [ {| sc_nome := x; cont := c |} ].
Proof.
  intros Hnd H. destruct l as [|[n0 c0] l].
  - specialize (H x). rewrite String.eqb_refl in H. discriminate.
  - pose proof (H n0) as H0. cbn [contador sc_nome cont] in H0.
    rewrite String.eqb_refl in H0.
    destruct (String.eqb_spec x n0) as [->|]; [|discriminate].
    injection H0 as ->. f_equal.
    destruct l as [|[n1 c1] l]; [reflexivity|]. exfalso.
    rewrite !fmap_cons in Hnd. cbn [sc_nome] in Hnd.
    apply NoDup_cons in Hnd as [Hn _]. apply not_elem_of_cons in Hn as [Hn _].
    specialize (H n1). cbn [contador sc_nome cont] in H.
    rewrite String.eqb_refl in H.
    destruct (String.eqb_spec n0 n1); [congruence|discriminate].
Qed.

Lemma length_apontam_perm (ht : HashTable) (sus : string) (ps ps' : list string) :
  ps ≡ₚ ps' ->
  length (apontam_para ht sus ps) = length (apontam_para ht sus ps').
Proof. intros Hp. unfold apontam_para. now rewrite Hp. Qed.

(** C4. The counting list [contar_pistas_por_suspeito] builds from the empty
    list holds, for every suspect, the number of clues of the ledger that the
    index binds to that suspect, and no entry when this number is 0; no name
    has two entries; the clues of a ledger are distinct; the counters are the
    same whatever the order in which the clues are taken; a clue the index
    does not bind changes nothing; and when the ledger holds three clues, two
    bound to [x] and one unbound, the list is the single entry [x -> 2]. *)
Theorem contar_pistas_por_suspeito_conta (t : PistaNode) (ht : HashTable) :
  let lista := contar_pistas_por_suspeito t ht [] in
  (forall sus,
     contador lista sus
     = let n := length (apontam_para ht sus (exibirPistas t)) in
       if n =? 0 then None else Some (Z.of_nat n))
  /\ NoDup (sc_nome <$> lista)
  /\ (ledger t -> NoDup (exibirPistas t))
  /\ (forall ps sus, ps ≡ₚ exibirPistas t ->
        contador (contar_lista ps ht []) sus = contador lista sus)
  /\ (forall l p, encontrarSuspeito ht (Some p) = None ->
        conta_suspeito_add l (encontrarSuspeito ht (Some p)) = l)
  /\ (forall a b c x,
        exibirPistas t ≡ₚ [a; b; c] ->
        encontrarSuspeito ht (Some a) = Some x ->
        encontrarSuspeito ht (Some b) = Some x ->
        encontrarSuspeito ht (Some c) = None ->
        lista = [ {| sc_nome := x; cont := 2 |} ]).
Proof.
  intros lista. unfold lista. rewrite contar_pistas_lista.
  assert (Hc : forall sus,
            contador (contar_lista (exibirPistas t) ht []) sus
            = let n := length (apontam_para ht sus (exibirPistas t)) in
              if n =? 0 then None else Some (Z.of_nat n))
    by (intros sus; now rewrite contador_contar_lista).
  assert (Hnd : NoDup (sc_nome <$> contar_lista (exibirPistas t) ht []))
    by (apply NoDup_contar_lista; constructor).
  split; [exact Hc|]. split; [exact Hnd|].
  split; [intros L; now apply ordenada_NoDup, bst_ordenada, ledger_bst|].
  split.
  { intros ps sus Hp. rewrite Hc, contador_contar_lista. cbn [contador].
    cbv zeta. now rewrite (length_apontam_perm ht sus _ _ Hp). }
  split; [intros l p ->; reflexivity|].
  intros a b c x Hp Ha Hb Hcn. apply lista_de_um; [exact Hnd|].
  intros s. rewrite Hc. cbv zeta.
  rewrite (length_apontam_perm ht s _ _ Hp), !length_apontam_cons.
  rewrite Ha, Hb, Hcn. unfold apontam_para. rewrite filter_nil.
  rewrite (decide_False (P := None = Some s)) by discriminate.
  destruct (String.eqb_spec x s) as [->|Hne].
  - rewrite !decide_True by reflexivity. reflexivity.
  - rewrite !decide_False by congruence. reflexivity.
Qed.

Lemma contar_pistas_por_suspeito_conta_witness :
  contar_pistas_por_suspeito
    (PNode "Lençol manchado" (PNode "Chave perdida" PNULL PNULL)
                             (PNode "Taça quebrada" PNULL PNULL))
    hash_main []
  = [ {| sc_nome := "Empregado"; cont := 2 |} ].
Proof.
  refine (proj2 (proj2 (proj2 (proj2 (proj2
            (contar_pistas_por_suspeito_conta _ hash_main)))))
            "Chave perdida" "Lençol manchado" "Taça quebrada" "Empregado"
            _ _ _ _); reflexivity.
Defined.

(** ** The judgement *)

Lemma strncpy_curto (k : nat) (s : string) :
  String.length s <= k -> strncpy k s = s.
Proof.
  revert k. induction s as [|c s IH]; intros [|k] H; simpl in *;
    try reflexivity; try lia.
  rewrite IH by lia. reflexivity.
Qed.

Lemma normalizado_curto (s : string) :
  String.length s <= 127 -> normalizado s = str_lower s.
Proof. intros H. unfold normalizado. now rewrite strncpy_curto. Qed.


Lemma buscar_primeiro (l1 l2 : list SuspeitoConta) (e : SuspeitoConta)
  (a : string) :
  Forall (fun e' => normalizado (sc_nome e') <> a) l1 ->
  normalizado (sc_nome e) = a ->
  buscar (l1 ++ e :: l2) a = Some (cont e).
Proof.
  intros H1 He. induction H1 as [|e' l1 Hne _ IH]; cbn [app buscar].
  - fold (normalizado (sc_nome e)). now rewrite He, strcmp_refl.
  - fold (normalizado (sc_nome e')).
    destruct (strcmp (normalizado (sc_nome e')) a) eqn:Hc; [|exact IH..].
    apply strcmp_eq in Hc. contradiction.
Qed.


Lemma julgar_primeira_entrada (l1 l2 : list SuspeitoConta) (e : SuspeitoConta)
  (buf : string) :
  Forall (fun e' => normalizado (sc_nome e') <> normalizado buf) l1 ->
  normalizado (sc_nome e) = normalizado buf ->
  julgar (l1 ++ e :: l2) buf
  = if (2 <=? cont e)%Z then (Guilty, [VoceAcusou buf (cont e); VereditoCulpado])
    else (InsufficientEvidence, [VoceAcusou buf (cont e); VereditoInocentado]).
Proof.
  intros H1 He. unfold julgar. fold (normalizado buf).
  now rewrite (buscar_primeiro l1 l2 e _ H1 He).
Qed.

(** Either no entry matches or there is a first one that does. *)
Lemma primeira_entrada (l : list SuspeitoConta) (a : string) :
  Forall (fun e => normalizado (sc_nome e) <> a) l
  \/ exists l1 e l2,
       l = l1 ++ e :: l2
       /\ Forall (fun e' => normalizado (sc_nome e') <> a) l1
       /\ normalizado (sc_nome e) = a.
Proof.
  induction l as [|e l [IH|(l1 & e1 & l2 & -> & H1 & He)]].
  - left. constructor.
  - destruct (decide (normalizado (sc_nome e) = a)) as [Heq|Hne].
    + right. exists [], e, l. repeat split; [constructor | exact Heq].
    + left. now constructor.
  - right. destruct (decide (normalizado (sc_nome e) = a)) as [Heq|Hne].
    + exists [], e, (l1 ++ e1 :: l2). repeat split; [constructor | exact Heq].
    + exists (e :: l1), e1, l2. repeat split; [now constructor | exact He].
Qed.







Lemma contador_da_entrada (l : list SuspeitoConta) (e : SuspeitoConta) :
  NoDup (sc_nome <$> l) -> e ∈ l -> contador l (sc_nome e) = Some (cont e).
Proof.
  induction l as [|e' l IH]; intros Hnd Hin; [now apply elem_of_nil in Hin|].
  rewrite fmap_cons in Hnd. apply NoDup_cons in Hnd as [Hn Hnd].
  cbn [contador]. apply elem_of_cons in Hin as [->|Hin].
  - now rewrite String.eqb_refl.
  - destruct (String.eqb_spec (sc_nome e') (sc_nome e)) as [Heq|_]; [|auto].
    exfalso. apply Hn. rewrite Heq. now apply list_elem_of_fmap_2.
Qed.

Lemma apontam_para_elem (ht : HashTable) (sus p : string) (ps : list string) :
  p ∈ ps -> encontrarSuspeito ht (Some p) = Some sus ->
  length (apontam_para ht sus ps) <> 0.
Proof.
  intros Hin He. assert (Hp : p ∈ apontam_para ht sus ps)
    by (unfold apontam_para; now apply list_elem_of_filter).
  destruct (apontam_para ht sus ps); [now apply elem_of_nil in Hp|].
  discriminate.
Qed.

(** C10. When two clues of the ledger are bound to two names that are not
    the same bytes (two spellings of one name in different letter case, for
    one), the counting list holds an entry for each name, no name twice, and
    each counter is the number of clues bound to exactly that name; and the
    outcome of an accusation is decided by the counter of the first entry
    that matches the lowered accused name alone, which counts the clues
    bound to exactly the name of that entry, whatever entries follow it. *)
Theorem contagem_exata_julgamento_primeiro (t : PistaNode) (ht : HashTable)
  (p1 p2 n1 n2 : string)
  (H1 : p1 ∈ exibirPistas t) (H2 : p2 ∈ exibirPistas t)
  (E1 : encontrarSuspeito ht (Some p1) = Some n1)
  (E2 : encontrarSuspeito ht (Some p2) = Some n2)
  (Hne : n1 <> n2) :
  let lista := contar_pistas_por_suspeito t ht [] in
  n1 ∈ sc_nome <$> lista
  /\ n2 ∈ sc_nome <$> lista
  /\ NoDup (sc_nome <$> lista)
  /\ (forall e, e ∈ lista ->
        cont e = Z.of_nat (length (apontam_para ht (sc_nome e) (exibirPistas t))))
  /\ (forall buf l1 e l2,
        lista = l1 ++ e :: l2 ->
        Forall (fun e' => normalizado (sc_nome e') <> normalizado buf) l1 ->
        normalizado (sc_nome e) = normalizado buf ->
        fst (julgar lista buf)
        = if (2 <=? Z.of_nat (length (apontam_para ht (sc_nome e) (exibirPistas t))))%Z
          then Guilty else InsufficientEvidence).
Proof.
  intros lista.
  assert (Hnd : NoDup (sc_nome <$> lista))
    by (unfold lista; rewrite contar_pistas_lista;
        apply NoDup_contar_lista; constructor).
  assert (Hc : forall sus,
            contador lista sus
            = let n := length (apontam_para ht sus (exibirPistas t)) in
              if n =? 0 then None else Some (Z.of_nat n))
    by (intros sus; unfold lista;
        now rewrite contar_pistas_lista, contador_contar_lista).
  assert (Hin : forall p n, p ∈ exibirPistas t ->
                  encontrarSuspeito ht (Some p) = Some n ->
                  n ∈ sc_nome <$> lista).
  { intros p n Hp He. destruct (decide (n ∈ sc_nome <$> lista)) as [|Hn];
      [assumption|]. exfalso.
    apply contador_None in Hn. rewrite Hc in Hn. cbv zeta in Hn.
    pose proof (apontam_para_elem ht n p _ Hp He) as Hz.
    apply Nat.eqb_neq in Hz. rewrite Hz in Hn. discriminate. }
  assert (Hcont : forall e, e ∈ lista ->
            cont e = Z.of_nat (length (apontam_para ht (sc_nome e) (exibirPistas t)))).
  { intros e He. pose proof (contador_da_entrada _ _ Hnd He) as Hce.
    rewrite Hc in Hce. cbv zeta in Hce.
    destruct (_ =? 0); [discriminate | congruence]. }
  split; [exact (Hin _ _ H1 E1)|]. split; [exact (Hin _ _ H2 E2)|].
  split; [exact Hnd|]. split; [exact Hcont|].
  intros buf l1 e l2 Hl Hb He.
  rewrite <- (Hcont e) by (rewrite Hl, elem_of_app, elem_of_cons; tauto).
  rewrite Hl, (julgar_primeira_entrada _ _ _ _ Hb He).
  now destruct (2 <=? cont e)%Z.
Qed.

(** One clue for "Empregado" and one for "EMPREGADO": two entries of one
    clue each, and the accusation of "empregado" rests on one clue. *)
Lemma contagem_exata_julgamento_primeiro_witness :
  let ht := inserir_todos (criarHash 31)
              [("Chave perdida", "Empregado"); ("Lençol manchado", "EMPREGADO")] in
  let t := PNode "Chave perdida" PNULL (PNode "Lençol manchado" PNULL PNULL) in
  let lista := contar_pistas_por_suspeito t ht [] in
  lista = [ {| sc_nome := "EMPREGADO"; cont := 1 |};
            {| sc_nome := "Empregado"; cont := 1 |} ]
  /\ "Empregado" ∈ sc_nome <$> lista
  /\ fst (julgar lista "empregado") = InsufficientEvidence.
Proof.
  intros ht t lista.
  pose proof (contagem_exata_julgamento_primeiro t ht
                "Chave perdida" "Lençol manchado" "Empregado" "EMPREGADO") as H.
  destruct H as (Hn1 & _ & _ & _ & Hj).
  - vm_compute. apply list_elem_of_here.
  - vm_compute. apply list_elem_of_further, list_elem_of_here.
  - reflexivity.
  - reflexivity.
  - discriminate.
  - split; [reflexivity|]. split; [exact Hn1|]. unfold lista.
    rewrite (Hj "empregado" [] {| sc_nome := "EMPREGADO"; cont := 1 |}
                [ {| sc_nome := "Empregado"; cont := 1 |} ]).
    + reflexivity.
    + reflexivity.
    + constructor.
    + reflexivity.
Defined.

(** ** The exploration loop *)

(** What [entrar] does when the history can take the entry. *)
Lemma entrar_cabe (realloc_ok : nat -> bool) (m : Mansao) (ht : HashTable)
  (s : Exploracao) (sala : Sala) :
  cabe realloc_ok s = true -> m !! atual s = Some sala ->
  exists s',
    entrar realloc_ok m ht s = Continua s'
    /\ historico s' = historico s ++ [nome sala]
    /\ atual s' = atual s
    /\ entrada s' = entrada s
    /\ pistasRoot s' = match pista sala with
                       | Some (String c r) =>
                           inserirPista (pistasRoot s) (Some (String c r))
                       | _ => pistasRoot s
                       end
    /\ exists msgs,
         saida s' = saida s ++ [VoceEstaNaSala (nome sala)] ++ msgs
                      ++ [Opcoes (bool_decide (esq sala <> None))
                                 (bool_decide (dir sala <> None))]
         /\ msgs = match pista sala with
                   | Some (String c r) =>
                       [PistaEncontrada (String c r);
                        match encontrarSuspeito ht (Some (String c r)) with
                        | Some sus => PistaApontaPara sus
                        | None => NenhumSuspeitoConhecido
                        end]
                   | _ => [NenhumaPistaNestaSala]
                   end.
Proof.
  intros Hc Hm. unfold cabe in Hc. apply negb_true_iff in Hc.
  unfold entrar. rewrite Hc, Hm.
  destruct (pista sala) as [[|c r]|];
    (eexists; split; [reflexivity|];
     cbn [historico atual entrada pistasRoot saida fst snd];
     repeat split; eexists; split; reflexivity).
Qed.

(** What [entrar] does when the history cannot grow. *)
Lemma entrar_nao_cabe (realloc_ok : nat -> bool) (m : Mansao) (ht : HashTable)
  (s : Exploracao) :
  cabe realloc_ok s = false ->
  entrar realloc_ok m ht s
  = Encerra {| historico := historico s; cap := cap s; atual := atual s;
               pistasRoot := pistasRoot s; entrada := entrada s;
               saida := saida s ++ [ErroHistorico] |}.
Proof.
  intros Hc. unfold cabe in Hc. apply negb_false_iff in Hc.
  unfold entrar. now rewrite Hc.
Qed.

(** [decidir] by the choice read. *)
Lemma decidir_escolha (m : Mansao) (s : Exploracao) (sala : Sala) :
  m !! atual s = Some sala ->
  let buf := fst (ler_linha 128 (entrada s)) in
  let resto := snd (ler_linha 128 (entrada s)) in
  let escolha := escolha_de buf in
  decidir m s
  = if Ascii.eqb escolha "s" then Encerra (avancar s resto [SaindoDaExploracao])
    else if Ascii.eqb escolha "e" then
      match esq sala with
      | Some a =>
          Continua {| historico := historico s; cap := cap s; atual := a;
                      pistasRoot := pistasRoot s; entrada := resto;
                      saida := saida s ++ [] |}
      | None => Continua (avancar s resto [EsquerdaNaoDisponivel])
      end
    else if Ascii.eqb escolha "d" then
      match dir sala with
      | Some a =>
          Continua {| historico := historico s; cap := cap s; atual := a;
                      pistasRoot := pistasRoot s; entrada := resto;
                      saida := saida s ++ [] |}
      | None => Continua (avancar s resto [DireitaNaoDisponivel])
      end
    else Continua (avancar s resto [OpcaoInvalida]).
Proof.
  intros Hm. unfold decidir. rewrite Hm.
  destruct (ler_linha 128 (entrada s)) as [buf resto]. reflexivity.
Qed.

Lemma inserirPista_da_sala (t : PistaNode) (p : cstr) :
  match p with
  | Some (String c r) => inserirPista t (Some (String c r))
  | _ => t
  end = inserirPista t p.
Proof.
  destruct p as [[|c r]|];
    [now rewrite inserirPista_vazia | reflexivity | now rewrite inserirPista_NULL].
Qed.

(** A choice that is turned down leads back to the top of the loop body,
    where the room the player is still in is entered again. *)
Lemma apos_recusa (realloc_ok : nat -> bool) (m : Mansao) (ht : HashTable)
  (s : Exploracao) (sala : Sala) (resto : string) (msgs : list Saida) :
  m !! atual s = Some sala ->
  decidir m s = Continua (avancar s resto msgs) ->
  (cabe realloc_ok s = true ->
   exists s',
     apos_comando realloc_ok m ht s = Continua s'
     /\ atual s' = atual s
     /\ historico s' = historico s ++ [nome sala]
     /\ pistasRoot s' = inserirPista (pistasRoot s) (pista sala)
     /\ entrada s' = resto
     /\ exists msgs',
          saida s' = saida s ++ msgs ++ VoceEstaNaSala (nome sala) :: msgs')
  /\ (cabe realloc_ok s = false ->
      exists s',
        apos_comando realloc_ok m ht s = Encerra s'
        /\ atual s' = atual s
        /\ historico s' = historico s
        /\ saida s' = saida s ++ msgs ++ [ErroHistorico]).
Proof.
  intros Hm Hd. unfold apos_comando. rewrite Hd. split; intros Hc.
  - destruct (entrar_cabe realloc_ok m ht (avancar s resto msgs) sala Hc Hm)
      as (s' & He & Hh & Ha & Hi & Hp & (ms & Hs & _)).
    exists s'. split; [exact He|]. split; [exact Ha|]. split; [exact Hh|].
    split; [rewrite Hp; apply inserirPista_da_sala|]. split; [exact Hi|].
    eexists. rewrite Hs. cbn [avancar saida]. rewrite <- !app_assoc.
    reflexivity.
  - rewrite (entrar_nao_cabe realloc_ok m ht (avancar s resto msgs) Hc).
    eexists. split; [reflexivity|]. cbn [avancar atual historico saida].
    now rewrite <- app_assoc.
Qed.

(** C2, as the code has it.  At a prompt in a room without a left door, the
    choice [e] is turned down with the message that the way is not
    available, and the cursor, the history and the ledger are as they were.
    The loop body then starts again in the same room: when the history can
    take one more entry, the name of the room is appended to it once more,
    the room is shown again and its clue is inserted again, which leaves a
    ledger that already holds it unchanged.  The same holds for the choice
    [d] in a room without a right door. *)
Theorem comando_sem_caminho (realloc_ok : nat -> bool) (m : Mansao)
  (ht : HashTable) (s : Exploracao) (sala : Sala)
  (Hm : m !! atual s = Some sala) :
  let buf := fst (ler_linha 128 (entrada s)) in
  let resto := snd (ler_linha 128 (entrada s)) in
  let reentra (msg : Saida) :=
    decidir m s = Continua (avancar s resto [msg])
    /\ (cabe realloc_ok s = true ->
        exists s',
          apos_comando realloc_ok m ht s = Continua s'
          /\ atual s' = atual s
          /\ historico s' = historico s ++ [nome sala]
          /\ pistasRoot s' = inserirPista (pistasRoot s) (pista sala)
          /\ (ledger (pistasRoot s) ->
              (forall p, pista sala = Some p -> p ∈ exibirPistas (pistasRoot s)) ->
              pistasRoot s' = pistasRoot s)
          /\ exists msgs',
               saida s' = saida s ++ [msg] ++ VoceEstaNaSala (nome sala) :: msgs') in
  (esq sala = None -> escolha_de buf = "e"%char -> reentra EsquerdaNaoDisponivel)
  /\ (dir sala = None -> escolha_de buf = "d"%char -> reentra DireitaNaoDisponivel).
Proof.
  intros buf resto reentra.
  assert (Hre : forall msg,
            decidir m s = Continua (avancar s resto [msg]) -> reentra msg).
  { intros msg Hd. split; [exact Hd|]. intros Hc.
    destruct (proj1 (apos_recusa realloc_ok m ht s sala resto [msg] Hm Hd) Hc)
      as (s' & Ha & Hat & Hh & Hp & _ & Hs).
    exists s'. repeat (split; [assumption|]). split; [|exact Hs].
    intros L Hin. rewrite Hp. destruct (pista sala) as [p|].
    - apply inserirPista_presente; [now apply ledger_bst | now apply Hin].
    - apply inserirPista_NULL. }
  pose proof (decidir_escolha m s sala Hm) as Hd. cbv zeta in Hd.
  fold buf resto in Hd.
  split; intros Hnone Hesc; apply Hre; rewrite Hd, Hesc, Hnone; reflexivity.
Qed.

Lemma comando_sem_caminho_witness :
  let s := {| historico := ["Hall de Entrada"; "Corredor"; "Quarto"]; cap := 6;
              atual := 5;
              pistasRoot := PNode "Pegadas de lama"
                              (PNode "Lençol manchado" PNULL PNULL) PNULL;
              entrada := linhas ["e"; "s"]; saida := [] |} in
  decidir (fst mapa_main) s
  = Continua (avancar s (linhas ["s"]) [EsquerdaNaoDisponivel])
  /\ exists s',
       apos_comando sempre (fst mapa_main) hash_main s = Continua s'
       /\ atual s' = 5
       /\ historico s' = ["Hall de Entrada"; "Corredor"; "Quarto"; "Quarto"]
       /\ pistasRoot s' = pistasRoot s.
Proof.
  intros s.
  destruct (proj1 (comando_sem_caminho sempre (fst mapa_main) hash_main s
              {| nome := "Quarto"; pista := Some "Lençol manchado";
                 esq := None; dir := None |} eq_refl) eq_refl eq_refl)
    as [Hd Hre].
  split; [exact Hd|].
  destruct (Hre eq_refl) as (s' & Ha & Hat & Hh & _ & Hl & _).
  exists s'. split; [exact Ha|]. split; [exact Hat|]. split; [exact Hh|].
  apply Hl.
  - exact (ledger_fold [Some "Pegadas de lama"; Some "Lençol manchado"] PNULL
             ledger_vazio).
  - intros p [= <-]. vm_compute. apply list_elem_of_here.
Defined.

(** C2, as stated, fails in the program's own map: at the prompt in the
    kitchen, which has no left door, the choice [e] leads to a next prompt
    where the history has one more entry, and the history printed at the end
    of the run [e], [e], [e], [s] names the kitchen twice. *)
Lemma comando_sem_caminho_contra :
  let m := fst mapa_main in
  let s := {| historico := ["Hall de Entrada"; "Sala de Estar"; "Cozinha"];
              cap := 6; atual := 3;
              pistasRoot := PNode "Pegadas de lama"
                              (PNode "Livro com página faltando"
                                 (PNode "Chave perdida" PNULL PNULL) PNULL)
                              PNULL;
              entrada := linhas ["e"; "s"]; saida := [] |} in
  (exists sala, m !! atual s = Some sala /\ esq sala = None)
  /\ escolha_de (fst (ler_linha 128 (entrada s))) = "e"%char
  /\ (exists s', apos_comando sempre m hash_main s = Continua s'
                 /\ atual s' = atual s
                 /\ historico s' = historico s ++ ["Cozinha"]
                 /\ historico s' <> historico s)
  /\ (exists s' j, main sempre 4 (linhas ["e"; "e"; "e"; "s"]) = Some (s', j)
                   /\ historico s'
                      = ["Hall de Entrada"; "Sala de Estar"; "Cozinha"; "Cozinha"]).
Proof.
  cbv zeta. split; [eexists; split; reflexivity|]. split; [reflexivity|].
  split.
  - eexists. split; [vm_compute; reflexivity|].
    split; [reflexivity|]. split; [reflexivity|]. discriminate.
  - eexists. eexists. split; [vm_compute; reflexivity | reflexivity].
Qed.

(** ** End of input *)

Lemma ler_linha_fim : ler_linha 128 "" = ("", "").
Proof. reflexivity. Qed.

(** At the end of the input the choice is none of [s], [e], [d]. *)
Lemma decidir_fim_de_entrada (m : Mansao) (s : Exploracao) (sala : Sala) :
  m !! atual s = Some sala -> entrada s = "" ->
  decidir m s = Continua (avancar s "" [OpcaoInvalida]).
Proof.
  intros Hm He. rewrite (decidir_escolha m s sala Hm). cbv zeta.
  rewrite He. reflexivity.
Qed.

(** At the end of the input the loop is left only when the history cannot
    grow. *)
Lemma laco_fim_de_entrada (realloc_ok : nat -> bool) (fuel : nat) (m : Mansao)
  (ht : HashTable) (s : Exploracao) (sala : Sala) :
  m !! atual s = Some sala -> entrada s = "" ->
  match laco realloc_ok fuel m ht s with
  | Terminou s' => exists out, saida s' = out ++ [ErroHistorico]
  | NaoTerminou => True
  | ComportamentoIndefinido => False
  end.
Proof.
  revert s. induction fuel as [|fuel IH]; intros s Hm He; [exact I|].
  cbn [laco]. destruct (cabe realloc_ok s) eqn:Hc.
  - destruct (entrar_cabe realloc_ok m ht s sala Hc Hm)
      as (s1 & -> & _ & Ha & Hi & _).
    rewrite <- Ha in Hm. rewrite He in Hi.
    rewrite (decidir_fim_de_entrada m s1 sala Hm Hi).
    apply IH; [exact Hm | reflexivity].
  - rewrite (entrar_nao_cabe realloc_ok m ht s Hc). now eexists.
Qed.

Lemma laco_fim_de_entrada_sempre (fuel : nat) (m : Mansao) (ht : HashTable)
  (s : Exploracao) (sala : Sala) :
  m !! atual s = Some sala -> entrada s = "" ->
  laco sempre fuel m ht s = NaoTerminou.
Proof.
  revert s. induction fuel as [|fuel IH]; intros s Hm He; [reflexivity|].
  cbn [laco].
  assert (Hc : cabe sempre s = true)
    by (unfold cabe, sempre; now rewrite andb_false_r).
  destruct (entrar_cabe sempre m ht s sala Hc Hm) as (s1 & -> & _ & Ha & Hi & _).
  rewrite <- Ha in Hm. rewrite He in Hi.
  rewrite (decidir_fim_de_entrada m s1 sala Hm Hi).
  apply IH; [exact Hm | reflexivity].
Qed.

(** C7, on the code.  With an empty input the program reads the end of the
    input at the first prompt, in the hall: the choice is turned down as an
    invalid option, the hall is entered again and named once more in the
    history, and the loop does not end, however many iterations it is given
    (no [realloc] failing).  The choice [s] at the same prompt ends it. *)
Theorem fim_de_entrada_nao_encerra (fuel : nat) :
  let m := fst mapa_main in
  let s := {| historico := ["Hall de Entrada"]; cap := 6; atual := 0;
              pistasRoot := PNode "Pegadas de lama" PNULL PNULL;
              entrada := ""; saida := [] |} in
  decidir m s = Continua (avancar s "" [OpcaoInvalida])
  /\ (exists s', apos_comando sempre m hash_main s = Continua s'
                 /\ historico s' = ["Hall de Entrada"; "Hall de Entrada"]
                 /\ entrada s' = "")
  /\ explorarSalas sempre fuel m (Some 0) hash_main PNULL "" = NaoTerminou
  /\ main sempre fuel "" = None
  /\ (exists s' j, main sempre 1 (linhas ["s"]) = Some (s', j)
                   /\ historico s' = ["Hall de Entrada"]).
Proof.
  cbv zeta. split; [reflexivity|].
  split; [eexists; split; [vm_compute; reflexivity | split; reflexivity]|].
  assert (H : explorarSalas sempre fuel (fst mapa_main) (Some 0) hash_main
                PNULL "" = NaoTerminou).
  { unfold explorarSalas.
    rewrite (laco_fim_de_entrada_sempre fuel (fst mapa_main) hash_main _
               {| nome := "Hall de Entrada"; pista := Some "Pegadas de lama";
                  esq := Some 1; dir := Some 2 |}); reflexivity. }
  split; [exact H|]. split.
  - unfold main. change mapa_main with (fst mapa_main, 0).
    cbv beta iota. now rewrite H.
  - eexists. eexists. split; [vm_compute; reflexivity | reflexivity].
Qed.

(** The first-level program leaves its loop at the end of the input. *)
Lemma novato_fim_de_entrada (fuel : nat) :
  exists s, Novato.main sempre (S fuel) "" = Novato.Terminou s
            /\ Novato.visitadas s = ["Hall de entrada"]
            /\ Novato.saida s
               = [Novato.VoceEstaNaSala "Hall de entrada";
                  Novato.Opcoes true true; Novato.EntradaInterrompida;
                  Novato.SalasVisitadas ["Hall de entrada"]].
Proof. eexists. split; [vm_compute; reflexivity | split; reflexivity]. Qed.

(** ** No clue *)

(** C9. A room created with a [NULL] or an empty clue carries no clue;
    entering a room whose clue is [NULL] or empty, in any store, reports that
    the room has no clue and leaves the ledger as it is; and inserting a
    [NULL] or an empty clue returns the ledger given, whatever it is. *)
Theorem pista_vazia_nao_e_pista (m : Mansao) (nome_ pista_ : cstr)
  (Hp : pista_ = None \/ pista_ = Some "") :
  let m' := fst (criarSala m nome_ pista_) in
  let a := snd (criarSala m nome_ pista_) in
  (exists sala, m' !! a = Some sala /\ pista sala = None)
  /\ (forall realloc_ok m2 ht s sala,
        m2 !! atual s = Some sala ->
        pista sala = None \/ pista sala = Some "" ->
        cabe realloc_ok s = true ->
        exists s',
          entrar realloc_ok m2 ht s = Continua s'
          /\ pistasRoot s' = pistasRoot s
          /\ saida s'
             = saida s ++ [VoceEstaNaSala (nome sala); NenhumaPistaNestaSala;
                           Opcoes (bool_decide (esq sala <> None))
                                  (bool_decide (dir sala <> None))])
  /\ (forall t, inserirPista t pista_ = t).
Proof.
  intros m' a. split; [|split].
  - unfold m', a, criarSala. cbn [fst snd]. eexists.
    split; [now apply list_lookup_middle|].
    destruct Hp as [-> | ->]; reflexivity.
  - intros realloc_ok m2 ht s sala Hm Hs Hc.
    destruct (entrar_cabe realloc_ok m2 ht s sala Hc Hm)
      as (s' & He & _ & _ & _ & Hpi & (msgs & Hsa & Hms)).
    exists s'. split; [exact He|]. rewrite Hpi, Hsa, Hms.
    destruct Hs as [-> | ->]; split; reflexivity.
  - intros t. destruct Hp as [-> | ->];
      [apply inserirPista_NULL | apply inserirPista_vazia].
Qed.

Lemma pista_vazia_nao_e_pista_witness :
  (Some "" = None \/ Some "" = Some "")
  /\ (exists sala, fst (criarSala [] (Some "Porão") (Some "")) !! 0 = Some sala
                   /\ pista sala = None)
  /\ inserirPista (PNode "Chave perdida" PNULL PNULL) (Some "")
     = PNode "Chave perdida" PNULL PNULL.
Proof.
  split; [right; reflexivity|].
  destruct (pista_vazia_nao_e_pista [] (Some "Porão") (Some "")
              (or_intror eq_refl)) as (Hsala & _ & Hins).
  split; [exact Hsala | exact (Hins _)].
Defined.

(** ** The judgement without clues *)

Lemma exibirPistas_nil (t : PistaNode) : exibirPistas t = [] <-> t = PNULL.
Proof.
  split; [|intros ->; reflexivity].
  destruct t as [|p e d]; [reflexivity|]. simpl. intros H.
  symmetry in H. now apply app_cons_not_nil in H.
Qed.

(** C8. With an empty ledger [verificarSuspeitoFinal] reports that no clue
    was collected and returns: no counting list has been built, no byte of
    the input has been read, and nothing else has been printed. *)
Theorem sem_pistas_sem_julgamento (t : PistaNode) (ht : HashTable)
  (input : string) (He : exibirPistas t = []) :
  verificarSuspeitoFinal t ht input
  = {| veredito := NoEvidenceCollected; contagem := None; restante := input;
       mensagens := [SemPistasParaAcusar] |}.
Proof. apply exibirPistas_nil in He. subst t. reflexivity. Qed.

Lemma sem_pistas_sem_julgamento_witness :
  exibirPistas PNULL = []
  /\ veredito (verificarSuspeitoFinal PNULL hash_main (linhas ["Jardineiro"]))
     = NoEvidenceCollected.
Proof.
  split; [reflexivity|].
  now rewrite (sem_pistas_sem_julgamento PNULL hash_main _ eq_refl).
Defined.

(** With a clue in the ledger the counting list is built, the accusation is
    read, and the outcome is another one. *)
Lemma com_pistas_ha_julgamento (t : PistaNode) (ht : HashTable) (input : string) :
  exibirPistas t <> [] ->
  let j := verificarSuspeitoFinal t ht input in
  veredito j <> NoEvidenceCollected
  /\ contagem j = Some (contar_pistas_por_suspeito t ht [])
  /\ restante j = snd (ler_linha 128 input).
Proof.
  intros Hne. destruct t as [|p e d]; [now contradiction Hne|].
  cbv zeta. unfold verificarSuspeitoFinal.
  destruct (ler_linha 128 input) as [buf resto]. destruct buf as [|c r].
  - repeat split. discriminate.
  - unfold julgar. destruct (buscar _ _) as [n|]; [destruct (2 <=? n)%Z|];
      repeat split; discriminate.
Qed.

(** ** The program on the run [d], [e], [s] *)

Lemma entrar_ext (f g : nat -> bool) (m : Mansao) (ht : HashTable)
  (s : Exploracao) :
  (forall n, f n = g n) -> entrar f m ht s = entrar g m ht s.
Proof. intros H. unfold entrar. now rewrite H. Qed.

Lemma laco_ext (f g : nat -> bool) (fuel : nat) (m : Mansao) (ht : HashTable)
  (s : Exploracao) :
  (forall n, f n = g n) -> laco f fuel m ht s = laco g fuel m ht s.
Proof.
  intros H. revert s. induction fuel as [|fuel IH]; intros s; [reflexivity|].
  cbn [laco]. rewrite (entrar_ext f g m ht s H).
  destruct (entrar g m ht s) as [s1| |]; try reflexivity.
  destruct (decidir m s1) as [s2| |]; try reflexivity. apply IH.
Qed.

Lemma main_ext (f g : nat -> bool) (fuel : nat) (input : string) :
  (forall n, f n = g n) ->
  main f fuel input = main g fuel input
  /\ main_spec f fuel input = main_spec g fuel input.
Proof.
  intros H. unfold main, main_spec, explorarSalas.
  destruct mapa_main as [m hall]. destruct mapa_spec as [m' hall'].
  now rewrite !(laco_ext f g _ _ _ _ H).
Qed.

Lemma com_seis_ext (realloc_ok : nat -> bool) :
  realloc_ok 6 = true -> forall n, realloc_ok n = com_seis realloc_ok n.
Proof.
  intros H n. unfold com_seis. destruct (Nat.eqb_spec n 6) as [->|]; auto.
Qed.

(** C1, as the code has it.  On the map and the index [main] builds, the
    input [d], [e], [s] ends the exploration at the third iteration (any
    larger bound on the iterations gives the same, the one [realloc] of six
    entries succeeding) with the history Hall de Entrada, Corredor, Quarto
    and a ledger that holds exactly "Lençol manchado" and "Pegadas de lama".
    The accusation of "Empregado" is then found insufficient, with one clue,
    and so is the accusation of "Jardineiro", to whom the clue of the hall
    points.  The same holds, name for name, on the map written with the
    names of the specification. *)
Theorem roteiro_direita_esquerda_sair (realloc_ok : nat -> bool) (fuel : nat)
  (Hr : realloc_ok 6 = true) (Hf : 3 <= fuel) :
  (forall acusado, acusado = "Empregado" \/ acusado = "Jardineiro" ->
     exists s j,
       main realloc_ok fuel (linhas ["d"; "e"; "s"; acusado]) = Some (s, j)
       /\ historico s = ["Hall de Entrada"; "Corredor"; "Quarto"]
       /\ exibirPistas (pistasRoot s) = ["Lençol manchado"; "Pegadas de lama"]
       /\ contagem j = Some [ {| sc_nome := "Jardineiro"; cont := 1 |};
                              {| sc_nome := "Empregado"; cont := 1 |} ]
       /\ veredito j = InsufficientEvidence)
  /\ (forall accused, accused = "Butler" \/ accused = "Gardener" ->
        exists s j,
          main_spec realloc_ok fuel (linhas ["d"; "e"; "s"; accused]) = Some (s, j)
          /\ historico s = ["Hall"; "Corridor"; "Bedroom"]
          /\ exibirPistas (pistasRoot s) = ["Muddy footprints"; "Stained sheet"]
          /\ contagem j = Some [ {| sc_nome := "Butler"; cont := 1 |};
                                 {| sc_nome := "Gardener"; cont := 1 |} ]
          /\ veredito j = InsufficientEvidence).
Proof.
  destruct fuel as [|[|[|fuel]]]; try lia. clear Hf.
  pose proof (com_seis_ext realloc_ok Hr) as Hx.
  split; intros x [-> | ->].
  1-2: rewrite (proj1 (main_ext realloc_ok (com_seis realloc_ok) _ _ Hx)).
  3-4: rewrite (proj2 (main_ext realloc_ok (com_seis realloc_ok) _ _ Hx)).
  all: eexists; eexists; split; [vm_compute; reflexivity|];
    repeat split; reflexivity.
Qed.

Lemma roteiro_direita_esquerda_sair_witness :
  sempre 6 = true /\ 3 <= 3
  /\ exists s j,
       main sempre 3 (linhas ["d"; "e"; "s"; "Empregado"]) = Some (s, j)
       /\ historico s = ["Hall de Entrada"; "Corredor"; "Quarto"]
       /\ veredito j = InsufficientEvidence.
Proof.
  split; [reflexivity|]. split; [lia|].
  destruct (proj1 (roteiro_direita_esquerda_sair sempre 3 eq_refl (le_n 3))
              "Empregado" (or_introl eq_refl))
    as (s & j & Hm & Hh & _ & _ & Hv).
  exists s, j. repeat split; assumption.
Defined.

(** C1, as stated, fails on its last part: after the run [d], [e], [s] the
    accusation of the gardener is not unsupported.  The clue of the hall,
    collected at the first step, points to the gardener, so the counting list
    holds the gardener with one clue and the accusation is found
    insufficient; this is so on the map of [main] and on the map with the
    names of the specification. *)
Lemma roteiro_direita_esquerda_sair_contra :
  (exists s j,
     main sempre 3 (linhas ["d"; "e"; "s"; "Jardineiro"]) = Some (s, j)
     /\ encontrarSuspeito hash_main (Some "Pegadas de lama") = Some "Jardineiro"
     /\ "Pegadas de lama" ∈ exibirPistas (pistasRoot s)
     /\ veredito j = InsufficientEvidence
     /\ veredito j <> Unsupported)
  /\ (exists s j,
        main_spec sempre 3 (linhas ["d"; "e"; "s"; "Gardener"]) = Some (s, j)
        /\ encontrarSuspeito hash_spec (Some "Muddy footprints") = Some "Gardener"
        /\ "Muddy footprints" ∈ exibirPistas (pistasRoot s)
        /\ veredito j = InsufficientEvidence
        /\ veredito j <> Unsupported).
Proof.
  split; eexists; eexists;
    (split; [vm_compute; reflexivity|]);
    (split; [vm_compute; reflexivity|]);
    (split; [vm_compute; repeat constructor|]);
    (split; [reflexivity | discriminate]).
Qed.

(** * Further properties of the code *)

(** ** Reading a line *)

Lemma fgets_bytes_spec (k : nat) (input : string) :
  let b := fst (fgets_bytes k input) in
  let r := snd (fgets_bytes k input) in
  String.append b r = input
  /\ String.length b <= k
  /\ (sem_byte newline b = true /\ (String.length b = k \/ r = "")
      \/ exists b', b = String.append b' (String newline "")
                    /\ sem_byte newline b' = true)
  /\ (1 <= k -> input <> "" -> b <> "").
Proof.
  revert input. induction k as [|k IH]; intros input; cbn [fgets_bytes].
  - destruct input; cbn [fst snd String.append String.length sem_byte];
      (split; [reflexivity|]; split; [lia|]; split; [|lia]);
      left; split; auto.
  - destruct input as [|c input].
    { cbn [fst snd String.append String.length sem_byte].
      split; [reflexivity|]. split; [lia|]. split; [|congruence].
      left. split; auto. }
    destruct (Ascii.eqb_spec c newline) as [->|Hne].
    + cbn [fst snd String.length].
      split; [reflexivity|]. split; [lia|]. split; [|discriminate].
      right. exists "". split; reflexivity.
    + specialize (IH input). cbv zeta in IH.
      destruct (fgets_bytes k input) as [b r]. cbn [fst snd] in *.
      destruct IH as (Ha & Hl & Hn & _). subst input. cbn [String.length].
      split; [reflexivity|]. split; [lia|]. split; [|discriminate].
      destruct Hn as [[Hn Hf]|(b' & -> & Hn)].
      * left. cbn [sem_byte]. rewrite Hn.
        destruct (Ascii.eqb_spec c newline); [contradiction|].
        split; [reflexivity|]. destruct Hf as [Hf|Hf]; [left; lia | now right].
      * right. exists (String c b'). split; [reflexivity|].
        cbn [sem_byte]. rewrite Hn.
        destruct (Ascii.eqb_spec c newline); [contradiction|reflexivity].
Qed.

Lemma tira_newline_sem (b : string) :
  sem_byte newline b = true -> tira_newline b = b.
Proof.
  induction b as [|c b IH]; [reflexivity|]. cbn [sem_byte tira_newline].
  intros [Hc Hb]%andb_true_iff. apply negb_true_iff in Hc.
  destruct b as [|c' b]; [now rewrite Hc|]. now rewrite (IH Hb).
Qed.

Lemma tira_newline_fim (b : string) :
  sem_byte newline b = true ->
  tira_newline (String.append b (String newline "")) = b.
Proof.
  induction b as [|c b IH]; [reflexivity|]. cbn [sem_byte].
  intros [Hc Hb]%andb_true_iff. specialize (IH Hb).
  change (String.append (String c b) (String newline ""))
    with (String c (String.append b (String newline ""))).
  destruct (String.append b (String newline "")) as [|a s] eqn:E.
  - destruct b; discriminate E.
  - change (tira_newline (String c (String a s)))
      with (String c (tira_newline (String a s))).
    now rewrite IH.
Qed.

Lemma length_append (a b : string) :
  String.length (String.append a b) = String.length a + String.length b.
Proof.
  induction a as [|c a IH]; [reflexivity|].
  change (String.append (String c a) b) with (String c (String.append a b)).
  cbn [String.length]. now rewrite IH.
Qed.

Lemma append_assoc (a b c : string) :
  String.append (String.append a b) c = String.append a (String.append b c).
Proof.
  induction a as [|x a IH]; [reflexivity|].
  change (String.append (String.append (String x a) b) c)
    with (String x (String.append (String.append a b) c)).
  now rewrite IH.
Qed.

Lemma length_tira_newline (b : string) :
  String.length (tira_newline b) <= String.length b.
Proof.
  induction b as [|c b IH]; [cbn; lia|]. cbn [tira_newline].
  destruct b as [|c' b]; [destruct (Ascii.eqb c newline); cbn; lia|].
  cbn [String.length] in *. lia.
Qed.

(** A C string is a prefix of its buffer and holds no NUL. *)
Lemma length_c_str (b : string) : String.length (c_str b) <= String.length b.
Proof.
  induction b as [|c b IH]; [cbn; lia|]. cbn [c_str].
  destruct (Ascii.eqb c NUL); cbn [String.length]; lia.
Qed.

Lemma c_str_sem_NUL (b : string) : sem_byte NUL (c_str b) = true.
Proof.
  induction b as [|c b IH]; [reflexivity|]. cbn [c_str].
  destruct (Ascii.eqb c NUL) eqn:E; [reflexivity|].
  cbn [sem_byte]. now rewrite E, IH.
Qed.

Lemma c_str_sem (x : ascii) (b : string) :
  sem_byte x b = true -> sem_byte x (c_str b) = true.
Proof.
  induction b as [|c b IH]; [reflexivity|]. cbn [c_str sem_byte].
  intros [Hc Hb]%andb_true_iff.
  destruct (Ascii.eqb c NUL); [reflexivity|].
  cbn [sem_byte]. now rewrite Hc, IH.
Qed.

Lemma c_str_inteira (b : string) : sem_byte NUL b = true -> c_str b = b.
Proof.
  induction b as [|c b IH]; [reflexivity|]. cbn [c_str sem_byte].
  intros [Hc Hb]%andb_true_iff. apply negb_true_iff in Hc.
  now rewrite Hc, IH.
Qed.

Lemma c_str_idem (b : string) : c_str (c_str b) = c_str b.
Proof. apply c_str_inteira, c_str_sem_NUL. Qed.

Lemma c_str_prefixo (b : string) :
  exists r, b = String.append (c_str b) r.
Proof.
  induction b as [|c b [r IH]]; [now exists ""|]. cbn [c_str].
  destruct (Ascii.eqb c NUL).
  - now exists (String c b).
  - exists r. change (String.append (String c (c_str b)) r)
      with (String c (String.append (c_str b) r)). now rewrite <- IH.
Qed.

(** The newline that ended the line is dropped; it is looked for at the end
    of the C string, so that a NUL read before it keeps it out of sight. *)
Lemma tira_c_str_fim (l : string) :
  sem_byte newline l = true ->
  tira_newline (c_str (String.append l (String newline ""))) = c_str l.
Proof.
  induction l as [|c l IH]; [reflexivity|]. cbn [sem_byte].
  intros [Hc Hl]%andb_true_iff. apply negb_true_iff in Hc. specialize (IH Hl).
  change (String.append (String c l) (String newline ""))
    with (String c (String.append l (String newline ""))).
  cbn [c_str]. destruct (Ascii.eqb c NUL); [reflexivity|].
  destruct (c_str (String.append l (String newline ""))) as [|a s] eqn:E.
  - cbn [tira_newline]. rewrite Hc. cbn [tira_newline] in IH. now rewrite <- IH.
  - change (tira_newline (String c (String a s)))
      with (String c (tira_newline (String a s))).
    now rewrite IH.
Qed.

Lemma escolha_de_c_str (b : string) : escolha_de (c_str b) = escolha_de b.
Proof.
  induction b as [|c b IH]; [reflexivity|]. cbn [c_str].
  destruct (Ascii.eqb_spec c NUL) as [->|Hne]; [reflexivity|].
  cbn [escolha_de]. now rewrite IH.
Qed.

(** The conversion to [int] changes nothing below [2^31] and never gives
    more than the size. *)
Lemma int_de_size_t_faixa (tam : nat) :
  (- 2147483648 <= int_de_size_t tam < 2147483648)%Z
  /\ (int_de_size_t tam <= Z.of_nat tam)%Z
  /\ ((Z.of_nat tam < 2147483648)%Z -> int_de_size_t tam = Z.of_nat tam).
Proof.
  unfold int_de_size_t.
  pose proof (Z.mod_pos_bound (Z.of_nat tam) 4294967296 eq_refl) as Hb.
  pose proof (Z.mod_le (Z.of_nat tam) 4294967296 (Nat2Z.is_nonneg tam) eq_refl)
    as Hle.
  cbv zeta. destruct (Z.ltb_spec (Z.of_nat tam mod 4294967296) 2147483648).
  - split; [lia|]. split; [lia|]. intros Hs. apply Z.mod_small. lia.
  - split; [lia|]. split; [lia|]. intros Hs.
    rewrite Z.mod_small in H by lia. lia.
Qed.

(** [ler_linha] by the size of the buffer as [fgets] receives it. *)
Lemma ler_linha_int (tam : nat) (input : string) :
  ler_linha tam input
  = if (int_de_size_t tam <=? 1)%Z then (EmptyString, input)
    else match input with
         | EmptyString => (EmptyString, EmptyString)
         | _ => let (b, r) := fgets_bytes (Z.to_nat (int_de_size_t tam - 1)) input in
                (tira_newline (c_str b), r)
         end.
Proof.
  unfold ler_linha, fgets.
  destruct (Z.leb_spec (int_de_size_t tam) 0) as [H0|H0].
  - destruct (Z.leb_spec (int_de_size_t tam) 1); [reflexivity | lia].
  - destruct (Z.eqb_spec (int_de_size_t tam) 1) as [H1|H1].
    + destruct (Z.leb_spec (int_de_size_t tam) 1); [reflexivity | lia].
    + destruct (Z.leb_spec (int_de_size_t tam) 1); [lia|].
      destruct input; [reflexivity|].
      now destruct (fgets_bytes _ _).
Qed.


(** The line read fits in the buffer with its terminating NUL. *)
Lemma ler_linha_curta (tam : nat) (input : string) :
  String.length (fst (ler_linha tam input)) <= tam - 1.
Proof.
  rewrite ler_linha_int.
  destruct (Z.leb_spec (int_de_size_t tam) 1) as [H1|H1]; [cbn; lia|].
  destruct input as [|c input]; [cbn; lia|].
  pose proof (fgets_bytes_spec (Z.to_nat (int_de_size_t tam - 1)) (String c input))
    as H.
  cbv zeta in H.
  destruct (fgets_bytes (Z.to_nat (int_de_size_t tam - 1)) (String c input))
    as [b r].
  cbn [fst snd] in *. destruct H as (_ & Hl & _).
  pose proof (length_tira_newline (c_str b)). pose proof (length_c_str b).
  pose proof (int_de_size_t_faixa tam) as (_ & Hle & _). lia.
Qed.




(** X1. [ler_linha] passes the size of the buffer to [fgets] as an [int],
    [n].  When [n] is at most 1 (a size of 0 or 1, or one whose conversion
    is not positive, such as [2^31]) and at the end of the input, the line
    is empty and nothing is consumed.  When [n] is at least 2, the bytes
    consumed are a stretch [l] of at most [n - 1] bytes without a newline,
    which ends where the buffer is full or the input ends, or a stretch [l]
    of at most [n - 2] such bytes and the newline after it; the line is [l]
    as a C string, that is up to its first NUL byte, so all of [l] when it
    holds none; it has no newline and no NUL, and at least one byte of a
    non-empty input is consumed. *)
Theorem ler_linha_consome (tam : nat) (input : string) :
  let n := int_de_size_t tam in
  let buf := fst (ler_linha tam input) in
  let resto := snd (ler_linha tam input) in
  sem_byte newline buf = true
  /\ sem_byte NUL buf = true
  /\ ((n <= 1)%Z \/ input = "" -> buf = "" /\ resto = input)
  /\ ((2 <= n)%Z ->
      (exists l,
          sem_byte newline l = true
          /\ buf = c_str l
          /\ (sem_byte NUL l = true -> buf = l)
          /\ (input = String.append l resto
              /\ (Z.of_nat (String.length l) <= n - 1)%Z
              /\ (Z.of_nat (String.length l) = n - 1 \/ resto = "")%Z
              \/ input = String.append l (String newline resto)
                 /\ (Z.of_nat (String.length l) <= n - 2)%Z))
      /\ (Z.of_nat (String.length buf) <= n - 1)%Z
      /\ (input <> "" -> String.length resto < String.length input)).
Proof.
  cbv zeta. rewrite ler_linha_int.
  destruct (Z.leb_spec (int_de_size_t tam) 1) as [H1|H1].
  { cbn [fst snd]. split; [reflexivity|]. split; [reflexivity|].
    split; [auto|]. intros; lia. }
  destruct input as [|c input].
  { cbn [fst snd]. split; [reflexivity|]. split; [reflexivity|].
    split; [auto|]. intros _. split; [|split; [cbn; lia | congruence]].
    exists "". split; [reflexivity|]. split; [reflexivity|].
    split; [reflexivity|]. left. split; [reflexivity|].
    split; [cbn; lia | now right]. }
  pose proof (fgets_bytes_spec (Z.to_nat (int_de_size_t tam - 1)) (String c input))
    as H.
  cbv zeta in H.
  destruct (fgets_bytes (Z.to_nat (int_de_size_t tam - 1)) (String c input))
    as [b r].
  cbn [fst snd] in *. destruct H as (Ha & Hl & Hn & Hne).
  assert (Hb : b <> "") by (apply Hne; [lia | discriminate]).
  assert (Hlen : String.length r < String.length (String c input)).
  { rewrite <- Ha, length_append. destruct b; [congruence | cbn; lia]. }
  destruct Hn as [[Hn Hf]|(b' & -> & Hn)].
  - rewrite (tira_newline_sem (c_str b)) by now apply c_str_sem.
    split; [now apply c_str_sem|]. split; [apply c_str_sem_NUL|].
    split; [intros [?|?]; [lia | discriminate]|].
    intros _. split; [|split; [pose proof (length_c_str b); lia | auto]].
    exists b. split; [exact Hn|]. split; [reflexivity|].
    split; [apply c_str_inteira|]. left. split; [now rewrite Ha|].
    split; [lia|]. destruct Hf as [Hf|Hf]; [left; lia | now right].
  - rewrite (tira_c_str_fim b' Hn). rewrite length_append in Hl. cbn in Hl.
    split; [now apply c_str_sem|]. split; [apply c_str_sem_NUL|].
    split; [intros [?|?]; [lia | discriminate]|].
    intros _. split; [|split; [pose proof (length_c_str b'); lia | auto]].
    exists b'. split; [exact Hn|]. split; [reflexivity|].
    split; [apply c_str_inteira|]. right.
    split; [now rewrite <- Ha, append_assoc | lia].
Qed.

Lemma ler_linha_consome_witness :
  ler_linha 128 (linhas ["e"; "s"]) = ("e", linhas ["s"])
  /\ String.length (snd (ler_linha 128 (linhas ["e"; "s"])))
     < String.length (linhas ["e"; "s"])
  /\ ler_linha (Z.to_nat 2147483648) "e" = ("", "e").
Proof.
  split; [reflexivity|]. split.
  - refine (proj2 (proj2 (proj2 (proj2 (proj2
              (ler_linha_consome 128 (linhas ["e"; "s"])))) _)) _);
      [vm_compute; discriminate | discriminate].
  - assert (Hn : (int_de_size_t (Z.to_nat 2147483648) <= 1)%Z).
    { unfold int_de_size_t. rewrite Z2Nat.id by lia.
      change (2147483648 mod 4294967296)%Z with 2147483648%Z.
      change (2147483648 <? 2147483648)%Z with false. lia. }
    destruct (proj1 (proj2 (proj2
                (ler_linha_consome (Z.to_nat 2147483648) "e"))) (or_introl Hn))
      as [H1 H2].
    destruct (ler_linha (Z.to_nat 2147483648) "e") as [b r].
    cbn [fst snd] in H1, H2. now subst.
Defined.

Lemma fgets_bytes_linha (k : nat) (l resto : string) :
  sem_byte newline l = true -> String.length l < k ->
  fgets_bytes k (String.append l (String newline resto))
  = (String.append l (String newline ""), resto).
Proof.
  revert k. induction l as [|c l IH]; intros [|k] Hn Hl; cbn in Hl; try lia.
  - reflexivity.
  - cbn [sem_byte] in Hn. apply andb_true_iff in Hn as [Hc Hn].
    apply negb_true_iff in Hc.
    change (String.append (String c l) (String newline resto))
      with (String c (String.append l (String newline resto))).
    cbn [fgets_bytes]. rewrite Hc, (IH k Hn) by lia. reflexivity.
Qed.

(** A line that fits in the buffer is read whole, as a C string. *)
Lemma ler_linha_linhas_tam (tam : nat) (l : string) (ls : list string) :
  sem_byte newline l = true -> String.length l + 2 <= tam ->
  (Z.of_nat tam < 2147483648)%Z ->
  ler_linha tam (linhas (l :: ls)) = (c_str l, linhas ls).
Proof.
  intros Hn Hl Ht. cbn [linhas]. rewrite ler_linha_int.
  pose proof (int_de_size_t_faixa tam) as (_ & _ & Hi). rewrite (Hi Ht).
  destruct (Z.leb_spec (Z.of_nat tam) 1); [lia|].
  destruct (String.append l (String newline (linhas ls))) eqn:E;
    [destruct l; discriminate E|]. rewrite <- E.
  rewrite (fgets_bytes_linha _ l (linhas ls) Hn) by lia.
  now rewrite (tira_c_str_fim l Hn).
Qed.

Lemma ler_linha_linhas (l : string) (ls : list string) :
  linha_ok l = true -> ler_linha 128 (linhas (l :: ls)) = (c_str l, linhas ls).
Proof.
  unfold linha_ok. intros [Hn Hl]%andb_true_iff. apply Nat.leb_le in Hl.
  apply ler_linha_linhas_tam; [exact Hn | lia | lia].
Qed.

Lemma escolha_de_espacos (ws : string) (c : ascii) (r : string) :
  todos_espacos ws = true -> isspace c = false ->
  escolha_de (String.append ws (String c r)) = tolower c.
Proof.
  intros Hw Hc. induction ws as [|x ws IH].
  - change (String.append "" (String c r)) with (String c r).
    cbn [escolha_de]. now rewrite Hc.
  - cbn [todos_espacos] in Hw. apply andb_true_iff in Hw as [Hx Hw].
    change (String.append (String x ws) (String c r))
      with (String x (String.append ws (String c r))).
    cbn [escolha_de]. rewrite Hx. auto.
Qed.

(** X2. For a line that fits in the buffer (at most 126 bytes before its
    newline, [linha_ok]), the choice is the first byte of the line that is
    not white space, whatever follows it, and its letter case does not
    count: such a line made of white space followed by [s] or [S] ends the
    exploration, with the message of leaving, the cursor, the history and
    the ledger as they were and the line consumed with its newline. *)
Theorem decidir_sair (m : Mansao) (s : Exploracao) (sala : Sala)
  (ws r : string) (c : ascii) (ls : list string)
  (Hm : m !! atual s = Some sala)
  (Hi : entrada s = linhas (String.append ws (String c r) :: ls))
  (Hl : linha_ok (String.append ws (String c r)) = true)
  (Hw : todos_espacos ws = true)
  (Hc : c = "s"%char \/ c = "S"%char) :
  escolha_de (String.append ws (String c r)) = "s"%char
  /\ decidir m s = Encerra (avancar s (linhas ls) [SaindoDaExploracao]).
Proof.
  assert (He : escolha_de (String.append ws (String c r)) = "s"%char)
    by (rewrite escolha_de_espacos; [|exact Hw|]; destruct Hc as [-> | ->];
        reflexivity).
  split; [exact He|].
  rewrite (decidir_escolha m s sala Hm). cbv zeta.
  rewrite Hi, (ler_linha_linhas _ ls Hl). cbn [fst snd].
  now rewrite escolha_de_c_str, He.
Qed.

Lemma decidir_sair_witness :
  let s := {| historico := ["Hall de Entrada"]; cap := 6; atual := 0;
              pistasRoot := PNode "Pegadas de lama" PNULL PNULL;
              entrada := linhas ["  Sim, sair"; "d"]; saida := [] |} in
  decidir (fst mapa_main) s
  = Encerra (avancar s (linhas ["d"]) [SaindoDaExploracao]).
Proof.
  intros s.
  refine (proj2 (decidir_sair (fst mapa_main) s
            {| nome := "Hall de Entrada"; pista := Some "Pegadas de lama";
               esq := Some 1; dir := Some 2 |}
            "  " "im, sair" "S" ["d"] _ _ _ _ _));
    try reflexivity.
  right. reflexivity.
Defined.

(** ** The steps of the exploration loop *)

Lemma entrar_Continua (f : nat -> bool) (m : Mansao) (ht : HashTable)
  (s s' : Exploracao) :
  entrar f m ht s = Continua s' ->
  exists sala,
    m !! atual s = Some sala
    /\ cabe f s = true
    /\ historico s' = historico s ++ [nome sala]
    /\ cap s' = (if cap s <? length (historico s) + 1
                 then if cap s =? 0 then 6 else cap s * 2 else cap s)
    /\ atual s' = atual s
    /\ entrada s' = entrada s
    /\ pistasRoot s' = inserirPista (pistasRoot s) (pista sala)
    /\ exists msgs, saida s' = saida s ++ msgs.
Proof.
  unfold entrar, cabe.
  destruct (_ && _); [discriminate|].
  destruct (m !! atual s) as [sala|]; [|discriminate].
  intros [= <-]. exists sala. cbn [historico cap atual entrada pistasRoot saida].
  repeat split.
  - destruct (pista sala) as [[|c r]|]; cbn [fst];
      [now rewrite inserirPista_vazia | reflexivity | now rewrite inserirPista_NULL].
  - eexists. reflexivity.
Qed.

Lemma entrar_Encerra (f : nat -> bool) (m : Mansao) (ht : HashTable)
  (s s' : Exploracao) :
  entrar f m ht s = Encerra s' ->
  cabe f s = false /\ s' = avancar s (entrada s) [ErroHistorico].
Proof.
  unfold entrar, cabe. destruct (_ && _).
  - intros [= <-]. split; reflexivity.
  - destruct (m !! atual s); discriminate.
Qed.

Lemma entrar_Indefinido (f : nat -> bool) (m : Mansao) (ht : HashTable)
  (s : Exploracao) :
  entrar f m ht s = Indefinido -> m !! atual s = None.
Proof.
  unfold entrar. destruct (_ && _); [discriminate|].
  destruct (m !! atual s); [discriminate|reflexivity].
Qed.

Lemma decidir_Continua (m : Mansao) (s s' : Exploracao) :
  decidir m s = Continua s' ->
  exists sala,
    m !! atual s = Some sala
    /\ historico s' = historico s
    /\ cap s' = cap s
    /\ pistasRoot s' = pistasRoot s
    /\ entrada s' = snd (ler_linha 128 (entrada s))
    /\ (atual s' = atual s \/ esq sala = Some (atual s')
        \/ dir sala = Some (atual s'))
    /\ exists msgs, saida s' = saida s ++ msgs.
Proof.
  destruct (m !! atual s) as [sala|] eqn:Hm;
    [|unfold decidir; rewrite Hm; discriminate].
  rewrite (decidir_escolha m s sala Hm). cbv zeta. intros H. exists sala.
  split; [reflexivity|].
  destruct (Ascii.eqb _ "s"); [discriminate|].
  destruct (Ascii.eqb _ "e"); [destruct (esq sala) as [a|] eqn:E|
    destruct (Ascii.eqb _ "d"); [destruct (dir sala) as [a|] eqn:E|]];
    injection H as <-; cbn [avancar historico cap atual pistasRoot entrada saida];
    repeat split; eauto.
Qed.

Lemma decidir_Encerra (m : Mansao) (s s' : Exploracao) :
  decidir m s = Encerra s' ->
  s' = avancar s (snd (ler_linha 128 (entrada s))) [SaindoDaExploracao].
Proof.
  destruct (m !! atual s) as [sala|] eqn:Hm;
    [|unfold decidir; rewrite Hm; discriminate].
  rewrite (decidir_escolha m s sala Hm). cbv zeta.
  destruct (Ascii.eqb _ "s"); [now intros [= <-]|].
  destruct (Ascii.eqb _ "e"); [destruct (esq sala); discriminate|].
  destruct (Ascii.eqb _ "d"); [destruct (dir sala); discriminate|discriminate].
Qed.

Lemma decidir_Indefinido (m : Mansao) (s : Exploracao) :
  decidir m s = Indefinido -> m !! atual s = None.
Proof.
  destruct (m !! atual s) as [sala|] eqn:Hm; [|reflexivity].
  rewrite (decidir_escolha m s sala Hm). cbv zeta.
  destruct (Ascii.eqb _ "s"); [discriminate|].
  destruct (Ascii.eqb _ "e"); [destruct (esq sala); discriminate|].
  destruct (Ascii.eqb _ "d"); [destruct (dir sala); discriminate|discriminate].
Qed.

(** A property that every step of the loop body keeps holds when the loop
    ends. *)
Lemma laco_invariante (P : Exploracao -> Prop) (f : nat -> bool) (m : Mansao)
  (ht : HashTable) :
  (forall s s', P s -> entrar f m ht s = Continua s' -> P s') ->
  (forall s s', P s -> entrar f m ht s = Encerra s' -> P s') ->
  (forall s s', P s -> decidir m s = Continua s' -> P s') ->
  (forall s s', P s -> decidir m s = Encerra s' -> P s') ->
  forall fuel s s', P s -> laco f fuel m ht s = Terminou s' -> P s'.
Proof.
  intros H1 H2 H3 H4. induction fuel as [|fuel IH]; intros s s' HP;
    cbn [laco]; [discriminate|].
  destruct (entrar f m ht s) as [s1|s1|] eqn:E1; [|intros [= <-]; eauto|discriminate].
  destruct (decidir m s1) as [s2|s2|] eqn:E2; [|intros [= <-]; eauto|discriminate].
  apply IH. eauto.
Qed.

(** X3. At a prompt in a room with a left door, the choice [e] moves the
    cursor through it: when the history can take one more entry, the next
    prompt is in the room behind the door, whose name is the new last entry
    of the history and whose clue has been inserted in the ledger; nothing is
    printed between the choice and the presentation of the new room.  The
    same holds for [d] and the right door. *)
Theorem comando_com_caminho (f : nat -> bool) (m : Mansao) (ht : HashTable)
  (s : Exploracao) (sala filho : Sala) (a : nat)
  (Hm : m !! atual s = Some sala) (Ha : m !! a = Some filho)
  (Hc : cabe f s = true) :
  let buf := fst (ler_linha 128 (entrada s)) in
  let resto := snd (ler_linha 128 (entrada s)) in
  let chega :=
    exists s',
      apos_comando f m ht s = Continua s'
      /\ atual s' = a
      /\ historico s' = historico s ++ [nome filho]
      /\ pistasRoot s' = inserirPista (pistasRoot s) (pista filho)
      /\ entrada s' = resto
      /\ exists msgs, saida s' = saida s ++ VoceEstaNaSala (nome filho) :: msgs in
  (esq sala = Some a -> escolha_de buf = "e"%char -> chega)
  /\ (dir sala = Some a -> escolha_de buf = "d"%char -> chega).
Proof.
  intros buf resto chega.
  assert (Hgo : decidir m s
                = Continua {| historico := historico s; cap := cap s; atual := a;
                              pistasRoot := pistasRoot s; entrada := resto;
                              saida := saida s ++ [] |} -> chega).
  { intros Hd. unfold chega, apos_comando. rewrite Hd.
    set (s1 := {| historico := historico s; cap := cap s; atual := a;
                  pistasRoot := pistasRoot s; entrada := resto;
                  saida := saida s ++ [] |}).
    destruct (entrar_cabe f m ht s1 filho Hc Ha)
      as (s' & He & Hh & Hat & Hi & Hp & (ms & Hs & _)).
    exists s'. split; [exact He|]. split; [exact Hat|]. split; [exact Hh|].
    split; [rewrite Hp; apply inserirPista_da_sala|]. split; [exact Hi|].
    eexists. rewrite Hs. unfold s1. cbn [saida]. rewrite app_nil_r.
    reflexivity. }
  pose proof (decidir_escolha m s sala Hm) as Hd. cbv zeta in Hd.
  fold buf resto in Hd.
  split; intros Hdoor Hesc; apply Hgo; rewrite Hd, Hesc, Hdoor; reflexivity.
Qed.

Lemma comando_com_caminho_witness :
  let s := {| historico := ["Hall de Entrada"]; cap := 6; atual := 0;
              pistasRoot := PNode "Pegadas de lama" PNULL PNULL;
              entrada := linhas ["d"; "s"]; saida := [] |} in
  exists s',
    apos_comando sempre (fst mapa_main) hash_main s = Continua s'
    /\ atual s' = 2
    /\ historico s' = ["Hall de Entrada"; "Corredor"].
Proof.
  intros s.
  destruct (proj2 (comando_com_caminho sempre (fst mapa_main) hash_main s
              {| nome := "Hall de Entrada"; pista := Some "Pegadas de lama";
                 esq := Some 1; dir := Some 2 |}
              {| nome := "Corredor"; pista := None; esq := Some 5; dir := Some 6 |}
              2 eq_refl eq_refl eq_refl) eq_refl eq_refl)
    as (s' & Hs & Hat & Hh & _).
  exists s'. repeat split; assumption.
Defined.

(** X4. The history never outgrows its buffer.  When the entries so far fit
    in the capacity, the slot the loop body writes is inside the buffer it
    has just checked or grown, and the entries still fit afterwards; so they
    fit when the loop ends, and [explorarSalas], which starts with no entry
    and no buffer, ends with a history that fits its capacity. *)
Theorem historico_cabe (f : nat -> bool) (m : Mansao) (ht : HashTable) :
  (forall s s', hist_ok s -> entrar f m ht s = Continua s' ->
     length (historico s) < cap s' /\ hist_ok s')
  /\ (forall fuel s s', hist_ok s -> laco f fuel m ht s = Terminou s' ->
        hist_ok s')
  /\ (forall fuel inicio pistas input s',
        explorarSalas f fuel m inicio ht pistas input = Terminou s' ->
        hist_ok s').
Proof.
  assert (H1 : forall s s', hist_ok s -> entrar f m ht s = Continua s' ->
                 length (historico s) < cap s' /\ hist_ok s').
  { intros s s' Hk He. unfold hist_ok in *.
    apply entrar_Continua in He as (sala & _ & _ & Hh & Hc & _).
    rewrite Hh, Hc, length_app. cbn [length].
    destruct (Nat.ltb_spec (cap s) (length (historico s) + 1));
      [destruct (Nat.eqb_spec (cap s) 0)|]; lia. }
  assert (H2 : forall fuel s s', hist_ok s -> laco f fuel m ht s = Terminou s' ->
                 hist_ok s').
  { apply (laco_invariante hist_ok).
    - intros s s' Hk He. now apply (H1 s s').
    - intros s s' Hk He. apply entrar_Encerra in He as [_ ->]. exact Hk.
    - intros s s' Hk He. unfold hist_ok in *.
      apply decidir_Continua in He as (sala & _ & -> & -> & _). exact Hk.
    - intros s s' Hk He. apply decidir_Encerra in He as ->. exact Hk. }
  split; [exact H1|]. split; [exact H2|].
  intros fuel [a|] pistas input s'; unfold explorarSalas.
  - destruct (laco _ _ _ _ _) as [s1| |] eqn:E; try discriminate.
    intros [= <-]. apply H2 in E; [exact E|]. unfold hist_ok. cbn. lia.
  - intros [= <-]. unfold hist_ok. cbn. lia.
Qed.

Lemma mapa_main_fechada : fechada (fst mapa_main).
Proof.
  intros a sala H.
  do 7 (destruct a as [|a]; [injection H as <-; split; intros b [= <-];
                              vm_compute; lia|]).
  discriminate H.
Qed.

(** X5. In a store where every link leads to a room of the store, the
    exploration started in a room of the store never follows a dangling
    pointer, whatever the input, and ends, when it ends, in a room of the
    store. *)
Theorem exploracao_sem_ponteiro_solto (f : nat -> bool) (fuel : nat)
  (m : Mansao) (ht : HashTable) (s : Exploracao)
  (Hf : fechada m) (Ha : atual s < length m) :
  laco f fuel m ht s <> ComportamentoIndefinido
  /\ forall s', laco f fuel m ht s = Terminou s' -> atual s' < length m.
Proof.
  revert s Ha. induction fuel as [|fuel IH]; intros s Ha; cbn [laco];
    [split; discriminate|].
  destruct (entrar f m ht s) as [s1|s1|] eqn:E1.
  - apply entrar_Continua in E1 as (sala & Hm & _ & _ & _ & Hat & _).
    destruct (decidir m s1) as [s2|s2|] eqn:E2.
    + apply decidir_Continua in E2 as (sala1 & Hm1 & _ & _ & _ & _ & Hmv & _).
      apply IH. rewrite Hat in Hm1. destruct (Hf _ _ Hm1) as [He Hd].
      destruct Hmv as [->|[H|H]]; [lia | now apply He | now apply Hd].
    + apply decidir_Encerra in E2 as ->. split; [discriminate|].
      intros s' [= <-]. cbn. lia.
    + apply decidir_Indefinido in E2. rewrite Hat, Hm in E2. discriminate.
  - apply entrar_Encerra in E1 as [_ ->]. split; [discriminate|].
    intros s' [= <-]. exact Ha.
  - apply entrar_Indefinido in E1.
    destruct (lookup_lt_is_Some_2 m (atual s) Ha) as [x Hx].
    pose proof (eq_trans (eq_sym E1) Hx) as Habs. discriminate Habs.
Qed.

Lemma exploracao_sem_ponteiro_solto_witness :
  laco sempre 10 (fst mapa_main) hash_main
    {| historico := []; cap := 0; atual := 0; pistasRoot := PNULL;
       entrada := linhas ["e"; "x"; "d"; "d"]; saida := [] |}
  <> ComportamentoIndefinido.
Proof.
  refine (proj1 (exploracao_sem_ponteiro_solto sempre 10 (fst mapa_main)
                   hash_main _ mapa_main_fechada _)).
  vm_compute. lia.
Defined.

(** X6. When the input is made of lines that fit in the buffer and one of
    them has [s] for its choice, the exploration of a store whose links lead
    to rooms of the store ends within as many iterations as there are lines:
    either by that choice, with the message of leaving, or before it because
    the history could not grow. *)
Theorem exploracao_termina (f : nat -> bool) (fuel : nat) (m : Mansao)
  (ht : HashTable) (s : Exploracao) (ls : list string)
  (Hf : fechada m) (Ha : atual s < length m)
  (Hi : entrada s = linhas ls)
  (Hok : Forall (fun l => linha_ok l = true) ls)
  (Hs : Exists (fun l => escolha_de l = "s"%char) ls)
  (Hfuel : length ls <= fuel) :
  exists s' out,
    laco f fuel m ht s = Terminou s'
    /\ (saida s' = out ++ [SaindoDaExploracao]
        \/ saida s' = out ++ [ErroHistorico]).
Proof.
  revert s fuel Ha Hi Hfuel.
  induction ls as [|l ls IH]; intros s fuel Ha Hi Hfuel;
    [now apply Exists_nil in Hs|].
  destruct fuel as [|fuel]; [cbn in Hfuel; lia|]. cbn [length] in Hfuel.
  apply Forall_cons in Hok as [Hl Hok]. cbn [laco].
  destruct (entrar f m ht s) as [s1|s1|] eqn:E1.
  - apply entrar_Continua in E1 as (sala & Hm & _ & _ & _ & Hat & Hen & _).
    rewrite <- Hat in Hm.
    pose proof (decidir_escolha m s1 sala Hm) as Hd. cbv zeta in Hd.
    rewrite Hen, Hi, (ler_linha_linhas l ls Hl) in Hd. cbn [fst snd] in Hd.
    rewrite escolha_de_c_str in Hd.
    destruct (Ascii.eqb_spec (escolha_de l) "s") as [Hes|Hes].
    + rewrite Hd. eexists. eexists. split; [reflexivity|]. left. reflexivity.
    + assert (Hs' : Exists (fun l => escolha_de l = "s"%char) ls)
        by (apply Exists_cons in Hs as [H|H]; [contradiction|exact H]).
      destruct (decidir m s1) as [s2|s2|] eqn:E2.
      * apply decidir_Continua in E2
          as (sala1 & Hm1 & _ & _ & _ & Hen2 & Hmv & _).
        apply (IH Hok Hs'); [| |lia].
        -- destruct (Hf _ _ Hm1) as [He Hdd].
           destruct Hmv as [->|[H|H]]; [lia | now apply He | now apply Hdd].
        -- rewrite Hen2, Hen, Hi, (ler_linha_linhas l ls Hl). reflexivity.
      * destruct (Ascii.eqb _ "e"); [destruct (esq sala); discriminate|].
        destruct (Ascii.eqb _ "d"); [destruct (dir sala); discriminate|].
        discriminate.
      * destruct (Ascii.eqb _ "e"); [destruct (esq sala); discriminate|].
        destruct (Ascii.eqb _ "d"); [destruct (dir sala); discriminate|].
        discriminate.
  - apply entrar_Encerra in E1 as [_ ->]. eexists. eexists.
    split; [reflexivity|]. right. reflexivity.
  - apply entrar_Indefinido in E1.
    destruct (lookup_lt_is_Some_2 m (atual s) Ha) as [x Hx].
    pose proof (eq_trans (eq_sym E1) Hx) as Habs. discriminate Habs.
Qed.

Lemma exploracao_termina_witness :
  exists s' out,
    laco sempre 4 (fst mapa_main) hash_main
      {| historico := []; cap := 0; atual := 0; pistasRoot := PNULL;
         entrada := linhas ["e"; "norte"; " D"; "sair"]; saida := [] |}
    = Terminou s'
    /\ (saida s' = out ++ [SaindoDaExploracao]
        \/ saida s' = out ++ [ErroHistorico]).
Proof.
  refine (exploracao_termina sempre 4 (fst mapa_main) hash_main
            {| historico := []; cap := 0; atual := 0; pistasRoot := PNULL;
               entrada := linhas ["e"; "norte"; " D"; "sair"]; saida := [] |}
            ["e"; "norte"; " D"; "sair"] mapa_main_fechada _ eq_refl _ _ _).
  - vm_compute. lia.
  - repeat constructor.
  - do 3 apply Exists_cons_tl. apply Exists_cons_hd. reflexivity.
  - cbn. lia.
Defined.

(** X7. The exploration only adds clues, and only clues of rooms.  From a
    ledger the program can build, the loop ends with such a ledger, which
    still holds every clue it held and in which every other clue is the clue
    of a room of the store. *)
Theorem exploracao_so_acrescenta_pistas (f : nat -> bool) (fuel : nat)
  (m : Mansao) (ht : HashTable) (s : Exploracao)
  (L : ledger (pistasRoot s)) :
  forall s', laco f fuel m ht s = Terminou s' ->
    ledger (pistasRoot s')
    /\ (forall p, p ∈ exibirPistas (pistasRoot s) ->
                  p ∈ exibirPistas (pistasRoot s'))
    /\ (forall p, p ∈ exibirPistas (pistasRoot s') ->
                  p ∈ exibirPistas (pistasRoot s)
                  \/ exists a sala, m !! a = Some sala /\ pista sala = Some p).
Proof.
  intros s' Hl.
  refine (laco_invariante
           (fun s' =>
              ledger (pistasRoot s')
              /\ (forall p, p ∈ exibirPistas (pistasRoot s) ->
                            p ∈ exibirPistas (pistasRoot s'))
              /\ (forall p, p ∈ exibirPistas (pistasRoot s') ->
                            p ∈ exibirPistas (pistasRoot s)
                            \/ exists a sala, m !! a = Some sala
                                              /\ pista sala = Some p))
           f m ht _ _ _ _ fuel s s' _ Hl).
  - intros s1 s2 (L1 & Hin & Hor) He.
    apply entrar_Continua in He as (sala & Hm & _ & _ & _ & _ & _ & Hp & _).
    rewrite Hp. split; [now constructor|].
    destruct (pista sala) as [[|c r]|] eqn:Ep;
      [rewrite inserirPista_vazia; now split | |
       rewrite inserirPista_NULL; now split].
    split; intros p; rewrite elem_of_inserirPista by congruence.
    + intros H. right. now apply Hin.
    + intros [->|H]; [right; now exists (atual s1), sala | now apply Hor].
  - intros s1 s2 HP He. apply entrar_Encerra in He as [_ ->]. exact HP.
  - intros s1 s2 HP He.
    apply decidir_Continua in He as (sala & _ & _ & _ & Hp & _).
    now rewrite Hp.
  - intros s1 s2 HP He. apply decidir_Encerra in He as ->. exact HP.
  - split; [exact L|]. split; [auto | intros p H; now left].
Qed.

Lemma exploracao_so_acrescenta_pistas_witness :
  let s := {| historico := []; cap := 0; atual := 0;
              pistasRoot := PNode "Carta rasgada" PNULL PNULL;
              entrada := linhas ["d"; "e"; "s"]; saida := [] |} in
  exists s',
    laco sempre 3 (fst mapa_main) hash_main s = Terminou s'
    /\ ledger (pistasRoot s')
    /\ "Carta rasgada" ∈ exibirPistas (pistasRoot s').
Proof.
  intros s.
  destruct (laco sempre 3 (fst mapa_main) hash_main s) as [s'| |] eqn:E;
    [|vm_compute in E; discriminate E..].
  exists s'. split; [reflexivity|].
  destruct (exploracao_so_acrescenta_pistas sempre 3 (fst mapa_main) hash_main s
              (ledger_inserir PNULL (Some "Carta rasgada") ledger_vazio)
              s' E) as (L & Hin & _).
  split; [exact L|]. apply Hin. apply list_elem_of_here.
Defined.





(** X9. The history only grows, by names of rooms of the store: when the
    loop ends, the history is the one it started from followed by names of
    rooms; and the history [explorarSalas] ends with, when the first six
    entries could be allocated, starts with the name of the room the
    exploration started in. *)
Theorem historico_so_cresce (f : nat -> bool) (fuel : nat) (m : Mansao)
  (ht : HashTable) :
  (forall s s', laco f fuel m ht s = Terminou s' ->
     exists novos, historico s' = historico s ++ novos
                   /\ Forall (nome_de_sala m) novos)
  /\ (forall a sala pistas input s',
        m !! a = Some sala -> f 6 = true ->
        explorarSalas f fuel m (Some a) ht pistas input = Terminou s' ->
        exists resto, historico s' = nome sala :: resto
                      /\ Forall (nome_de_sala m) resto).
Proof.
  assert (H1 : forall fuel s s', laco f fuel m ht s = Terminou s' ->
                 exists novos, historico s' = historico s ++ novos
                               /\ Forall (nome_de_sala m) novos).
  { intros fuel' s s' Hl.
    refine (laco_invariante
              (fun s' => exists novos, historico s' = historico s ++ novos
                                       /\ Forall (nome_de_sala m) novos)
              f m ht _ _ _ _ fuel' s s' _ Hl).
    - intros s1 s2 (novos & Hh & Hn) He.
      apply entrar_Continua in He as (sala & Hm & _ & Hh2 & _).
      exists (novos ++ [nome sala]). rewrite Hh2, Hh, app_assoc.
      split; [reflexivity|]. apply Forall_app. split; [exact Hn|].
      constructor; [now exists (atual s1), sala | constructor].
    - intros s1 s2 HP He. apply entrar_Encerra in He as [_ ->]. exact HP.
    - intros s1 s2 HP He. apply decidir_Continua in He as (sala & _ & -> & _).
      exact HP.
    - intros s1 s2 HP He. apply decidir_Encerra in He as ->. exact HP.
    - exists []. rewrite app_nil_r. split; [reflexivity | constructor]. }
  split; [apply H1|].
  intros a sala pistas input s' Hm H6. unfold explorarSalas.
  destruct fuel as [|fuel']; [discriminate|]. cbn [laco].
  set (s0 := {| historico := []; cap := 0; atual := a; pistasRoot := pistas;
                entrada := input; saida := [] |}).
  assert (Hc : cabe f s0 = true) by (unfold cabe; cbn; now rewrite H6).
  destruct (entrar_cabe f m ht s0 sala Hc Hm) as (s1 & -> & Hh & _).
  cbn [historico s0 app] in Hh.
  assert (Hfim : forall s2, (exists novos, historico s2 = historico s1 ++ novos
                                           /\ Forall (nome_de_sala m) novos) ->
                   exists resto, historico (mostrar_historico s2) = nome sala :: resto
                                 /\ Forall (nome_de_sala m) resto).
  { intros s2 (novos & Hh2 & Hn). exists novos. cbn [mostrar_historico historico].
    now rewrite Hh2, Hh. }
  destruct (decidir m s1) as [s2|s2|] eqn:E2; [| |discriminate].
  - destruct (laco f fuel' m ht s2) as [s3| |] eqn:E3; try discriminate.
    intros [= <-]. apply Hfim. apply H1 in E3 as (novos & Hh3 & Hn).
    apply decidir_Continua in E2 as (sala1 & _ & Hh2 & _).
    exists novos. now rewrite Hh3, Hh2.
  - intros [= <-]. apply Hfim. apply decidir_Encerra in E2 as ->.
    exists []. cbn [avancar historico]. rewrite app_nil_r.
    split; [reflexivity | constructor].
Qed.

(** ** Lower case and the accusation *)

Lemma tolower_idem (c : ascii) : tolower (tolower c) = tolower c.
Proof. destruct c as [[] [] [] [] [] [] [] []]; reflexivity. Qed.

Lemma str_lower_strncpy (k : nat) (s : string) :
  str_lower (strncpy k s) = strncpy k (str_lower s).
Proof.
  revert k. induction s as [|c s IH]; intros [|k]; cbn; try reflexivity.
  now rewrite IH.
Qed.

(** X10. [str_lower] keeps the length of the string, changes nothing when
    applied a second time, and can be applied before or after the string is
    cut to its first bytes. *)
Theorem str_lower_estavel (s : string) (k : nat) :
  String.length (str_lower s) = String.length s
  /\ str_lower (str_lower s) = str_lower s
  /\ str_lower (strncpy k s) = strncpy k (str_lower s).
Proof.
  split; [|split; [|apply str_lower_strncpy]].
  - induction s as [|c s IH]; cbn; [reflexivity | now rewrite IH].
  - induction s as [|c s IH]; cbn; [reflexivity|].
    now rewrite tolower_idem, IH.
Qed.

Lemma nat_tolower (c : ascii) :
  nat_of_ascii (tolower c)
  = if (65 <=? nat_of_ascii c) && (nat_of_ascii c <=? 90)
    then nat_of_ascii c + 32 else nat_of_ascii c.
Proof.
  unfold tolower. cbv zeta.
  destruct (Nat.leb_spec 65 (nat_of_ascii c));
    destruct (Nat.leb_spec (nat_of_ascii c) 90); cbn [andb]; try reflexivity.
  apply nat_ascii_embedding. lia.
Qed.

Lemma mesma_letra_tolower (x y : ascii) :
  mesma_letra x y = true <-> tolower x = tolower y.
Proof.
  assert (Hinj : tolower x = tolower y
                 <-> nat_of_ascii (tolower x) = nat_of_ascii (tolower y)).
  { split; [now intros ->|]. intros H.
    rewrite <- (ascii_nat_embedding (tolower x)), H.
    apply ascii_nat_embedding. }
  rewrite Hinj, !nat_tolower. unfold mesma_letra. cbv zeta.
  pose proof (nat_ascii_bounded x). pose proof (nat_ascii_bounded y).
  destruct (Nat.leb_spec 65 (nat_of_ascii x));
    destruct (Nat.leb_spec (nat_of_ascii x) 90);
    destruct (Nat.leb_spec 65 (nat_of_ascii y));
    destruct (Nat.leb_spec (nat_of_ascii y) 90);
    cbn [andb orb]; rewrite ?orb_false_r, ?orb_true_iff, ?Nat.eqb_eq; lia.
Qed.

Lemma mesma_caixa_str_lower (a b : string) :
  mesma_caixa a b = true <-> str_lower a = str_lower b.
Proof.
  revert b. induction a as [|x a IH]; intros [|y b]; cbn [mesma_caixa str_lower];
    try (split; [reflexivity || discriminate | reflexivity || discriminate]).
  rewrite andb_true_iff, mesma_letra_tolower, IH.
  split; [intros [-> ->]; reflexivity | intros [= -> ->]; auto].
Qed.

(** X11. The outcome of an accusation does not depend on the case in which
    the ASCII letters of the name are typed: two accused names of one
    length whose bytes are pairwise the same byte, or the same letter of
    [A] to [Z] in its two cases, get the same outcome against any counting
    list; these are the names that [str_lower] makes equal, no others; and
    a byte from 128 on, as the bytes of an accented letter are, is the same
    letter as itself alone. *)
Theorem julgar_ignora_caixa (lista : list SuspeitoConta) (b1 b2 : string) :
  (mesma_caixa b1 b2 = true <-> str_lower b1 = str_lower b2)
  /\ (mesma_caixa b1 b2 = true ->
      fst (julgar lista b1) = fst (julgar lista b2))
  /\ (forall x y, 128 <= nat_of_ascii x -> mesma_letra x y = true -> x = y).
Proof.
  split; [apply mesma_caixa_str_lower|]. split.
  - intros H%mesma_caixa_str_lower.
    unfold julgar. rewrite !str_lower_strncpy, H.
    destruct (buscar lista _) as [c|]; [destruct (2 <=? c)%Z|]; reflexivity.
  - intros x y Hx. unfold mesma_letra. cbv zeta.
    rewrite !orb_true_iff, !andb_true_iff, !Nat.eqb_eq, !Nat.leb_le.
    intros H. rewrite <- (ascii_nat_embedding x), <- (ascii_nat_embedding y).
    f_equal. lia.
Qed.

Lemma julgar_ignora_caixa_witness :
  mesma_caixa "EmPrEgAdO" "empregado" = true
  /\ fst (julgar [ {| sc_nome := "Empregado"; cont := 2 |} ] "EmPrEgAdO")
     = fst (julgar [ {| sc_nome := "Empregado"; cont := 2 |} ] "empregado")
  /\ mesma_caixa "BIBLIOTECÁRIO" "Bibliotecário" = false.
Proof.
  split; [reflexivity|]. split; [|reflexivity].
  exact (proj1 (proj2 (julgar_ignora_caixa _ "EmPrEgAdO" "empregado")) eq_refl).
Defined.

(** ** The judgement with clues *)



Lemma buscar_Some (l : list SuspeitoConta) (a : string) (c : Z) :
  buscar l a = Some c ->
  exists e, e ∈ l /\ normalizado (sc_nome e) = a /\ cont e = c.
Proof.
  induction l as [|e l IH]; cbn [buscar]; [discriminate|].
  fold (normalizado (sc_nome e)).
  destruct (strcmp (normalizado (sc_nome e)) a) eqn:Hc.
  - intros [= <-]. apply strcmp_eq in Hc. exists e.
    split; [apply list_elem_of_here | now split].
  - intros H. destruct (IH H) as (e' & Hin & He). exists e'.
    split; [now apply list_elem_of_further | exact He].
  - intros H. destruct (IH H) as (e' & Hin & He). exists e'.
    split; [now apply list_elem_of_further | exact He].
Qed.

(** The counter of an entry of the counting list is the number of clues of
    the ledger bound to the name of the entry. *)
Lemma cont_da_contagem (t : PistaNode) (ht : HashTable) (e : SuspeitoConta) :
  e ∈ contar_pistas_por_suspeito t ht [] ->
  cont e = Z.of_nat (length (apontam_para ht (sc_nome e) (exibirPistas t))).
Proof.
  rewrite contar_pistas_lista. intros He.
  assert (Hnd : NoDup (sc_nome <$> contar_lista (exibirPistas t) ht []))
    by (apply NoDup_contar_lista; constructor).
  pose proof (contador_da_entrada _ _ Hnd He) as Hc.
  rewrite contador_contar_lista in Hc. cbn [contador] in Hc. cbv zeta in Hc.
  destruct (_ =? 0); [discriminate | congruence].
Qed.

(** X13. Nobody is found guilty on fewer than two clues: when the outcome
    of [verificarSuspeitoFinal] on a ledger the program can build is
    [Guilty], the ledger holds two different clues that the index binds to
    one and the same suspect, whose name, compared as the code compares
    names, is the accused name read. *)
Theorem culpado_tem_duas_pistas (t : PistaNode) (ht : HashTable)
  (input : string) (L : ledger t)
  (Hg : veredito (verificarSuspeitoFinal t ht input) = Guilty) :
  exists p1 p2 sus,
    p1 <> p2
    /\ p1 ∈ exibirPistas t /\ p2 ∈ exibirPistas t
    /\ encontrarSuspeito ht (Some p1) = Some sus
    /\ encontrarSuspeito ht (Some p2) = Some sus
    /\ normalizado sus = normalizado (fst (ler_linha 128 input)).
Proof.
  destruct t as [|p e d]; [discriminate Hg|].
  set (t := PNode p e d) in *. unfold verificarSuspeitoFinal in Hg.
  cbv iota beta in Hg. unfold t at 1 in Hg.
  destruct (ler_linha 128 input) as [buf resto]. cbn [fst].
  destruct buf as [|c r]; [discriminate Hg|].
  unfold julgar in Hg. fold (normalizado (String c r)) in Hg.
  destruct (buscar _ _) as [n|] eqn:Hb; [|discriminate Hg].
  destruct (2 <=? n)%Z eqn:Hn; [|discriminate Hg]. clear Hg.
  apply Z.leb_le in Hn.
  apply buscar_Some in Hb as (en & Hin & Hnome & Hcont).
  rewrite (cont_da_contagem t ht en Hin) in Hcont.
  assert (Hnd : NoDup (apontam_para ht (sc_nome en) (exibirPistas t)))
    by (apply NoDup_filter, ordenada_NoDup, bst_ordenada, ledger_bst, L).
  destruct (apontam_para ht (sc_nome en) (exibirPistas t))
    as [|p1 [|p2 rest]] eqn:Ef; [cbn in Hcont; lia..|].
  assert (H1 : p1 ∈ apontam_para ht (sc_nome en) (exibirPistas t))
    by (rewrite Ef; apply list_elem_of_here).
  assert (H2 : p2 ∈ apontam_para ht (sc_nome en) (exibirPistas t))
    by (rewrite Ef; apply list_elem_of_further, list_elem_of_here).
  apply list_elem_of_filter in H1 as [E1 I1], H2 as [E2 I2].
  exists p1, p2, (sc_nome en). repeat split; try assumption.
  apply NoDup_cons in Hnd as [Hn1 _]. intros ->. apply Hn1.
  apply list_elem_of_here.
Qed.

Lemma culpado_tem_duas_pistas_witness :
  let t := coletar [Some "Lençol manchado"; Some "Chave perdida"] in
  veredito (verificarSuspeitoFinal t hash_main (linhas ["empregado"])) = Guilty
  /\ exists p1 p2 sus,
       p1 <> p2
       /\ p1 ∈ exibirPistas t /\ p2 ∈ exibirPistas t
       /\ encontrarSuspeito hash_main (Some p1) = Some sus
       /\ encontrarSuspeito hash_main (Some p2) = Some sus
       /\ normalizado sus = normalizado "empregado".
Proof.
  intros t. split; [reflexivity|].
  exact (culpado_tem_duas_pistas t hash_main (linhas ["empregado"])
           (ledger_fold [Some "Lençol manchado"; Some "Chave perdida"] PNULL
              ledger_vazio) eq_refl).
Defined.

Lemma soma_cons (e : SuspeitoConta) (l : list SuspeitoConta) :
  soma (e :: l) = (cont e + soma l)%Z.
Proof. reflexivity. Qed.

Lemma soma_incrementar (l l' : list SuspeitoConta) (n : string) :
  incrementar l n = Some l' -> soma l' = (soma l + 1)%Z.
Proof.
  revert l'. induction l as [|e l IH]; intros l'; cbn [incrementar];
    [discriminate|].
  assert (Hstep : option_map (cons e) (incrementar l n) = Some l' ->
                  soma l' = (soma (e :: l) + 1)%Z).
  { destruct (incrementar l n) as [l1|]; [|discriminate]. intros [= <-].
    rewrite !soma_cons, (IH l1 eq_refl). lia. }
  destruct (strcmp (sc_nome e) n); [|exact Hstep..].
  intros [= <-]. rewrite !soma_cons. cbn [cont]. lia.
Qed.

Lemma positivos_incrementar (l l' : list SuspeitoConta) (n : string) :
  incrementar l n = Some l' ->
  Forall (fun e => (1 <= cont e)%Z) l -> Forall (fun e => (1 <= cont e)%Z) l'.
Proof.
  revert l'. induction l as [|e l IH]; intros l'; cbn [incrementar];
    [discriminate|].
  assert (Hstep : option_map (cons e) (incrementar l n) = Some l' ->
                  Forall (fun e => (1 <= cont e)%Z) (e :: l) ->
                  Forall (fun e => (1 <= cont e)%Z) l').
  { destruct (incrementar l n) as [l1|]; [|discriminate]. intros [= <-].
    intros [He Hl]%Forall_cons. constructor; [exact He | now apply IH]. }
  destruct (strcmp (sc_nome e) n); [|exact Hstep..].
  intros [= <-] [He Hl]%Forall_cons. constructor; [cbn; lia | exact Hl].
Qed.

(** X14. No clue is counted twice and none is lost: the counters of the
    list [contar_pistas_por_suspeito] builds add up to the number of clues
    of the ledger that the index binds to a suspect, and every entry counts
    at least one clue. *)
Theorem soma_das_contagens (t : PistaNode) (ht : HashTable) :
  let lista := contar_pistas_por_suspeito t ht [] in
  soma lista = Z.of_nat (length (vinculadas ht (exibirPistas t)))
  /\ Forall (fun e => (1 <= cont e)%Z) lista.
Proof.
  cbv zeta. rewrite contar_pistas_lista.
  assert (H : forall ps l,
            Forall (fun e => (1 <= cont e)%Z) l ->
            soma (contar_lista ps ht l)
            = (soma l + Z.of_nat (length (vinculadas ht ps)))%Z
            /\ Forall (fun e => (1 <= cont e)%Z) (contar_lista ps ht l)).
  { induction ps as [|p ps IH]; intros l Hl.
    { unfold contar_lista, vinculadas. cbn [fold_left]. rewrite filter_nil.
      cbn [length]. split; [lia | exact Hl]. }
    rewrite contar_lista_cons. unfold vinculadas. rewrite filter_cons.
    fold (vinculadas ht ps).
    destruct (encontrarSuspeito ht (Some p)) as [n|] eqn:En.
    - rewrite decide_True by (now exists n). cbn [length].
      unfold conta_suspeito_add. destruct (incrementar l n) as [l'|] eqn:Ei.
      + destruct (IH l' (positivos_incrementar _ _ _ Ei Hl)) as [-> Hf].
        split; [rewrite (soma_incrementar _ _ _ Ei); lia | exact Hf].
      + destruct (IH ({| sc_nome := n; cont := 1 |} :: l)) as [-> Hf];
          [constructor; [cbn; lia | exact Hl]|].
        split; [rewrite soma_cons; cbn [cont]; lia | exact Hf].
    - rewrite decide_False by (intros [x Hx]; discriminate).
      now apply IH. }
  destruct (H (exibirPistas t) [] ltac:(constructor)) as [-> Hf].
  split; [change (soma []) with 0%Z; lia | exact Hf].
Qed.

(** ** More on the suspect index *)

Lemma ja_listado_elem (l : list string) (x : string) :
  ja_listado l x = true <-> x ∈ l.
Proof.
  unfold ja_listado. induction l as [|y l IH]; cbn [existsb].
  - rewrite elem_of_nil. split; [discriminate | tauto].
  - rewrite orb_true_iff, IH, elem_of_cons.
    destruct (strcmp y x) eqn:Hc.
    + apply strcmp_eq in Hc. subst. tauto.
    + apply str_lt_neq in Hc. split; [intros [H|H]; [discriminate|tauto]|].
      intros [->|H]; [congruence | tauto].
    + apply strcmp_gt_lt, str_lt_neq in Hc.
      split; [intros [H|H]; [discriminate|tauto]|].
      intros [->|H]; [congruence | tauto].
Qed.

(** The inner loop of [listarSuspeitosHash], over one chain. *)
Lemma listar_cadeia (ent : list HashEntry) (l : list string) :
  let l' := fold_left (fun lista e => if ja_listado lista (suspeito e) then lista
                                      else suspeito e :: lista) ent l in
  (NoDup l -> NoDup l')
  /\ forall x, x ∈ l' <-> x ∈ l \/ x ∈ suspeito <$> ent.
Proof.
  revert l. induction ent as [|e ent IH]; intros l; cbn [fold_left].
  - split; [auto|]. intros x. rewrite fmap_nil, elem_of_nil. tauto.
  - destruct (ja_listado l (suspeito e)) eqn:Hj.
    + apply ja_listado_elem in Hj. destruct (IH l) as [Hn Hm].
      split; [exact Hn|]. intros x. rewrite Hm, fmap_cons, elem_of_cons.
      split; [tauto|]. intros [H|[->|H]]; tauto.
    + assert (Hnot : suspeito e ∉ l)
        by (intros H; apply ja_listado_elem in H; congruence).
      destruct (IH (suspeito e :: l)) as [Hn Hm].
      split; [intros Hl; apply Hn; now constructor|].
      intros x. rewrite Hm, fmap_cons, !elem_of_cons. tauto.
Qed.

(** The outer loop, over the buckets. *)
Lemma listar_baldes (bs : list (list HashEntry)) (l : list string) :
  let passo := fun lista ent =>
                 fold_left (fun lista e => if ja_listado lista (suspeito e)
                                           then lista else suspeito e :: lista)
                           ent lista in
  (NoDup l -> NoDup (fold_left passo bs l))
  /\ forall x, x ∈ fold_left passo bs l <-> x ∈ l \/ x ∈ suspeito <$> concat bs.
Proof.
  cbv zeta. revert l. induction bs as [|b bs IH]; intros l; cbn [fold_left].
  - split; [auto|]. intros x. cbn. rewrite elem_of_nil. tauto.
  - destruct (listar_cadeia b l) as [Hn Hm]. cbv zeta in Hn, Hm.
    destruct (IH (fold_left (fun lista e => if ja_listado lista (suspeito e)
                                            then lista else suspeito e :: lista)
                            b l)) as [Hn' Hm'].
    split; [auto|]. intros x.
    rewrite Hm', Hm, concat_cons, fmap_app, elem_of_app. tauto.
Qed.

(** X15. [listarSuspeitosHash] lists each suspect once: on a table with as
    many buckets as its size says, the names printed are exactly the
    suspects of the entries of the table, none twice, and none at all only
    for a table without entries. *)
Theorem listarSuspeitosHash_distintos (ht : HashTable)
  (Hlen : length (buckets ht) = tamanho ht) :
  NoDup (listarSuspeitosHash ht)
  /\ (forall x, x ∈ listarSuspeitosHash ht <-> x ∈ suspeito <$> entradas ht)
  /\ (listarSuspeitosHash ht = [] <-> entradas ht = []).
Proof.
  unfold listarSuspeitosHash, entradas. rewrite take_ge by lia.
  destruct (listar_baldes (buckets ht) []) as [Hn Hm]. cbv zeta in Hn, Hm.
  assert (Hx : forall x,
            x ∈ fold_left
                  (fun lista ent =>
                     fold_left (fun lista e => if ja_listado lista (suspeito e)
                                               then lista else suspeito e :: lista)
                               ent lista)
                  (buckets ht) []
            <-> x ∈ suspeito <$> concat (buckets ht))
    by (intros x; rewrite Hm, elem_of_nil; tauto).
  split; [apply Hn; constructor|]. split; [exact Hx|].
  split; intros He.
  - destruct (concat (buckets ht)) as [|e es]; [reflexivity|].
    specialize (Hx (suspeito e)). rewrite He, fmap_cons in Hx.
    exfalso. apply (not_elem_of_nil (suspeito e)), Hx, list_elem_of_here.
  - destruct (fold_left _ (buckets ht) []) as [|x xs]; [reflexivity|].
    specialize (Hx x). rewrite He in Hx.
    exfalso. apply (not_elem_of_nil x), Hx, list_elem_of_here.
Qed.

Lemma listarSuspeitosHash_distintos_witness :
  length (buckets hash_main) = tamanho hash_main
  /\ NoDup (listarSuspeitosHash hash_main)
  /\ listarSuspeitosHash hash_main = ["Bibliotecário"; "Jardineiro"; "Empregado"].
Proof.
  split; [reflexivity|].
  split; [exact (proj1 (listarSuspeitosHash_distintos hash_main eq_refl))|].
  reflexivity.
Defined.

Lemma elem_of_entradas (l : list (list HashEntry)) (e : HashEntry) :
  e ∈ concat l <-> exists i, i < length l /\ e ∈ l !!! i.
Proof.
  induction l as [|b l IH].
  - cbn. rewrite elem_of_nil. split; [tauto | intros (i & Hi & _); lia].
  - rewrite concat_cons, elem_of_app, IH. split.
    + intros [Hb|(i & Hi & Hk)].
      * exists 0. split; [cbn; lia | exact Hb].
      * exists (S i). split; [cbn; lia | exact Hk].
    + intros ([|i] & Hi & Hk); [left; exact Hk|].
      right. exists i. split; [cbn in Hi; lia | exact Hk].
Qed.

Lemma procurar_Some_elem (ent : list HashEntry) (k v : string) :
  procurar ent k = Some v -> {| chave := k; suspeito := v |} ∈ ent.
Proof.
  induction ent as [|[k' v'] ent IH]; cbn [procurar chave suspeito];
    [discriminate|].
  destruct (strcmp k' k) eqn:Hc.
  - apply strcmp_eq in Hc. intros [= <-]. subst. apply list_elem_of_here.
  - intros H. apply list_elem_of_further, IH, H.
  - intros H. apply list_elem_of_further, IH, H.
Qed.

Lemma elem_procurar (ent : list HashEntry) (k v : string) :
  NoDup (chave <$> ent) -> {| chave := k; suspeito := v |} ∈ ent ->
  procurar ent k = Some v.
Proof.
  induction ent as [|[k' v'] ent IH]; intros Hnd Hin;
    [now apply elem_of_nil in Hin|].
  rewrite fmap_cons in Hnd. apply NoDup_cons in Hnd as [Hn Hnd].
  cbn [procurar chave suspeito] in *.
  apply elem_of_cons in Hin as [[= <- <-]|Hin].
  - now rewrite strcmp_refl.
  - destruct (strcmp k' k) eqn:Hc; [|now apply IH..].
    apply strcmp_eq in Hc. subst k'. exfalso. apply Hn.
    change k with (chave {| chave := k; suspeito := v |}).
    now apply list_elem_of_fmap_2.
Qed.

(** X16. Lookup finds what the table holds and nothing else: on a table as
    [criarHash] makes it and [inserirNaHash] keeps it, [encontrarSuspeito]
    answers [v] for the key [k] exactly when the table has the entry that
    binds [k] to [v], and [NULL] exactly when no entry has the key [k]. *)
Theorem encontrarSuspeito_entrada (ht : HashTable) (k v : string)
  (Hok : tabela_ok ht) :
  (encontrarSuspeito ht (Some k) = Some v
   <-> {| chave := k; suspeito := v |} ∈ entradas ht)
  /\ (encontrarSuspeito ht (Some k) = None <-> k ∉ chaves ht).
Proof.
  split; [|now apply encontrar_None].
  pose proof Hok as (Hpos & Hlen & Hb).
  pose proof (balde_lt ht k Hpos) as Hlt.
  unfold encontrarSuspeito, entradas. rewrite elem_of_entradas. split.
  - intros H. exists (balde ht k). split; [lia|]. now apply procurar_Some_elem.
  - intros (i & Hi & Hin). rewrite Hlen in Hi. destruct (Hb i Hi) as [Hnd Hg].
    assert (Hki : balde ht k = i).
    { apply Hg. change k with (chave {| chave := k; suspeito := v |}).
      now apply list_elem_of_fmap_2. }
    rewrite Hki. now apply elem_procurar.
Qed.

Lemma encontrarSuspeito_entrada_witness :
  tabela_ok (inserirNaHash (criarHash 31) (Some "Chave perdida") (Some "Empregado"))
  /\ {| chave := "Chave perdida"; suspeito := "Empregado" |}
     ∈ entradas (inserirNaHash (criarHash 31) (Some "Chave perdida")
                   (Some "Empregado")).
Proof.
  assert (Hok : tabela_ok (inserirNaHash (criarHash 31) (Some "Chave perdida")
                             (Some "Empregado")))
    by (apply tabela_ok_inserir, tabela_ok_criarHash; lia).
  split; [exact Hok|].
  now apply (proj1 (encontrarSuspeito_entrada _ "Chave perdida" "Empregado" Hok)).
Defined.

(** X17. Calls of [inserirNaHash] for different keys do not disturb each
    other: in either order they leave a table that answers every key the
    same. *)
Theorem inserirNaHash_independentes (ht : HashTable) (k1 v1 k2 v2 k : string)
  (Hok : tabela_ok ht) (Hne : k1 <> k2) :
  encontrarSuspeito
    (inserirNaHash (inserirNaHash ht (Some k1) (Some v1)) (Some k2) (Some v2))
    (Some k)
  = encontrarSuspeito
      (inserirNaHash (inserirNaHash ht (Some k2) (Some v2)) (Some k1) (Some v1))
      (Some k).
Proof.
  pose proof (tabela_ok_inserir ht k1 v1 Hok) as H1.
  pose proof (tabela_ok_inserir ht k2 v2 Hok) as H2.
  destruct (decide (k = k2)) as [->|Hk2].
  - rewrite encontrar_inserir_eq by exact H1.
    rewrite encontrar_inserir_ne by (auto; congruence).
    now rewrite encontrar_inserir_eq.
  - rewrite (encontrar_inserir_ne _ k2 v2 k H1 Hk2).
    destruct (decide (k = k1)) as [->|Hk1].
    + now rewrite !encontrar_inserir_eq.
    + now rewrite !encontrar_inserir_ne by assumption.
Qed.

Lemma inserirNaHash_independentes_witness :
  tabela_ok (criarHash 31) /\ "Chave perdida" <> "Gaveta perdida"
  /\ encontrarSuspeito
       (inserirNaHash (inserirNaHash (criarHash 31) (Some "Chave perdida")
                         (Some "Empregado"))
          (Some "Gaveta perdida") (Some "Jardineiro"))
       (Some "Chave perdida")
     = Some "Empregado".
Proof.
  assert (Hok : tabela_ok (criarHash 31)) by (apply tabela_ok_criarHash; lia).
  split; [exact Hok|]. split; [discriminate|].
  rewrite (inserirNaHash_independentes (criarHash 31) "Chave perdida" "Empregado"
             "Gaveta perdida" "Jardineiro" "Chave perdida" Hok ltac:(discriminate)).
  reflexivity.
Defined.

Lemma hash_djb2_loop_faixa (h : Z) (s : string) :
  (0 <= h < 2 ^ 64)%Z -> (0 <= hash_djb2_loop h s < 2 ^ 64)%Z.
Proof.
  revert h. induction s as [|c s IH]; intros h Hh; cbn [hash_djb2_loop];
    [exact Hh|].
  apply IH. apply Z.mod_pos_bound. lia.
Qed.

Lemma hash_djb2_loop_fim (h : Z) (s : string) (c : ascii) :
  hash_djb2_loop h (String.append s (String c ""))
  = ((hash_djb2_loop h s * 33 + Z.of_nat (nat_of_ascii c)) mod 2 ^ 64)%Z.
Proof.
  revert h. induction s as [|x s IH]; intros h.
  - change (String.append "" (String c "")) with (String c "").
    cbn [hash_djb2_loop]. rewrite Z.shiftl_mul_pow2 by lia. f_equal. lia.
  - change (String.append (String x s) (String c ""))
      with (String x (String.append s (String c ""))).
    cbn [hash_djb2_loop]. apply IH.
Qed.

(** X18. [hash_djb2] is the polynomial hash it says it is, on 64 bits: it is
    5381 for the empty string, a byte more at the end of the string
    multiplies it by 33 and adds the byte, modulo 2^64, it stays below 2^64,
    and the bucket it selects in a table with at least one bucket is a bucket
    of the table. *)
Theorem hash_djb2_polinomial (s : string) (c : ascii) (ht : HashTable) :
  hash_djb2 "" = 5381%Z
  /\ hash_djb2 (String.append s (String c ""))
     = ((hash_djb2 s * 33 + Z.of_nat (nat_of_ascii c)) mod 2 ^ 64)%Z
  /\ (0 <= hash_djb2 s < 2 ^ 64)%Z
  /\ (0 < tamanho ht -> balde ht s < tamanho ht).
Proof.
  split; [reflexivity|]. split; [apply hash_djb2_loop_fim|].
  split; [apply hash_djb2_loop_faixa; lia | apply balde_lt].
Qed.

(** ** More on the ledger *)

Lemma ordenadas_iguais (l1 l2 : list string) :
  StronglySorted str_lt l1 -> StronglySorted str_lt l2 ->
  (forall x, x ∈ l1 <-> x ∈ l2) -> l1 = l2.
Proof.
  intros S1. revert l2. induction S1 as [|a l1 S1 IH Ha]; intros l2 S2 H.
  - destruct l2 as [|b l2]; [reflexivity|]. exfalso.
    apply (not_elem_of_nil b), H, list_elem_of_here.
  - destruct S2 as [|b l2 S2 Hb].
    { exfalso. apply (not_elem_of_nil a), H, list_elem_of_here. }
    rewrite Forall_forall in Ha, Hb.
    assert (Hab : a = b).
    { pose proof (proj1 (H a) (list_elem_of_here _ _)) as H1.
      pose proof (proj2 (H b) (list_elem_of_here _ _)) as H2.
      apply elem_of_cons in H1 as [H1|H1]; [exact H1|].
      apply elem_of_cons in H2 as [H2|H2]; [now symmetry|].
      exfalso. exact (str_lt_irrefl _ (str_lt_trans _ _ _ (Ha _ H2) (Hb _ H1))). }
    subst b. f_equal. apply IH; [exact S2|]. intros x. split; intros Hx.
    + pose proof (proj1 (H x) (list_elem_of_further _ _ _ Hx)) as H1.
      apply elem_of_cons in H1 as [->|H1]; [|exact H1].
      exfalso. exact (str_lt_irrefl _ (Ha _ Hx)).
    + pose proof (proj2 (H x) (list_elem_of_further _ _ _ Hx)) as H1.
      apply elem_of_cons in H1 as [->|H1]; [|exact H1].
      exfalso. exact (str_lt_irrefl _ (Hb _ Hx)).
Qed.

(** X19. The list of clues printed does not depend on the order in which
    the clues were collected, nor on how often: two sequences of insertions
    of the same clues give ledgers with the same in-order enumeration (the
    trees themselves can differ). *)
Theorem exibirPistas_ordem_indiferente (ps ps' : list cstr)
  (H : forall q, Some q ∈ ps <-> Some q ∈ ps') :
  exibirPistas (coletar ps) = exibirPistas (coletar ps').
Proof.
  apply ordenadas_iguais.
  - apply bst_ordenada, ledger_bst, ledger_fold, ledger_vazio.
  - apply bst_ordenada, ledger_bst, ledger_fold, ledger_vazio.
  - intros x. rewrite !coletar_conteudo, H. tauto.
Qed.

Lemma exibirPistas_ordem_indiferente_witness :
  let ps := [Some "Pegadas de lama"; Some "Chave perdida"] in
  let ps' := [Some "Chave perdida"; Some "Pegadas de lama"; Some "Chave perdida"] in
  coletar ps <> coletar ps'
  /\ exibirPistas (coletar ps) = exibirPistas (coletar ps').
Proof.
  intros ps ps'. split; [discriminate|].
  apply exibirPistas_ordem_indiferente. intros q. unfold ps, ps'.
  rewrite !elem_of_cons, elem_of_nil. tauto.
Defined.

Lemma inserir_espinha (ps : list string) (p : string) :
  Forall (fun q => str_lt q p) ps -> p <> "" ->
  inserirPista (espinha ps) (Some p) = espinha (ps ++ [p]).
Proof.
  intros Hlt Hp. destruct p as [|c r]; [congruence|]. clear Hp.
  induction Hlt as [|q ps Hq _ IH]; [reflexivity|].
  cbn [espinha foldr app inserirPista]. fold (espinha ps) (espinha (ps ++ [String c r])).
  apply strcmp_gt_lt in Hq. rewrite Hq. now rewrite IH.
Qed.

Lemma StronglySorted_antes (l1 l2 : list string) (x : string) :
  StronglySorted str_lt (l1 ++ x :: l2) -> Forall (fun y => str_lt y x) l1.
Proof.
  induction l1 as [|a l1 IH]; cbn [app]; intros H; [constructor|].
  apply StronglySorted_inv in H as [H Ha]. constructor; [|now apply IH].
  apply Forall_app in Ha as [_ Ha]. now apply Forall_cons in Ha as [Ha _].
Qed.

Lemma coletar_espinha (qs ps : list string) :
  StronglySorted str_lt (ps ++ qs) -> Forall (fun p => p <> "") qs ->
  fold_left inserirPista (Some <$> qs) (espinha ps) = espinha (ps ++ qs).
Proof.
  revert ps. induction qs as [|q qs IH]; intros ps Hs Hne.
  - now rewrite app_nil_r.
  - apply Forall_cons in Hne as [Hq Hne]. rewrite fmap_cons. cbn [fold_left].
    rewrite (inserir_espinha ps q (StronglySorted_antes _ _ _ Hs) Hq).
    rewrite (cons_middle q ps qs), app_assoc in *. now apply IH.
Qed.

Lemma altura_espinha (ps : list string) : altura (espinha ps) = length ps.
Proof.
  induction ps as [|p ps IH]; [reflexivity|].
  cbn [espinha foldr altura length]. fold (espinha ps). now rewrite IH.
Qed.

(** X20. The ledger is never rebalanced: clues inserted in ascending order
    hang one below the other on the right links, so that the tree is as high
    as there are clues. *)
Theorem inserir_em_ordem_degenera (ps : list string)
  (Hs : StronglySorted str_lt ps) (Hne : Forall (fun p => p <> "") ps) :
  coletar (Some <$> ps) = espinha ps
  /\ altura (coletar (Some <$> ps)) = length ps.
Proof.
  assert (H : coletar (Some <$> ps) = espinha ps)
    by exact (coletar_espinha ps [] Hs Hne).
  split; [exact H | rewrite H; apply altura_espinha].
Qed.

Lemma inserir_em_ordem_degenera_witness :
  coletar [Some "Chave perdida"; Some "Gaveta perdida"; Some "Pegadas de lama"]
  = PNode "Chave perdida" PNULL
      (PNode "Gaveta perdida" PNULL (PNode "Pegadas de lama" PNULL PNULL)).
Proof.
  refine (proj1 (inserir_em_ordem_degenera
                   ["Chave perdida"; "Gaveta perdida"; "Pegadas de lama"] _ _)).
  - repeat constructor.
  - repeat constructor; discriminate.
Defined.

(** ** The first-level program *)

Lemma fgets_consome (n : Z) (input buf resto : string) :
  (2 <= n)%Z -> fgets n input = Some (buf, resto) ->
  String.length resto < String.length input.
Proof.
  intros Ht. unfold fgets.
  destruct (Z.leb_spec n 0) as [H0|H0]; [lia|].
  destruct (Z.eqb_spec n 1) as [H1|H1]; [lia|].
  destruct input as [|c input]; [discriminate|].
  pose proof (fgets_bytes_spec (Z.to_nat (n - 1)) (String c input)) as H.
  cbv zeta in H.
  destruct (fgets_bytes (Z.to_nat (n - 1)) (String c input)) as [b r].
  cbn [fst snd] in H. destruct H as (Ha & _ & _ & Hne). intros [= <- <-].
  rewrite <- Ha, length_append.
  assert (b <> "") by (apply Hne; [lia | discriminate]).
  destruct b; [congruence | cbn; lia].
Qed.

(** One turn of the loop of the first level, in a room of a store whose
    links lead to rooms of the store: the loop is left, or input has been
    consumed and the cursor is in a room of the store. *)
Lemma novato_corpo_progride (f : nat -> bool) (m : Novato.Mansao)
  (s : Novato.Exploracao) :
  novato_fechada m -> Novato.atual s < length m ->
  match Novato.corpo f m s with
  | Novato.Continua s1 =>
      String.length (Novato.entrada s1) < String.length (Novato.entrada s)
      /\ Novato.atual s1 < length m
  | Novato.Encerra _ => True
  | Novato.Indefinido => False
  end.
Proof.
  intros Hf Ha. unfold Novato.corpo.
  destruct (_ && _); [exact I|].
  destruct (lookup_lt_is_Some_2 m (Novato.atual s) Ha) as [sala Hm].
  assert (Hm' : m !! Novato.atual s = Some sala) by exact Hm.
  rewrite Hm'. destruct (Hf _ _ Hm') as [He Hd].
  destruct (negb _ && negb _); [exact I|].
  destruct (fgets 64%Z (Novato.entrada s)) as [[buf resto]|] eqn:Eg; [|exact I].
  apply fgets_consome in Eg; [|lia].
  destruct (Ascii.eqb _ "s"); [exact I|].
  destruct (Ascii.eqb _ "e");
    [destruct (Novato.esq sala) as [a|] eqn:E; cbn; split; auto|].
  destruct (Ascii.eqb _ "d");
    [destruct (Novato.dir sala) as [a|] eqn:E; cbn; split; auto|].
  cbn. split; auto.
Qed.

(** X21. The exploration of the first level always ends: in a store whose
    links lead to rooms of the store, whatever the input, the loop is left
    within one iteration more than the input has bytes (every iteration
    that does not leave the loop consumes input, and the end of the input
    leaves it). *)
Theorem novato_sempre_termina (f : nat -> bool) (fuel : nat)
  (m : Novato.Mansao) (s : Novato.Exploracao)
  (Hf : novato_fechada m) (Ha : Novato.atual s < length m)
  (Hfuel : String.length (Novato.entrada s) < fuel) :
  exists s', Novato.laco f fuel m s = Novato.Terminou s'.
Proof.
  revert s Ha Hfuel. induction fuel as [|fuel IH]; intros s Ha Hfuel; [lia|].
  cbn [Novato.laco]. pose proof (novato_corpo_progride f m s Hf Ha) as H.
  destruct (Novato.corpo f m s) as [s1|s1|]; [|now eexists|contradiction].
  destruct H as [Hl Ha1]. apply IH; [exact Ha1 | lia].
Qed.

Lemma novato_mapa_main_fechada : novato_fechada (fst Novato.mapa_main).
Proof.
  intros a sala H.
  do 7 (destruct a as [|a]; [injection H as <-; split; intros b [= <-];
                              vm_compute; lia|]).
  discriminate H.
Qed.

Lemma novato_sempre_termina_witness :
  exists s',
    Novato.laco sempre 9 (fst Novato.mapa_main)
      {| Novato.visitadas := []; Novato.cap := 0; Novato.atual := 0;
         Novato.entrada := linhas ["x"; "y"; "z"]; Novato.saida := [] |}
    = Novato.Terminou s'.
Proof.
  refine (novato_sempre_termina sempre 9 (fst Novato.mapa_main)
            {| Novato.visitadas := []; Novato.cap := 0; Novato.atual := 0;
               Novato.entrada := linhas ["x"; "y"; "z"]; Novato.saida := [] |}
            novato_mapa_main_fechada _ _); vm_compute; lia.
Defined.

(** X22. In the first level a room without doors ends the exploration:
    when the list of visits can take the entry, the loop body records the
    room, says that it has no ways out and leaves the loop without reading
    any input. *)
Theorem novato_folha_encerra (f : nat -> bool) (fuel : nat)
  (m : Novato.Mansao) (s : Novato.Exploracao) (sala : Novato.Sala)
  (Hm : m !! Novato.atual s = Some sala)
  (He : Novato.esq sala = None) (Hd : Novato.dir sala = None)
  (Hc : novato_cabe f s = true) :
  exists s',
    Novato.laco f (S fuel) m s = Novato.Terminou s'
    /\ Novato.visitadas s' = Novato.visitadas s ++ [Novato.nome sala]
    /\ Novato.atual s' = Novato.atual s
    /\ Novato.entrada s' = Novato.entrada s
    /\ Novato.saida s'
       = Novato.saida s ++ [Novato.VoceEstaNaSala (Novato.nome sala);
                            Novato.SalaSemCaminhos].
Proof.
  unfold novato_cabe in Hc. apply negb_true_iff in Hc.
  cbn [Novato.laco]. unfold Novato.corpo. rewrite Hc, Hm, He, Hd.
  cbn [bool_decide decide_rel]. eexists. split; [reflexivity|].
  repeat split.
Qed.

Lemma novato_folha_encerra_witness :
  exists s',
    Novato.laco sempre 1 (fst Novato.mapa_main)
      {| Novato.visitadas := ["Hall de entrada"; "Corredor"]; Novato.cap := 4;
         Novato.atual := 6; Novato.entrada := linhas ["e"];
         Novato.saida := [] |}
    = Novato.Terminou s'
    /\ Novato.visitadas s' = ["Hall de entrada"; "Corredor"; "Jardim"]
    /\ Novato.entrada s' = linhas ["e"].
Proof.
  destruct (novato_folha_encerra sempre 0 (fst Novato.mapa_main)
              {| Novato.visitadas := ["Hall de entrada"; "Corredor"];
                 Novato.cap := 4; Novato.atual := 6;
                 Novato.entrada := linhas ["e"]; Novato.saida := [] |}
              {| Novato.nome := "Jardim"; Novato.esq := None; Novato.dir := None |}
              eq_refl eq_refl eq_refl eq_refl)
    as (s' & Hl & Hv & _ & Hi & _).
  exists s'. repeat split; assumption.
Defined.

(** ** The second level and the master level *)

(** On short lines the buffers of 80 and of 128 bytes read the same. *)
Lemma ler_curtas (ls : list string) :
  Forall (fun l => linha_curta l = true) ls ->
  ler_linha 80 (linhas ls) = ler_linha 128 (linhas ls)
  /\ exists ls', snd (ler_linha 128 (linhas ls)) = linhas ls'
                 /\ Forall (fun l => linha_curta l = true) ls'.
Proof.
  intros [|l ls' Hl Hok].
  - split; [reflexivity|]. exists []. split; [reflexivity | constructor].
  - unfold linha_curta in Hl. apply andb_true_iff in Hl as [Hn Hlen].
    apply Nat.leb_le in Hlen.
    rewrite !(ler_linha_linhas_tam _ l ls' Hn) by lia.
    split; [reflexivity|]. now exists ls'.
Qed.

Lemma entrar_corresponde (f : nat -> bool) (m : Mansao) (ht : HashTable)
  (a : Aventureiro.Exploracao) (b : Exploracao) :
  corresponde a b ->
  passos_correspondem (Aventureiro.entrar f m a) (entrar f m ht b).
Proof.
  destruct a as [h1 c1 a1 p1 i1 o1], b as [h2 c2 a2 p2 i2 o2].
  unfold corresponde. cbn. intros (<- & <- & <- & <- & <-).
  unfold Aventureiro.entrar, entrar. cbn.
  destruct (_ && _); [repeat split|].
  destruct (m !! a1) as [sala|]; [|exact I].
  destruct (pista sala) as [[|c r]|]; repeat split.
Qed.

Lemma decidir_corresponde (m : Mansao) (a : Aventureiro.Exploracao)
  (b : Exploracao) :
  corresponde a b ->
  ler_linha 80 (entrada b) = ler_linha 128 (entrada b) ->
  passos_correspondem (Aventureiro.decidir m a) (decidir m b).
Proof.
  destruct a as [h1 c1 a1 p1 i1 o1], b as [h2 c2 a2 p2 i2 o2].
  unfold corresponde. cbn. intros (<- & <- & <- & <- & <-) Hler.
  unfold Aventureiro.decidir, decidir. cbn. rewrite Hler.
  destruct (m !! a1) as [sala|]; [|exact I].
  destruct (ler_linha 128 i1) as [buf resto].
  destruct (Ascii.eqb _ "s"); [repeat split|].
  destruct (Ascii.eqb _ "e"); [destruct (esq sala); repeat split|].
  destruct (Ascii.eqb _ "d"); [destruct (dir sala); repeat split|].
  repeat split.
Qed.

Lemma laco_corresponde (f : nat -> bool) (fuel : nat) (m : Mansao)
  (ht : HashTable) (a : Aventureiro.Exploracao) (b : Exploracao)
  (ls : list string) :
  corresponde a b -> entrada b = linhas ls ->
  Forall (fun l => linha_curta l = true) ls ->
  resultados_correspondem (Aventureiro.laco f fuel m a) (laco f fuel m ht b).
Proof.
  revert a b ls. induction fuel as [|fuel IH]; intros a b ls Hc Hi Hok;
    [exact I|].
  cbn [Aventureiro.laco laco].
  pose proof (entrar_corresponde f m ht a b Hc) as He.
  destruct (Aventureiro.entrar f m a) as [a1|a1|],
           (entrar f m ht b) as [b1|b1|] eqn:Eb;
    try contradiction; try exact He.
  apply entrar_Continua in Eb as (sala & _ & _ & _ & _ & _ & Hen & _).
  destruct (ler_curtas ls Hok) as [Hler (ls' & Hls' & Hok')].
  rewrite <- Hi, <- Hen in Hler, Hls'.
  pose proof (decidir_corresponde m a1 b1 He Hler) as Hd.
  destruct (Aventureiro.decidir m a1) as [a2|a2|],
           (decidir m b1) as [b2|b2|] eqn:Eb2;
    try contradiction; try exact Hd.
  apply decidir_Continua in Eb2 as (sala1 & _ & _ & _ & _ & Hen2 & _).
  apply (IH a2 b2 ls' Hd); [|exact Hok']. now rewrite Hen2.
Qed.

(** X23. On an input of lines of at most 78 bytes, which both buffers take
    whole, the exploration of the second level and the exploration of the
    master level go the same way in the same store: they end the same way,
    with the same history, capacity, cursor, ledger and input left, whatever
    the suspect index of the master level is. *)
Theorem aventureiro_mesmo_percurso (f : nat -> bool) (fuel : nat) (m : Mansao)
  (ht : HashTable) (inicio : SalaPtr) (pistas : PistaNode) (ls : list string)
  (Hok : Forall (fun l => linha_curta l = true) ls) :
  resultados_correspondem
    (Aventureiro.explorarSalasComPistas f fuel m inicio pistas (linhas ls))
    (explorarSalas f fuel m inicio ht pistas (linhas ls)).
Proof.
  unfold Aventureiro.explorarSalasComPistas, explorarSalas.
  destruct inicio as [a|]; [|repeat split].
  pose proof (laco_corresponde f fuel m ht
                {| Aventureiro.historico := []; Aventureiro.cap := 0;
                   Aventureiro.atual := a; Aventureiro.pistasRoot := pistas;
                   Aventureiro.entrada := linhas ls; Aventureiro.saida := [] |}
                {| historico := []; cap := 0; atual := a; pistasRoot := pistas;
                   entrada := linhas ls; saida := [] |}
                ls ltac:(repeat split) eq_refl Hok) as H.
  destruct (Aventureiro.laco f fuel m _) as [s1| |],
           (laco f fuel m ht _) as [s2| |];
    try contradiction; try exact I.
  exact H.
Qed.

Lemma aventureiro_mesmo_percurso_witness :
  Forall (fun l => linha_curta l = true) ["d"; "e"; "s"]
  /\ resultados_correspondem
       (Aventureiro.explorarSalasComPistas sempre 3 (fst mapa_main) (Some 0)
          PNULL (linhas ["d"; "e"; "s"]))
       (explorarSalas sempre 3 (fst mapa_main) (Some 0) hash_main PNULL
          (linhas ["d"; "e"; "s"])).
Proof.
  assert (Hok : Forall (fun l => linha_curta l = true) ["d"; "e"; "s"])
    by (repeat constructor).
  split; [exact Hok|].
  exact (aventureiro_mesmo_percurso sempre 3 (fst mapa_main) hash_main (Some 0)
           PNULL ["d"; "e"; "s"] Hok).
Defined.

(** ** The program as a whole *)

Ltac resolve_pertence :=
  rewrite ?list_elem_of_In in *; cbn [In] in *; intuition congruence.

(** The rooms of the map of [main]: their clue is on their way, and the way
    to a room behind one of their doors goes on from theirs. *)
Lemma mapa_main_caminho (a : nat) (sala : Sala) :
  fst mapa_main !! a = Some sala ->
  (forall p, pista sala = Some p -> p ∈ pistas_no_caminho a)
  /\ (forall b, esq sala = Some b \/ dir sala = Some b ->
        b < 7 /\ forall p, p ∈ pistas_no_caminho a -> p ∈ pistas_no_caminho b).
Proof.
  intros H.
  do 7 (destruct a as [|a];
        [injection H as <-; split;
         [intros p [= <-]; cbn [pistas_no_caminho]; resolve_pertence
         |intros b [[= <-]|[= <-]]; (split; [lia|]); intros p;
          cbn [pistas_no_caminho]; resolve_pertence]|]).
  discriminate H.
Qed.

(** What the exploration of the map of [main] keeps: the cursor is in one of
    the seven rooms and the ledger holds only clues of the way to it. *)
Lemma laco_main_caminho (f : nat -> bool) (fuel : nat) (s s' : Exploracao) :
  atual s < 7 -> ledger (pistasRoot s) ->
  (forall p, p ∈ exibirPistas (pistasRoot s) -> p ∈ pistas_no_caminho (atual s)) ->
  laco f fuel (fst mapa_main) hash_main s = Terminou s' ->
  atual s' < 7 /\ ledger (pistasRoot s')
  /\ forall p, p ∈ exibirPistas (pistasRoot s') -> p ∈ pistas_no_caminho (atual s').
Proof.
  intros Ha L Hp Hl.
  refine (laco_invariante
            (fun s => atual s < 7 /\ ledger (pistasRoot s)
                      /\ forall p, p ∈ exibirPistas (pistasRoot s) ->
                                   p ∈ pistas_no_caminho (atual s))
            f (fst mapa_main) hash_main _ _ _ _ fuel s s' _ Hl).
  - intros s1 s2 (Ha1 & L1 & Hp1) He.
    apply entrar_Continua in He as (sala & Hm & _ & _ & _ & Hat & _ & Hpi & _).
    rewrite Hat, Hpi. split; [exact Ha1|]. split; [now constructor|].
    destruct (mapa_main_caminho _ _ Hm) as [Hc _].
    destruct (pista sala) as [[|c r]|];
      [now rewrite inserirPista_vazia | | now rewrite inserirPista_NULL].
    intros p. rewrite elem_of_inserirPista by congruence.
    intros [->|H]; [now apply Hc | now apply Hp1].
  - intros s1 s2 HP He. apply entrar_Encerra in He as [_ ->]. exact HP.
  - intros s1 s2 (Ha1 & L1 & Hp1) He.
    apply decidir_Continua in He as (sala & Hm & _ & _ & Hpi & _ & Hmv & _).
    rewrite Hpi. destruct (mapa_main_caminho _ _ Hm) as [_ Hd].
    destruct Hmv as [->|Hmv]; [now repeat split|].
    destruct (Hd _ Hmv) as [Hb Hinc]. repeat split; auto.
  - intros s1 s2 HP He. apply decidir_Encerra in He as ->. exact HP.
  - repeat split; assumption.
Qed.

Lemma verificar_Guilty (t : PistaNode) (ht : HashTable) (input : string) :
  veredito (verificarSuspeitoFinal t ht input) = Guilty ->
  exists e, e ∈ contar_pistas_por_suspeito t ht []
            /\ normalizado (sc_nome e) = normalizado (fst (ler_linha 128 input))
            /\ (2 <= cont e)%Z.
Proof.
  destruct t as [|p e d]; [discriminate|].
  set (t := PNode p e d). unfold verificarSuspeitoFinal. cbv iota beta.
  unfold t at 1. destruct (ler_linha 128 input) as [buf resto]. cbn [fst].
  destruct buf as [|c r]; [discriminate|].
  unfold julgar. fold (normalizado (String c r)).
  destruct (buscar _ _) as [n|] eqn:Hb; [|discriminate].
  destruct (2 <=? n)%Z eqn:Hn; [|discriminate]. intros _.
  apply Z.leb_le in Hn. apply buscar_Some in Hb as (en & Hin & Hnome & <-).
  now exists en.
Qed.

(** X24. In the game as [main] builds it, only the gardener can be found
    guilty: whatever the input, when the program reaches the verdict
    [Guilty], the exploration has ended in the garden, the ledger holds the
    clue of the hall and the clue of the garden, and the accused name typed
    is, in lower case, "jardineiro". *)
Theorem so_o_jardineiro_e_culpado (f : nat -> bool) (fuel : nat)
  (input : string) (s : Exploracao) (j : Julgamento)
  (Hm : main f fuel input = Some (s, j))
  (Hg : veredito j = Guilty) :
  atual s = 6
  /\ "Pegadas de lama" ∈ exibirPistas (pistasRoot s)
  /\ "Gaveta perdida" ∈ exibirPistas (pistasRoot s)
  /\ str_lower (fst (ler_linha 128 (entrada s))) = "jardineiro".
Proof.
  unfold main in Hm. change mapa_main with (fst mapa_main, 0) in Hm.
  cbv beta iota in Hm. unfold explorarSalas in Hm.
  destruct (laco f fuel (fst mapa_main) hash_main _) as [s1| |] eqn:El;
    try discriminate Hm.
  injection Hm as <- <-.
  apply laco_main_caminho in El as (Ha & L & Hp);
    [|cbn; lia | constructor | intros p H; now apply elem_of_nil in H].
  cbn [mostrar_historico atual pistasRoot entrada] in *.
  apply verificar_Guilty in Hg as (e & Hin & Hnome & Hc).
  rewrite (cont_da_contagem _ _ _ Hin) in Hc.
  assert (Hnd : NoDup (apontam_para hash_main (sc_nome e)
                         (exibirPistas (pistasRoot s1))))
    by (apply NoDup_filter, ordenada_NoDup, bst_ordenada, ledger_bst, L).
  destruct (apontam_para hash_main (sc_nome e) (exibirPistas (pistasRoot s1)))
    as [|p1 [|p2 rest]] eqn:Ef; [cbn in Hc; lia..|].
  assert (H1 : p1 ∈ apontam_para hash_main (sc_nome e)
                      (exibirPistas (pistasRoot s1)))
    by (rewrite Ef; apply list_elem_of_here).
  assert (H2 : p2 ∈ apontam_para hash_main (sc_nome e)
                      (exibirPistas (pistasRoot s1)))
    by (rewrite Ef; apply list_elem_of_further, list_elem_of_here).
  apply list_elem_of_filter in H1 as [E1 I1], H2 as [E2 I2].
  assert (Hne : p1 <> p2).
  { apply NoDup_cons in Hnd as [Hn1 _]. intros ->. apply Hn1.
    apply list_elem_of_here. }
  pose proof (Hp _ I1) as C1. pose proof (Hp _ I2) as C2.
  assert (Hlen : String.length (fst (ler_linha 128 (entrada s1))) <= 127)
    by exact (ler_linha_curta 128 (entrada s1)).
  rewrite (normalizado_curto _ Hlen) in Hnome.
  assert (Hres : atual s1 = 6 /\ sc_nome e = "Jardineiro"
                 /\ (p1 = "Pegadas de lama" /\ p2 = "Gaveta perdida"
                     \/ p1 = "Gaveta perdida" /\ p2 = "Pegadas de lama")).
  { destruct (atual s1) as [|[|[|[|[|[|[|a]]]]]]]; [..|lia];
      cbn [pistas_no_caminho] in C1, C2;
      rewrite ?elem_of_cons, ?elem_of_nil in C1, C2;
      repeat match goal with H : _ \/ _ |- _ => destruct H end;
      try contradiction; subst; try congruence;
      vm_compute in E1, E2; try congruence;
      injection E1 as E1; repeat split; auto. }
  destruct Hres as (Hat & Hn & Hps). rewrite Hn in Hnome.
  split; [exact Hat|].
  split; [destruct Hps as [[<- _]|[_ <-]]; assumption|].
  split; [destruct Hps as [[_ <-]|[<- _]]; assumption|].
  now rewrite <- Hnome.
Qed.

Lemma so_o_jardineiro_e_culpado_witness :
  exists s j,
    main sempre 3 (linhas ["d"; "d"; "s"; "JARDINEIRO"]) = Some (s, j)
    /\ veredito j = Guilty
    /\ atual s = 6.
Proof.
  destruct (main sempre 3 (linhas ["d"; "d"; "s"; "JARDINEIRO"]))
    as [[s j]|] eqn:E; [|vm_compute in E; discriminate E].
  assert (Hg : veredito j = Guilty)
    by (vm_compute in E; injection E as <- <-; reflexivity).
  exists s, j. split; [reflexivity|]. split; [exact Hg|].
  exact (proj1 (so_o_jardineiro_e_culpado sempre 3 _ s j E Hg)).
Defined.

Lemma tabela_ok_inserir_cstr (ht : HashTable) (k v : cstr) :
  tabela_ok ht -> tabela_ok (inserirNaHash ht k v).
Proof.
  destruct k as [k|], v as [v|]; try (intros H; exact H).
  apply tabela_ok_inserir.
Qed.

(** X25. The table keeps its shape: a table created with at least one
    bucket and filled by any calls of [inserirNaHash], calls with a [NULL]
    key or suspect included, has the number of buckets it was created with,
    every entry in the chain of the bucket its key hashes to, and no key
    twice. *)
Theorem tabela_mantem_forma (n : nat) (ps : list (cstr * cstr)) (Hn : 0 < n) :
  let ht := fold_left (fun h kv => inserirNaHash h (fst kv) (snd kv)) ps
                      (criarHash n) in
  tabela_ok ht
  /\ tamanho ht = n
  /\ length (buckets ht) = n
  /\ NoDup (chaves ht)
  /\ forall i e, i < n -> e ∈ buckets ht !!! i -> balde ht (chave e) = i.
Proof.
  cbv zeta.
  assert (H : forall ht, tabela_ok ht ->
            tabela_ok (fold_left (fun h kv => inserirNaHash h (fst kv) (snd kv))
                                 ps ht)
            /\ tamanho (fold_left (fun h kv => inserirNaHash h (fst kv) (snd kv))
                                  ps ht) = tamanho ht).
  { induction ps as [|[k v] ps IH]; intros ht Hok; [now split|].
    cbn [fold_left fst snd].
    destruct (IH _ (tabela_ok_inserir_cstr ht k v Hok)) as [H1 H2].
    split; [exact H1|]. now rewrite H2, tamanho_inserirNaHash. }
  destruct (H _ (tabela_ok_criarHash n Hn)) as [Hok Ht]. cbn [criarHash tamanho] in Ht.
  split; [exact Hok|]. split; [exact Ht|].
  pose proof Hok as (_ & Hlen & Hb).
  split; [now rewrite Hlen|]. split; [now apply tabela_ok_NoDup|].
  intros i e Hi He. rewrite <- Ht in Hi. destruct (Hb i Hi) as [_ Hg].
  apply Hg. now apply list_elem_of_fmap_2.
Qed.

Lemma tabela_mantem_forma_witness :
  0 < 31 /\ tabela_ok hash_main /\ tamanho hash_main = 31.
Proof.
  split; [lia|].
  destruct (tabela_mantem_forma 31
              [(Some "Pegadas de lama", Some "Jardineiro");
               (Some "Gaveta perdida", Some "Jardineiro");
               (Some "Chave perdida", Some "Empregado");
               (Some "Lençol manchado", Some "Empregado");
               (Some "Livro com página faltando", Some "Bibliotecário")]
              ltac:(lia)) as (Hok & Ht & _).
  split; [exact Hok | exact Ht].
Defined.
